(** * Voice assistant: audio codec, playback scheduling and session lifecycle

    A shallow embedding of [components/VoiceAssistant.tsx] (the audio
    utilities [decode], [encode], [decodeAudioData] and the component's
    [cleanup], [startSession] and connection callbacks) together with the
    host callback that [App.tsx] passes as [onCommand].

    Conventions.
    - JavaScript numbers that hold times and sample values are modelled as
      exact rationals ([Q]).  Every arithmetic step the modelled code takes on
      sample values is a multiplication or division by [32768 = 2^15] of a
      16-bit integer or of a 32-bit float, which binary floating point
      performs without rounding, so nothing is lost on those paths.
    - Byte buffers are [list byte]; a typed-array view is a list of the
      element type, and an out-of-range indexed store is dropped, as in
      JavaScript.
    - Strings are [string]: sequences of 8-bit code units.  [atob] rejects
      every code unit above 255, and [btoa] is only ever applied to strings
      built from bytes, so the wider code units of JavaScript strings are not
      needed.
    - Exceptions are values of [result].
    - The event loop is explicit.  A handler is split at its [await] into
      the part that runs in the task and a job of the microtask queue; a
      promise rejection that nothing handles is a job as well.  A world is
      the component with the closure of one call of [startSession]; a
      page has a closure for every call. *)

From Stdlib Require Import ZArith NArith QArith Qround Qminmax Lia.
From Stdlib Require Import Strings.Ascii Strings.String Strings.Byte.
From stdpp Require Import base option list gmap strings.

(** ** Exceptions *)

Inductive Error : Type :=
| InvalidCharacterError   (* DOMException thrown by atob *)
| RangeError              (* typed-array view over a misaligned buffer *)
| NotSupportedError       (* DOMException thrown by createBuffer *)
| TypeError               (* property access on undefined *)
| NotAllowedError         (* getUserMedia: permission denied *)
| ConnectionError.        (* the remote connection could not be opened *)

Inductive result (A : Type) : Type :=
| Ok (a : A)
| Throw (e : Error).
Arguments Ok {A} a.
Arguments Throw {A} e.

Definition is_ok {A} (r : result A) : bool :=
  match r with Ok _ => true | Throw _ => false end.

Definition bind_result {A B} (r : result A) (k : A -> result B) : result B :=
  match r with Ok a => k a | Throw e => Throw e end.

(** ** The platform's base64 primitives

    [btoa] and [atob] are the browser's functions; they are modelled after
    the "forgiving-base64" encode and decode algorithms of the WHATWG Infra
    standard, which is what the HTML standard prescribes for them. *)

Module Base64.
Local Open Scope N_scope.

(** The 64 characters of the alphabet, indexed by their 6-bit value. *)
Definition char_of_sextet (v : N) : ascii :=
  if v <? 26 then ascii_of_N (65 + v)
  else if v <? 52 then ascii_of_N (97 + (v - 26))
  else if v <? 62 then ascii_of_N (48 + (v - 52))
  else if v =? 62 then "+"%char
  else "/"%char.

Definition sextet_of_char (c : ascii) : option N :=
  let n := N_of_ascii c in
  if (65 <=? n) && (n <=? 90) then Some (n - 65)
  else if (97 <=? n) && (n <=? 122) then Some (n - 97 + 26)
  else if (48 <=? n) && (n <=? 57) then Some (n - 48 + 52)
  else if n =? 43 then Some 62
  else if n =? 47 then Some 63
  else None.

(** ASCII whitespace: TAB, LF, FF, CR and SPACE. *)
Definition is_ascii_whitespace (c : ascii) : bool :=
  let n := N_of_ascii c in
  (n =? 9) || (n =? 10) || (n =? 12) || (n =? 13) || (n =? 32).

Definition pad : ascii := "="%char.

Definition byte_of_N (n : N) : byte :=
  match Byte.of_N (n mod 256) with
  | Some b => b
  | None => x00
  end.

(** Three bytes become four 6-bit values; a final group of one or two
    bytes becomes two or three 6-bit values (zero bits fill the last). *)
Fixpoint sextets_of_bytes (bs : list byte) : list N :=
  match bs with
  | [] => []
  | [a] =>
      let a := Byte.to_N a in
      [a / 4; (a mod 4) * 16]
  | [a; b] =>
      let a := Byte.to_N a in
      let b := Byte.to_N b in
      [a / 4; (a mod 4) * 16 + b / 16; (b mod 16) * 4]
  | a :: b :: c :: rest =>
      let a := Byte.to_N a in
      let b := Byte.to_N b in
      let c := Byte.to_N c in
      a / 4 :: (a mod 4) * 16 + b / 16 :: (b mod 16) * 4 + c / 64 :: c mod 64
        :: sextets_of_bytes rest
  end.

(** Number of padding characters: the output length is a multiple of 4. *)
Definition padding (bs : list byte) : nat :=
  match (length bs mod 3)%nat with
  | 1%nat => 2%nat
  | 2%nat => 1%nat
  | _ => 0%nat
  end.

Definition encode_chars (bs : list byte) : list ascii :=
  map char_of_sextet (sextets_of_bytes bs) ++ replicate (padding bs) pad.

(** [btoa] applied to a binary string. *)
Definition btoa (binary : string) : string :=
  string_of_list_ascii (encode_chars (list_byte_of_string binary)).

(** Four 6-bit values become three bytes.  Of a final group of two values
    the last four bits are discarded, of a final group of three the last
    two bits. *)
Fixpoint bytes_of_sextets (vs : list N) : list byte :=
  match vs with
  | a :: b :: c :: d :: rest =>
      byte_of_N (a * 4 + b / 16) :: byte_of_N ((b mod 16) * 16 + c / 4)
        :: byte_of_N ((c mod 4) * 64 + d) :: bytes_of_sextets rest
  | [a; b; c] =>
      [byte_of_N (a * 4 + b / 16); byte_of_N ((b mod 16) * 16 + c / 4)]
  | [a; b] => [byte_of_N (a * 4 + b / 16)]
  | _ => []
  end.

(** Step 2 of forgiving-base64 decode: when the length is a multiple of 4,
    one or two trailing [=] are removed. *)
Definition strip_padding (cs : list ascii) : list ascii :=
  if (length cs mod 4 =? 0)%nat then
    match rev cs with
    | c1 :: c2 :: r =>
        if Ascii.eqb c1 pad then
          if Ascii.eqb c2 pad then rev r else rev (c2 :: r)
        else cs
    | [c1] => if Ascii.eqb c1 pad then [] else cs
    | [] => cs
    end
  else cs.

Definition decode_chars (cs : list ascii) : result (list byte) :=
  let cs := List.filter (fun c => negb (is_ascii_whitespace c)) cs in
  let cs := strip_padding cs in
  if (length cs mod 4 =? 1)%nat then Throw InvalidCharacterError
  else
    match mapM sextet_of_char cs with
    | Some vs => Ok (bytes_of_sextets vs)
    | None => Throw InvalidCharacterError
    end.

(** [atob]: the result is a binary string. *)
Definition atob (data : string) : result string :=
  match decode_chars (list_ascii_of_string data) with
  | Ok bs => Ok (string_of_list_byte bs)
  | Throw e => Throw e
  end.

(** *** Canonical base64 text (RFC 4648)

    Groups of four characters of the alphabet; the last group may end in
    one or two [=], and then the bits of its last character that encode no
    data are zero. *)

Definition sextet_is (c : ascii) (p : N -> bool) : bool :=
  match sextet_of_char c with
  | Some v => p v
  | None => false
  end.

Definition is_alphabet (c : ascii) : bool := sextet_is c (fun _ => true).

Fixpoint canonical_chars (cs : list ascii) : bool :=
  match cs with
  | [] => true
  | c1 :: c2 :: c3 :: c4 :: rest =>
      is_alphabet c1 &&
      match rest with
      | [] =>
          if Ascii.eqb c4 pad then
            if Ascii.eqb c3 pad then sextet_is c2 (fun v => v mod 16 =? 0)
            else is_alphabet c2 && sextet_is c3 (fun v => v mod 4 =? 0)
          else is_alphabet c2 && is_alphabet c3 && is_alphabet c4
      | _ => is_alphabet c2 && is_alphabet c3 && is_alphabet c4 && canonical_chars rest
      end
  | _ => false
  end.

Definition canonical (x : string) : bool := canonical_chars (list_ascii_of_string x).

End Base64.

(** ** Audio utilities *)

(** [decode]: the loop copies [binaryString.charCodeAt(i)] into [bytes[i]]. *)
Definition decode (base64 : string) : result (list byte) :=
  match Base64.atob base64 with
  | Ok binaryString => Ok (list_byte_of_string binaryString)
  | Throw e => Throw e
  end.

(** [encode]: the loop appends [String.fromCharCode(bytes[i])] to [binary]. *)
Definition encode (bytes : list byte) : string :=
  Base64.btoa (string_of_list_byte bytes).

(** ** Numbers and typed arrays *)

(** A JavaScript number: a finite value, [NaN] or an infinity.  Finite values
    are exact rationals. *)
Inductive number : Type :=
| Num (q : Q)
| NaN
| Infinity (negative : bool).

(** [x / 32768.0], where [x] is [undefined] ([None]) when the index read was
    out of range: [undefined / 32768.0] is [NaN]. *)
Definition div_32768 (x : option Z) : number :=
  match x with
  | Some v => Num (inject_Z v / 32768)
  | None => NaN
  end.

(** [v * 32768] *)
Definition mul_32768 (v : number) : number :=
  match v with
  | Num q => Num (q * 32768)
  | NaN => NaN
  | Infinity s => Infinity s
  end.

(** Truncation toward zero. *)
Definition Qtrunc (q : Q) : Z := Z.quot (Qnum q) (Z.pos (Qden q)).

(** The conversion applied by a store into an [Int16Array]: [NaN] and the
    infinities become 0, a finite value is truncated toward zero and reduced
    modulo [2^16] into [-32768 .. 32767]. *)
Definition ToInt16 (x : number) : Z :=
  match x with
  | Num q =>
      let int16bit := (Qtrunc q mod 65536)%Z in
      if (int16bit <? 32768)%Z then int16bit else (int16bit - 65536)%Z
  | NaN | Infinity _ => 0%Z
  end.

(** The conversion of a number to a Web IDL [unsigned long] argument. *)
Definition ToUint32 (x : number) : nat :=
  match x with
  | Num q => Z.to_nat (Qtrunc q mod 4294967296)
  | NaN | Infinity _ => 0%nat
  end.

(** One little-endian 16-bit element read through an [Int16Array] view. *)
Definition int16_of_bytes (lo hi : byte) : Z :=
  let u := (Z.of_N (Byte.to_N lo) + 256 * Z.of_N (Byte.to_N hi))%Z in
  if (u <? 32768)%Z then u else (u - 65536)%Z.

Fixpoint int16_elements (buffer : list byte) : list Z :=
  match buffer with
  | lo :: hi :: rest => int16_of_bytes lo hi :: int16_elements rest
  | _ => []
  end.

(** [new Int16Array(buffer)]: a [RangeError] when the byte length of the
    buffer is not a multiple of the element size. *)
Definition Int16Array_of_buffer (buffer : list byte) : result (list Z) :=
  if Nat.even (length buffer) then Ok (int16_elements buffer)
  else Throw RangeError.

(** The two bytes of an [Int16Array] element, least significant first. *)
Definition bytes_of_int16 (v : Z) : list byte :=
  [Base64.byte_of_N (Z.to_N (v mod 256));
   Base64.byte_of_N (Z.to_N ((v / 256) mod 256))].

(** [new Uint8Array(int16.buffer)] *)
Definition Uint8Array_of_int16 (int16 : list Z) : list byte :=
  flat_map bytes_of_int16 int16.

(** ** Web Audio buffers *)

Record AudioContext : Type := { currentTime : Q }.

Record AudioBuffer : Type := {
  numberOfChannels : nat;
  frames : nat;                       (* [buffer.length] *)
  sampleRate : Q;
  channels : list (list number)       (* one [Float32Array] per channel *)
}.

(** [buffer.duration], in seconds. *)
Definition duration (b : AudioBuffer) : Q :=
  inject_Z (Z.of_nat (frames b)) / sampleRate b.

(** [ctx.createBuffer(numberOfChannels, length, sampleRate)].  The Web Audio
    API throws [NotSupportedError] when an argument is zero or outside its
    nominal range; the ranges taken here are the ones every implementation
    has to support (up to 32 channels, 8000 Hz to 96000 Hz).  The new buffer
    is silent. *)
Definition createBuffer (ctx : AudioContext) (numChannels : nat)
    (length : number) (rate : Q) : result AudioBuffer :=
  let len := ToUint32 length in
  if (1 <=? numChannels)%nat && (numChannels <=? 32)%nat && (1 <=? len)%nat
     && Qle_bool 8000 rate && Qle_bool rate 96000
  then Ok {| numberOfChannels := numChannels; frames := len; sampleRate := rate;
             channels := replicate numChannels (replicate len (Num 0)) |}
  else Throw NotSupportedError.

(** Number of iterations of [for (let i = 0; i < bound; i++)].  The bound
    of the loops of [decodeAudioData] is infinite or [NaN] only for zero
    channels, and then [createBuffer] has thrown before the loops. *)
Definition iterations (bound : number) : nat :=
  match bound with
  | Num q => Z.to_nat (Qceiling q)
  | NaN | Infinity _ => 0%nat
  end.

(** [dataInt16.length / numChannels] *)
Definition js_div (a b : nat) : number :=
  match b with
  | O => match a with O => NaN | _ => Infinity false end
  | _ => Num (inject_Z (Z.of_nat a) / inject_Z (Z.of_nat b))
  end.

(** The inner loop of [decodeAudioData] for one channel. *)
Definition fill_channel (dataInt16 : list Z) (numChannels : nat)
    (frameCount : number) (channel : nat) (channelData : list number)
    : list number :=
  foldl (fun cd i => <[i := div_32768 (dataInt16 !! (i * numChannels + channel)%nat)]> cd)
        channelData (seq 0 (iterations frameCount)).

(** [decodeAudioData(data, ctx, sampleRate, numChannels)].  [data] is a
    [Uint8Array] that spans its whole buffer, as the one [decode] returns. *)
Definition decodeAudioData (data : list byte) (ctx : AudioContext)
    (rate : Q) (numChannels : nat) : result AudioBuffer :=
  bind_result (Int16Array_of_buffer data) (fun dataInt16 =>
  let frameCount := js_div (length dataInt16) numChannels in
  bind_result (createBuffer ctx numChannels frameCount rate) (fun buffer =>
  Ok {| numberOfChannels := numberOfChannels buffer;
        frames := frames buffer;
        sampleRate := sampleRate buffer;
        channels :=
          foldl (fun chans channel =>
                   alter (fill_channel dataInt16 numChannels frameCount channel)
                         channel chans)
                (channels buffer) (seq 0 numChannels) |})).

(** ** Capture: one microphone frame to one outbound message *)

Record Blob : Type := { data : string; mimeType : string }.

(** The loop [int16[i] = inputData[i] * 32768]. *)
Definition int16_of_floats (inputData : list number) : list Z :=
  map (fun v => ToInt16 (mul_32768 v)) inputData.

(** The blob built by [scriptProcessor.onaudioprocess]. *)
Definition audio_blob (inputData : list number) : Blob :=
  let int16 := int16_of_floats inputData in
  {| data := encode (Uint8Array_of_int16 int16);
     mimeType := "audio/pcm;rate=16000" |}.

(** ** Messages of the live connection *)

Record FunctionCall : Type := {
  fc_id : string;
  fc_name : string;
  fc_args : option (gmap string string)      (* [args] is optional *)
}.

(** The parts of a [LiveServerMessage] that [onmessage] reads. *)
Record LiveServerMessage : Type := {
  (* [serverContent?.inputTranscription], with its [text] *)
  inputTranscription : option (option string);
  (* [toolCall.functionCalls] *)
  toolCall : option (list FunctionCall);
  (* [serverContent?.modelTurn?.parts[0]?.inlineData?.data] *)
  base64Audio : option string;
  interrupted : bool;
  turnComplete : bool
}.

(** ** The host: the callback that [App] passes as [onCommand] *)

Module App.

Record State : Type := {
  isMenuOpen : bool;
  theme : bool;                       (* [true] is [dark] *)
  isAdminOpen : bool;
  scrolledTo : option string          (* last section scrolled into view *)
}.

(** The sections that exist in the page: [<id>-section]. *)
Definition section_exists (section : string) : bool :=
  bool_decide (section = "home" \/ section = "work" \/ section = "skills").

(** A property read [args.section] of an object; absent is [undefined],
    which formats as ["undefined"] in the template string. *)
Definition section_of (args : gmap string string) : string :=
  default "undefined" (args !! "section").

Definition navigateTo (section : string) (st : State) : State :=
  let st := {| isMenuOpen := false; theme := theme st;
               isAdminOpen := isAdminOpen st; scrolledTo := scrolledTo st |} in
  if section_exists section
  then {| isMenuOpen := isMenuOpen st; theme := theme st;
          isAdminOpen := isAdminOpen st; scrolledTo := Some section |}
  else st.

Definition toggleTheme (st : State) : State :=
  {| isMenuOpen := isMenuOpen st; theme := negb (theme st);
     isAdminOpen := isAdminOpen st; scrolledTo := scrolledTo st |}.

Definition setIsAdminOpen (v : bool) (st : State) : State :=
  {| isMenuOpen := isMenuOpen st; theme := theme st;
     isAdminOpen := v; scrolledTo := scrolledTo st |}.

(** The three [if] statements of the callback, in order.  Reading
    [args.section] of an absent [args] throws a [TypeError]. *)
Definition onCommand (cmd : string) (args : option (gmap string string))
    (st : State) : result State :=
  bind_result
    (if bool_decide (cmd = "navigateTo") then
       match args with
       | Some a => Ok (navigateTo (section_of a) st)
       | None => Throw TypeError
       end
     else Ok st) (fun st =>
  let st := if bool_decide (cmd = "toggleTheme") then toggleTheme st else st in
  let st := if bool_decide (cmd = "openAdmin") then setIsAdminOpen true st else st in
  Ok st).

End App.

(** ** The voice assistant component *)

Record Contexts : Type := { input : Q; output : Q }.   (* sample rates *)

Record ScriptProcessor : Type := {
  bufferSize : nat;
  numberOfInputChannels : nat;
  numberOfOutputChannels : nat
}.

(** What the component does to the outside, in order. *)
Inductive Effect : Type :=
| ConsoleError (e : Error)
| GetUserMedia
| Connect
| SessionClose (session : nat)
| SendRealtimeInput (session : nat) (media : Blob)
| SendToolResponse (session : nat) (id name result : string)
| SourceStart (source : nat) (buffer : AudioBuffer) (when : Q)
| SourceStop (source : nat)
| Uncaught (e : Error).

(** A callback registered with [sessionPromise.then]. *)
Inductive Reaction : Type :=
| ToolResponse (fc : FunctionCall)
| RealtimeInput (media : Blob).

Inductive Promise : Type :=
| NoPromise
| Pending (reactions : list Reaction)
| Fulfilled (session : nat)
| Rejected (e : Error).

(** A job of the microtask queue: a reaction of the fulfilled session
    promise; the rejection of the promise that [then] derives from a
    rejected session promise, which nothing handles; or the rest of
    [onmessage] after [await decodeAudioData(...)]. *)
Inductive Microtask : Type :=
| React (session : nat) (r : Reaction)
| Unhandled (e : Error)
| Resume (decoded : result AudioBuffer) (message : LiveServerMessage).

Inductive Lifecycle : Type := Idle | Connecting | Active.

(** The function calls of a message. *)
Definition calls (message : LiveServerMessage) : list FunctionCall :=
  default [] (toolCall message).

(** The playback part of a trace, and its acknowledgements. *)
Definition is_playback (e : Effect) : bool :=
  match e with SourceStart _ _ _ | SourceStop _ => true | _ => false end.

Definition is_tool_response (e : Effect) : bool :=
  match e with SendToolResponse _ _ _ _ => true | _ => false end.

Definition playback (tr : list Effect) : list Effect := List.filter is_playback tr.

Definition acknowledgements (tr : list Effect) : list Effect :=
  List.filter is_tool_response tr.

(** What becomes of the audio of a message (the output context exists). *)
Inductive AudioOutcome : Type :=
| NoAudio
| Scheduled (buffer : AudioBuffer)
| Dropped (e : Error).

Definition audio_outcome (message : LiveServerMessage) : AudioOutcome :=
  match base64Audio message with
  | None => NoAudio
  | Some b64 =>
      if bool_decide (b64 = EmptyString) then NoAudio
      else
        match decode b64 with
        | Throw e => Dropped e
        | Ok bytes =>
            match decodeAudioData bytes {| currentTime := 0 |} 24000 1 with
            | Ok buffer => Scheduled buffer
            | Throw e => Dropped e
            end
        end
  end.

(** The [stop] calls of an interruption. *)
Definition stops_if (b : bool) (srcs : list nat) : list Effect :=
  if b then map SourceStop srcs else [].

(** Starts laid end to end from a cursor. *)
Fixpoint gapless_starts (source : nat) (cursor : Q) (buffers : list AudioBuffer)
    : list Effect :=
  match buffers with
  | [] => []
  | b :: rest =>
      SourceStart source b cursor :: gapless_starts (S source) (cursor + duration b) rest
  end.

(** The buffers started, in the order of their starts. *)
Definition started_buffers (tr : list Effect) : list AudioBuffer :=
  omap (fun e => match e with SourceStart _ b _ => Some b | _ => None end) tr.

(** The fragments of a sequence of arrivals that decode, in arrival order. *)
Definition scheduled (ms : list (Q * LiveServerMessage)) : list AudioBuffer :=
  omap (fun m => match audio_outcome (snd m) with Scheduled b => Some b | _ => None end) ms.

Section VoiceAssistant.

Context {Host : Type}.
Variable onCommand : string -> option (gmap string string) -> Host -> result Host.

Record World : Type := {
  (* React state *)
  isActive : bool;
  isConnecting : bool;
  transcript : string;
  (* refs *)
  sessionRef : option nat;
  audioContexts : option Contexts;
  nextStartTime : Q;
  sources : list nat;
  (* closure of the call of [startSession] that the world holds *)
  sessionPromise : Promise;
  (* the platform and the host *)
  microphone : bool;                      (* a stream has been acquired *)
  capture : option ScriptProcessor;       (* the processor connected last *)
  host : Host;
  nextSource : nat;
  microtasks : list Microtask;
  trace : list Effect
}.

Definition set_isActive (v : bool) (w : World) : World :=
  Build_World v (isConnecting w) (transcript w) (sessionRef w) (audioContexts w) (nextStartTime w) (sources w) (sessionPromise w) (microphone w) (capture w) (host w) (nextSource w) (microtasks w) (trace w).
Definition set_isConnecting (v : bool) (w : World) : World :=
  Build_World (isActive w) v (transcript w) (sessionRef w) (audioContexts w) (nextStartTime w) (sources w) (sessionPromise w) (microphone w) (capture w) (host w) (nextSource w) (microtasks w) (trace w).
Definition set_transcript (v : string) (w : World) : World :=
  Build_World (isActive w) (isConnecting w) v (sessionRef w) (audioContexts w) (nextStartTime w) (sources w) (sessionPromise w) (microphone w) (capture w) (host w) (nextSource w) (microtasks w) (trace w).
Definition set_sessionRef (v : option nat) (w : World) : World :=
  Build_World (isActive w) (isConnecting w) (transcript w) v (audioContexts w) (nextStartTime w) (sources w) (sessionPromise w) (microphone w) (capture w) (host w) (nextSource w) (microtasks w) (trace w).
Definition set_audioContexts (v : option Contexts) (w : World) : World :=
  Build_World (isActive w) (isConnecting w) (transcript w) (sessionRef w) v (nextStartTime w) (sources w) (sessionPromise w) (microphone w) (capture w) (host w) (nextSource w) (microtasks w) (trace w).
Definition set_nextStartTime (v : Q) (w : World) : World :=
  Build_World (isActive w) (isConnecting w) (transcript w) (sessionRef w) (audioContexts w) v (sources w) (sessionPromise w) (microphone w) (capture w) (host w) (nextSource w) (microtasks w) (trace w).
Definition set_sources (v : list nat) (w : World) : World :=
  Build_World (isActive w) (isConnecting w) (transcript w) (sessionRef w) (audioContexts w) (nextStartTime w) v (sessionPromise w) (microphone w) (capture w) (host w) (nextSource w) (microtasks w) (trace w).
Definition set_sessionPromise (v : Promise) (w : World) : World :=
  Build_World (isActive w) (isConnecting w) (transcript w) (sessionRef w) (audioContexts w) (nextStartTime w) (sources w) v (microphone w) (capture w) (host w) (nextSource w) (microtasks w) (trace w).
Definition set_microphone (v : bool) (w : World) : World :=
  Build_World (isActive w) (isConnecting w) (transcript w) (sessionRef w) (audioContexts w) (nextStartTime w) (sources w) (sessionPromise w) v (capture w) (host w) (nextSource w) (microtasks w) (trace w).
Definition set_capture (v : option ScriptProcessor) (w : World) : World :=
  Build_World (isActive w) (isConnecting w) (transcript w) (sessionRef w) (audioContexts w) (nextStartTime w) (sources w) (sessionPromise w) (microphone w) v (host w) (nextSource w) (microtasks w) (trace w).
Definition set_host (v : Host) (w : World) : World :=
  Build_World (isActive w) (isConnecting w) (transcript w) (sessionRef w) (audioContexts w) (nextStartTime w) (sources w) (sessionPromise w) (microphone w) (capture w) v (nextSource w) (microtasks w) (trace w).
Definition set_nextSource (v : nat) (w : World) : World :=
  Build_World (isActive w) (isConnecting w) (transcript w) (sessionRef w) (audioContexts w) (nextStartTime w) (sources w) (sessionPromise w) (microphone w) (capture w) (host w) v (microtasks w) (trace w).
Definition set_microtasks (v : list Microtask) (w : World) : World :=
  Build_World (isActive w) (isConnecting w) (transcript w) (sessionRef w) (audioContexts w) (nextStartTime w) (sources w) (sessionPromise w) (microphone w) (capture w) (host w) (nextSource w) v (trace w).
Definition set_trace (v : list Effect) (w : World) : World :=
  Build_World (isActive w) (isConnecting w) (transcript w) (sessionRef w) (audioContexts w) (nextStartTime w) (sources w) (sessionPromise w) (microphone w) (capture w) (host w) (nextSource w) (microtasks w) v.

Definition emit (es : list Effect) (w : World) : World :=
  set_trace (trace w ++ es) w.

Definition lifecycle (w : World) : Lifecycle :=
  if isActive w then Active else if isConnecting w then Connecting else Idle.

(** [sessionPromise.then(session => ...)], on the promise of the call
    whose closure the world holds.  The callback is the only argument, so
    on a rejected promise the promise that [then] returns is rejected in
    turn and nothing handles it. *)
Definition sessionPromise_then (r : Reaction) (w : World) : World :=
  match sessionPromise w with
  | Fulfilled s => set_microtasks (microtasks w ++ [React s r]) w
  | Pending rs => set_sessionPromise (Pending (rs ++ [r])) w
  | Rejected e => set_microtasks (microtasks w ++ [Unhandled e]) w
  | NoPromise => w
  end.

(** [cleanup] *)
Definition cleanup (w : World) : World :=
  let w :=
    match sessionRef w with
    | Some s => set_sessionRef None (emit [SessionClose s] w)
    | None => w
    end in
  let w := set_isActive false w in
  let w := set_isConnecting false w in
  let w := set_transcript EmptyString w in
  let w := emit (map SourceStop (sources w)) w in
  set_sources [] w.

(** The [catch] block of [startSession]. *)
Definition startSession_catch (e : Error) (w : World) : World :=
  cleanup (emit [ConsoleError e] w).

(** [startSession] up to [await getUserMedia(...)].  [newContexts] is the
    outcome of constructing the two [AudioContext]s, should they be
    needed. *)
Definition startSession (newContexts : result Contexts) (w : World) : World :=
  let w := set_isConnecting true w in
  match audioContexts w, newContexts with
  | None, Throw e => startSession_catch e w
  | None, Ok c => emit [GetUserMedia] (set_audioContexts (Some c) w)
  | Some _, _ => emit [GetUserMedia] w
  end.

(** [startSession] from the outcome of [getUserMedia] up to
    [await sessionPromise]. *)
Definition startSession_stream (stream : result unit) (w : World) : World :=
  match stream with
  | Throw e => startSession_catch e w
  | Ok _ =>
      let w := set_microphone true w in
      set_sessionPromise (Pending []) (emit [Connect] w)
  end.

(** The session promise settles.  The reaction of [await sessionPromise]
    was registered first, so [startSession] resumes first: into its
    [catch] block on a rejection.  The reactions registered by [then]
    follow in their order: on a fulfilment they run, on a rejection the
    promise each of them derived is rejected and nothing handles it. *)
Definition startSession_session (settled : result nat) (w : World) : World :=
  let pending :=
    match sessionPromise w with Pending rs => rs | _ => [] end in
  match settled with
  | Throw e =>
      let w := startSession_catch e (set_sessionPromise (Rejected e) w) in
      set_microtasks (microtasks w ++ map (fun _ => Unhandled e) pending) w
  | Ok s =>
      let w := set_sessionPromise (Fulfilled s) w in
      let w := set_microtasks (microtasks w ++ map (React s) pending) w in
      set_sessionRef (Some s) w
  end.

(** [onerror] and [onclose] *)
Definition onerror (e : Error) (w : World) : World :=
  cleanup (emit [ConsoleError e] w).

Definition onclose (w : World) : World := cleanup w.

(** [toggleVoice] *)
Definition toggleVoice (newContexts : result Contexts) (w : World) : World :=
  if isActive w then cleanup w else startSession newContexts w.

(** [onopen] *)
Definition onopen (w : World) : World :=
  let w := set_isConnecting false w in
  let w := set_isActive true w in
  match audioContexts w with
  | Some _ =>
      set_capture
        (Some {| bufferSize := 4096; numberOfInputChannels := 1;
                 numberOfOutputChannels := 1 |}) w
  | None => emit [Uncaught TypeError] w
  end.

(** [scriptProcessor.onaudioprocess] *)
Definition onaudioprocess (inputData : list number) (w : World) : World :=
  sessionPromise_then (RealtimeInput (audio_blob inputData)) w.

(** The body of [if (message.serverContent?.interrupted)]. *)
Definition interrupt (w : World) : World :=
  let w := emit (map SourceStop (sources w)) w in
  let w := set_sources [] w in
  set_nextStartTime 0 w.

(** The end of [onmessage]: the [interrupted] and [turnComplete] tests. *)
Definition onmessage_end (message : LiveServerMessage) (w : World) : World :=
  let w := if interrupted message then interrupt w else w in
  if turnComplete message then set_transcript EmptyString w else w.

(** The loop over [message.toolCall.functionCalls].  An exception raised
    by [onCommand] leaves the loop and the handler. *)
Fixpoint tool_calls (fcs : list FunctionCall) (w : World) : World * option Error :=
  match fcs with
  | [] => (w, None)
  | fc :: rest =>
      match onCommand (fc_name fc) (fc_args fc) (host w) with
      | Throw e => (w, Some e)
      | Ok h =>
          tool_calls rest (sessionPromise_then (ToolResponse fc) (set_host h w))
      end
  end.

(** What the loop gets through from the host state [h]: the calls before
    the first on which [onCommand] throws, the host state they leave, and
    what was thrown. *)
Fixpoint returned_calls (fcs : list FunctionCall) (h : Host) : list FunctionCall :=
  match fcs with
  | [] => []
  | fc :: rest =>
      match onCommand (fc_name fc) (fc_args fc) h with
      | Throw _ => []
      | Ok h => fc :: returned_calls rest h
      end
  end.

Fixpoint host_after (fcs : list FunctionCall) (h : Host) : Host :=
  match fcs with
  | [] => h
  | fc :: rest =>
      match onCommand (fc_name fc) (fc_args fc) h with
      | Throw _ => h
      | Ok h => host_after rest h
      end
  end.

Fixpoint thrown (fcs : list FunctionCall) (h : Host) : option Error :=
  match fcs with
  | [] => None
  | fc :: rest =>
      match onCommand (fc_name fc) (fc_args fc) h with
      | Throw e => Some e
      | Ok h => thrown rest h
      end
  end.

(** The handler was left by an exception, which nothing catches. *)
Definition rejected (e : Error) (w : World) : World :=
  emit [Uncaught e] w.

(** The audio part of [onmessage], up to the [await]; without audio the
    handler runs to its end.  [now] is [ctx.currentTime] of the output
    context. *)
Definition onmessage_audio (now : Q) (message : LiveServerMessage) (w : World) : World :=
  match base64Audio message with
  | Some b64 =>
      if bool_decide (b64 = EmptyString) then onmessage_end message w
      else
        match audioContexts w with
        | None => rejected TypeError w
        | Some c =>
            let ctx := {| currentTime := now |} in
            let w := set_nextStartTime (Qmax (nextStartTime w) (currentTime ctx)) w in
            match decode b64 with
            | Throw e => rejected e w
            | Ok bytes =>
                set_microtasks
                  (microtasks w ++ [Resume (decodeAudioData bytes ctx 24000 1) message]) w
            end
        end
  | None => onmessage_end message w
  end.

(** [onmessage] up to its [await], or to its end when the message carries
    no audio. *)
Definition onmessage (now : Q) (message : LiveServerMessage) (w : World) : World :=
  let w :=
    match inputTranscription message with
    | Some text =>
        set_transcript (transcript w ++ " " ++ default "undefined" text) w
    | None => w
    end in
  match
    match toolCall message with
    | Some fcs => tool_calls fcs w
    | None => (w, None)
    end
  with
  | (w, Some e) => rejected e w
  | (w, None) => onmessage_audio now message w
  end.

(** [onmessage] after its [await]. *)
Definition onmessage_resume (decoded : result AudioBuffer)
    (message : LiveServerMessage) (w : World) : World :=
  match decoded with
  | Throw e => rejected e w
  | Ok buffer =>
      let source := nextSource w in
      let w := set_nextSource (S source) w in
      let w := emit [SourceStart source buffer (nextStartTime w)] w in
      let w := set_nextStartTime (nextStartTime w + duration buffer) w in
      let w := set_sources (sources w ++ [source]) w in
      onmessage_end message w
  end.

(** The [ended] listener of a source. *)
Definition ended (source : nat) (w : World) : World :=
  set_sources (List.filter (fun s => negb (s =? source)%nat) (sources w)) w.

Definition run_microtask (w : World) (t : Microtask) : World :=
  match t with
  | React s (ToolResponse fc) =>
      emit [SendToolResponse s (fc_id fc) (fc_name fc) "ok"] w
  | React s (RealtimeInput media) => emit [SendRealtimeInput s media] w
  | Unhandled e => emit [Uncaught e] w
  | Resume decoded message => onmessage_resume decoded message w
  end.

(** The microtask checkpoint at the end of a task.  No job of this program
    queues another job, so one pass empties the queue. *)
Definition checkpoint (w : World) : World :=
  foldl run_microtask (set_microtasks [] w) (microtasks w).

(** One delivery of a server message: the handler runs as a task, then
    the microtask queue is emptied. *)
Definition deliver (now : Q) (message : LiveServerMessage) (w : World) : World :=
  checkpoint (onmessage now message w).

(** A sequence of deliveries, each with the clock reading at its time. *)
Definition deliver_all (ms : list (Q * LiveServerMessage)) (w : World) : World :=
  foldl (fun w m => deliver (fst m) (snd m) w) w ms.

(** One capture tick. *)
Definition capture_tick (inputData : list number) (w : World) : World :=
  checkpoint (onaudioprocess inputData w).

(** *** Notions used in the statements *)

(** Between tasks the microtask queue is empty. *)
Definition quiescent (w : World) : Prop := microtasks w = [].

(** The host callback returns for each of these calls, whatever its
    state. *)
Definition dispatch_returns (fcs : list FunctionCall) : Prop :=
  forall fc, In fc fcs -> forall h, exists h', onCommand (fc_name fc) (fc_args fc) h = Ok h'.

(** Several [sessionPromise.then] registrations in a row. *)
Definition thens (fcs : list FunctionCall) (w : World) : World :=
  foldl (fun w fc => sessionPromise_then (ToolResponse fc) w) w fcs.

(** The acknowledgements a message gives rise to once the session promise
    is fulfilled. *)
Definition acks_of (w : World) (message : LiveServerMessage) : list Effect :=
  match sessionPromise w with
  | Fulfilled s =>
      map (fun fc => SendToolResponse s (fc_id fc) (fc_name fc) "ok")
          (calls message)
  | _ => []
  end.

(** What the reactions registered for the tool calls [fcs] put out when
    they run: the acknowledgements if the session promise is fulfilled,
    one unhandled rejection each if it is rejected; while it is pending
    they wait. *)
Definition reactions_log (w : World) (fcs : list FunctionCall) : list Effect :=
  match sessionPromise w with
  | Fulfilled s =>
      map (fun fc => SendToolResponse s (fc_id fc) (fc_name fc) "ok") fcs
  | Rejected e => map (fun _ => Uncaught e) fcs
  | Pending _ | NoPromise => []
  end.

(** The session is up: [onopen] has run and the session promise is
    fulfilled with the session that [sessionRef] holds. *)
Definition active_session (s : nat) (w : World) : Prop :=
  isActive w = true /\ sessionRef w = Some s /\ sessionPromise w = Fulfilled s
  /\ is_Some (audioContexts w) /\ quiescent w.


(** What [cleanup] does to the outside. *)
Definition cleanup_effects (w : World) : list Effect :=
  match sessionRef w with Some s => [SessionClose s] | None => [] end
  ++ map SourceStop (sources w).

(** The ways in which opening a session fails, and the run of
    [startSession] in each. *)
Inductive OpenFailure : Type :=
| DevicesFail (e : Error)        (* an [AudioContext] cannot be constructed *)
| MicrophoneFails (e : Error)    (* [getUserMedia] rejects *)
| ConnectionFails (opened : bool) (e : Error).
    (* the session promise rejects, before or after [onopen] has run *)

Definition failed_open (f : OpenFailure) (c : Contexts) (w : World) : World :=
  match f with
  | DevicesFail e => startSession (Throw e) w
  | MicrophoneFails e => startSession_stream (Throw e) (startSession (Ok c) w)
  | ConnectionFails opened e =>
      let w := startSession_stream (Ok ()) (startSession (Ok c) w) in
      startSession_session (Throw e) (if opened then onopen w else w)
  end.

(** A session that opens: [onopen] runs before the promise is fulfilled. *)
Definition opened (c : Contexts) (s : nat) (w : World) : World :=
  checkpoint
    (startSession_session (Ok s)
       (onopen (startSession_stream (Ok ()) (startSession (Ok c) w)))).

End VoiceAssistant.

Arguments World : clear implicits.

(** A message that carries nothing but audio. *)
Definition audio_message (b64 : string) : LiveServerMessage :=
  {| inputTranscription := None; toolCall := None; base64Audio := Some b64;
     interrupted := false; turnComplete := false |}.

(** The [interrupted] signal on its own. *)
Definition interrupted_message : LiveServerMessage :=
  {| inputTranscription := None; toolCall := None; base64Audio := None;
     interrupted := true; turnComplete := false |}.

(** The component as first rendered. *)
Definition initial {Host} (h : Host) : World Host :=
  {| isActive := false; isConnecting := false; transcript := EmptyString;
     sessionRef := None; audioContexts := None; nextStartTime := 0;
     sources := []; sessionPromise := NoPromise; microphone := false;
     capture := None; host := h; nextSource := 0; microtasks := [];
     trace := [] |}.

(** ** The component under a sequence of events

    What can happen to the mounted component: a click on the button (which
    is disabled while connecting), the two promises that [startSession]
    awaits settling, the four callbacks of the connection, a capture tick
    and the end of a source.  Each is a task, followed by a microtask
    checkpoint.  The events are not constrained to the orders the platform
    produces, so what holds after every sequence of events holds of the
    component.  The callbacks and the ticks are those of the call of
    [startSession] whose closure the world holds; the page, further down,
    tells the calls apart. *)

Inductive Event : Type :=
| Click (newContexts : result Contexts)
| StreamSettled (stream : result unit)
| SessionSettled (settled : result nat)
| Open
| ServerMessage (now : Q) (message : LiveServerMessage)
| ServerError (e : Error)
| Closed
| AudioProcess (inputData : list number)
| SourceEnded (source : nat).

Section Events.

Context {Host : Type}.
Variable onCommand : string -> option (gmap string string) -> Host -> result Host.

(** The button: [onClick={toggleVoice}], [disabled={isConnecting}]. *)
Definition click (newContexts : result Contexts) (w : World Host) : World Host :=
  if isConnecting w then w else toggleVoice newContexts w.

Definition handle (w : World Host) (e : Event) : World Host :=
  checkpoint
    match e with
    | Click newContexts => click newContexts w
    | StreamSettled stream => startSession_stream stream w
    | SessionSettled settled => startSession_session settled w
    | Open => onopen w
    | ServerMessage now message => onmessage onCommand now message w
    | ServerError e => onerror e w
    | Closed => onclose w
    | AudioProcess inputData => onaudioprocess inputData w
    | SourceEnded source => ended source w
    end.

Definition run (es : list Event) (w : World Host) : World Host :=
  foldl handle w es.

(** The host after the calls of a message, when every call returns. *)
Definition dispatch_all (fcs : list FunctionCall) (h : Host) : Host :=
  foldl (fun h fc =>
           match onCommand (fc_name fc) (fc_args fc) h with
           | Ok h' => h'
           | Throw _ => h
           end) h fcs.

End Events.

(** ** Handlers in flight

    Who calls [onmessage], and when, is decided by the connection, which
    is not part of this program.  A handler that has reached its [await]
    is in flight until the job that resumes it runs, and the connection
    can call [onmessage] again before that.  So the event loop is taken
    one step at a time: either [onmessage] is called, and runs up to its
    [await] or to its end, or the oldest job of the microtask queue
    runs. *)

Inductive Step : Type :=
| Arrival (now : Q) (message : LiveServerMessage)
| Job.

Section Steps.

Context {Host : Type}.
Variable onCommand : string -> option (gmap string string) -> Host -> result Host.

Definition step (w : World Host) (s : Step) : World Host :=
  match s with
  | Arrival now message => onmessage onCommand now message w
  | Job =>
      match microtasks w with
      | [] => w
      | t :: ts => run_microtask (set_microtasks ts w) t
      end
  end.

Definition steps (ss : list Step) (w : World Host) : World Host :=
  foldl step w ss.

(** The fragment that the handler of a message gets to decode when the
    host is in state [h]: none if [onCommand] throws on one of the tool
    calls, or if there is no audio, or if it does not decode. *)
Definition fragment (message : LiveServerMessage) (h : Host) : option AudioBuffer :=
  match thrown onCommand (calls message) h, audio_outcome message with
  | None, Scheduled b => Some b
  | _, _ => None
  end.

(** The fragments of a sequence of arrivals, each from the host state
    that the arrivals before it leave. *)
Fixpoint fragments (ms : list (Q * LiveServerMessage)) (h : Host) : list AudioBuffer :=
  match ms with
  | [] => []
  | m :: rest =>
      option_list (fragment (snd m) h)
        ++ fragments rest (host_after onCommand (calls (snd m)) h)
  end.

End Steps.

(** The messages that arrive in a sequence of steps. *)
Definition arrivals (ss : list Step) : list (Q * LiveServerMessage) :=
  omap (fun s => match s with Arrival now m => Some (now, m) | Job => None end) ss.

Definition arrive (m : Q * LiveServerMessage) : Step := Arrival (fst m) (snd m).

(** The buffers of the handlers in flight, oldest first. *)
Definition queued_buffers (ts : list Microtask) : list AudioBuffer :=
  omap (fun t => match t with Resume (Ok b) _ => Some b | _ => None end) ts.

(** No handler in flight has an interruption to apply when it resumes. *)
Definition calm (ts : list Microtask) : Prop :=
  Forall (fun t => match t with
                   | Resume (Ok _) message => interrupted message = false
                   | _ => True
                   end) ts.

(** ** The page: a closure for each call of [startSession]

    A world holds the component and the closure of one call of
    [startSession], that is, its [sessionPromise].  Every call that gets
    past [getUserMedia] makes a promise of its own, and the callbacks of
    its connection, as well as the [onaudioprocess] handler of every
    processor that its [onopen] connects, go on using that promise
    whatever later calls do.  A page holds the component and the closures
    of the calls made so far; an event of call [k] runs with the promise
    of call [k]. *)

Record Call : Type := {
  promise : Promise;                      (* [const sessionPromise] *)
  processors : list ScriptProcessor       (* connected by [onopen]; nothing disconnects them *)
}.

Section Pages.

Context {Host : Type}.
Variable onCommand : string -> option (gmap string string) -> Host -> result Host.

Record Page : Type := {
  component : World Host;
  closures : list Call
}.

(** The processor that the task of an event connects: [onopen] creates
    and connects one more each time it runs. *)
Definition connected (e : Event) (w : World Host) : list ScriptProcessor :=
  match e, audioContexts w with
  | Open, Some _ => option_list (capture (onopen w))
  | _, _ => []
  end.

(** An event of call [k]. *)
Definition in_call (k : nat) (e : Event) (p : Page) : Page :=
  match closures p !! k with
  | Some c =>
      let w := set_sessionPromise (promise c) (component p) in
      let w' := handle onCommand w e in
      {| component := w';
         closures := <[k := {| promise := sessionPromise w';
                               processors := processors c ++ connected e w |}]>
                       (closures p) |}
  | None => p
  end.

(** A click makes a call of [startSession] unless the button is disabled
    or the session is active; the call has no promise yet. *)
Definition page_click (newContexts : result Contexts) (p : Page) : Page :=
  let w := component p in
  {| component := handle onCommand w (Click newContexts);
     closures :=
       if isConnecting w || isActive w then closures p
       else closures p ++ [{| promise := NoPromise; processors := [] |}] |}.

(** An event on the page, with the call it belongs to; a click and the
    end of a source belong to no call. *)
Definition page_handle (p : Page) (ke : nat * Event) : Page :=
  match snd ke with
  | Click newContexts => page_click newContexts p
  | SourceEnded source =>
      {| component := handle onCommand (component p) (SourceEnded source);
         closures := closures p |}
  | e => in_call (fst ke) e p
  end.

Definition page_run (es : list (nat * Event)) (p : Page) : Page :=
  foldl page_handle p es.

(** The component holds the closure of call [k]. *)
Definition holds (k : nat) (p : Page) : Prop :=
  promise <$> closures p !! k = Some (sessionPromise (component p)).

(** The frame that a tick sends at once: the promise of its call is
    fulfilled. *)
Definition sent_at_once (p : Page) (t : nat * list number) : list (nat * Blob) :=
  match promise <$> closures p !! fst t with
  | Some (Fulfilled s) => [(s, audio_blob (snd t))]
  | _ => []
  end.

End Pages.

Arguments Page : clear implicits.

Definition initial_page {Host} (h : Host) : Page Host :=
  {| component := initial h; closures := [] |}.

(** A capture tick of a processor of call [k]. *)
Definition tick (t : nat * list number) : nat * Event :=
  (fst t, AudioProcess (snd t)).

(** [sessionPromise.then(callback)] as seen from the promise: a pending
    promise keeps the callback for later. *)
Definition register (r : Reaction) (pr : Promise) : Promise :=
  match pr with
  | Pending rs => Pending (rs ++ [r])
  | _ => pr
  end.

(** The frames of the ticks of call [k], in order. *)
Definition frames_of_call (k : nat) (ts : list (nat * list number)) : list Blob :=
  map (fun t => audio_blob (snd t)) (List.filter (fun t => (fst t =? k)%nat) ts).

(** What a message adds to the transcript. *)
Definition transcript_piece (message : LiveServerMessage) : string :=
  match inputTranscription message with
  | Some text => " " ++ default "undefined" text
  | None => EmptyString
  end.

(** The sources started and the sources stopped, in order. *)
Definition started_ids (tr : list Effect) : list nat :=
  omap (fun e => match e with SourceStart s _ _ => Some s | _ => None end) tr.

Definition stopped_ids (tr : list Effect) : list nat :=
  omap (fun e => match e with SourceStop s => Some s | _ => None end) tr.

(** Every [stop] comes after the [start] of its source; [seen] are the
    sources started before the trace. *)
Fixpoint stops_follow_starts (seen : list nat) (tr : list Effect) : Prop :=
  match tr with
  | [] => True
  | SourceStart s _ _ :: rest => stops_follow_starts (s :: seen) rest
  | SourceStop s :: rest => In s seen /\ stops_follow_starts seen rest
  | _ :: rest => stops_follow_starts seen rest
  end.

(** No segment starts before the one before it has ended; [cursor] is the
    end of the last segment before the trace. *)
Fixpoint no_overlap (cursor : Q) (tr : list Effect) : Prop :=
  match tr with
  | [] => True
  | SourceStart _ b t :: rest =>
      (cursor <= t)%Q /\ no_overlap (t + duration b) rest
  | _ :: rest => no_overlap cursor rest
  end.

(** The frames sent, with their sessions, in order. *)
Definition frames_sent (tr : list Effect) : list (nat * Blob) :=
  omap (fun e => match e with SendRealtimeInput s media => Some (s, media) | _ => None end) tr.

(** What a reaction of the session promise does once it runs. *)
Definition reaction_effect (s : nat) (r : Reaction) : Effect :=
  match r with
  | ToolResponse fc => SendToolResponse s (fc_id fc) (fc_name fc) "ok"
  | RealtimeInput media => SendRealtimeInput s media
  end.

(** The event is a server message with the [interrupted] signal. *)
Definition interrupts (e : Event) : bool :=
  match e with
  | ServerMessage _ message => interrupted message
  | _ => false
  end.

(** The end of the last segment of a trace; [cursor] when it has none. *)
Fixpoint cursor_after (cursor : Q) (tr : list Effect) : Q :=
  match tr with
  | [] => cursor
  | SourceStart _ b t :: rest => cursor_after (t + duration b) rest
  | _ :: rest => cursor_after cursor rest
  end.

(** The frames among the reactions registered with a pending promise. *)
Definition frames_of (rs : list Reaction) : list Blob :=
  omap (fun r => match r with RealtimeInput media => Some media | _ => None end) rs.

(** What the component's bookkeeping of sources has to satisfy for its
    [stop] calls to be sound: the set holds each source once; every source
    in it has started and has not been stopped; identifiers are fresh; no
    source starts twice or is stopped twice; a [stop] follows the [start]
    of its source. *)
Definition playback_sound {Host} (w : World Host) : Prop :=
  NoDup (sources w)
  /\ (forall s, In s (sources w) ->
        In s (started_ids (trace w)) /\ ~ In s (stopped_ids (trace w)))
  /\ (forall s, In s (started_ids (trace w)) -> (s < nextSource w)%nat)
  /\ NoDup (started_ids (trace w))
  /\ NoDup (stopped_ids (trace w))
  /\ stops_follow_starts [] (trace w).

(** The acknowledgement of a tool invocation. *)
Definition ack (s : nat) (fc : FunctionCall) : Effect :=
  SendToolResponse s (fc_id fc) (fc_name fc) "ok".

(** The number of [toggleTheme] invocations among tool invocations, and
    whether [openAdmin] is among them. *)
Definition toggles (fcs : list FunctionCall) : nat :=
  length (List.filter (fun fc => bool_decide (fc_name fc = "toggleTheme")) fcs).

Definition opens_admin (fcs : list FunctionCall) : bool :=
  existsb (fun fc => bool_decide (fc_name fc = "openAdmin")) fcs.

(** ** The project filter of [App] *)

Module Filter.

Record Project : Type := {
  id : string;
  title : string;
  description : string;
  imageUrl : string;
  tags : list string;
  link : option string
}.

(** [tags.add(t)] on a [Set], which keeps insertion order. *)
Definition add (t : string) (tags : list string) : list string :=
  if bool_decide (t ∈ tags) then tags else tags ++ [t].

(** [allTags] *)
Definition allTags (projects : list Project) : list string :=
  foldl (fun acc p => foldl (fun acc t => add t acc) acc (tags p)) (add "All" []) projects.

(** [filteredProjects] *)
Definition filteredProjects (projects : list Project) (activeFilter : string)
    : list Project :=
  if bool_decide (activeFilter = "All") then projects
  else List.filter (fun p => bool_decide (activeFilter ∈ tags p)) projects.

End Filter.

(** ** Sample worlds and messages *)

Definition contexts : Contexts := {| input := 16000; output := 24000 |}.

Definition host0 : App.State :=
  {| App.isMenuOpen := false; App.theme := true; App.isAdminOpen := false;
     App.scrolledTo := None |}.

(** The session has opened. *)
Definition session_up : World App.State := opened contexts 1 (initial host0).

(** A session that has opened and has scheduled one fragment of two
    samples. *)
Definition playing : World App.State :=
  deliver App.onCommand 0 (audio_message "AAD/fw==") session_up.

(** The buffer that ["AAD/fw=="] decodes to: the samples 0 and 32767. *)
Definition two_samples : AudioBuffer :=
  {| numberOfChannels := 1; frames := 2; sampleRate := 24000;
     channels := [[Num (0 # 32768); Num (32767 # 32768)]] |}.

(** Two segments are active, as in the scenario of the specification. *)
Definition two_playing : World App.State :=
  deliver_all App.onCommand
    [(0%Q, audio_message "AAD/fw=="); (0%Q, audio_message "AAD/fw==")] session_up.

(** Two tool invocations, the first a [navigateTo] without its argument
    object. *)
Definition malformed_call : LiveServerMessage :=
  {| inputTranscription := None;
     toolCall := Some [ {| fc_id := "call-1"; fc_name := "navigateTo"; fc_args := None |};
                        {| fc_id := "call-2"; fc_name := "toggleTheme"; fc_args := None |} ];
     base64Audio := None; interrupted := false; turnComplete := false |}.

(** Two tool invocations that the host returns from; it does not know the
    second. *)
Definition two_calls : LiveServerMessage :=
  {| inputTranscription := None;
     toolCall := Some [ {| fc_id := "call-1"; fc_name := "toggleTheme"; fc_args := None |};
                        {| fc_id := "call-2"; fc_name := "selfDestruct"; fc_args := None |} ];
     base64Audio := None; interrupted := false; turnComplete := false |}.

(** Three arrivals: a fragment, the interrupted signal, a fragment. *)
Definition interrupted_between : list (Q * LiveServerMessage) :=
  [(0%Q, audio_message "AAD/fw=="); (0%Q, interrupted_message);
   (0%Q, audio_message "AAD/fw==")].

(** Three tool invocations, the second a [navigateTo] without its argument
    object, in a message that also ends the turn and interrupts. *)
Definition throwing_call : LiveServerMessage :=
  {| inputTranscription := Some (Some "dark mode");
     toolCall := Some [ {| fc_id := "call-1"; fc_name := "toggleTheme"; fc_args := None |};
                        {| fc_id := "call-2"; fc_name := "navigateTo"; fc_args := None |};
                        {| fc_id := "call-3"; fc_name := "openAdmin"; fc_args := None |} ];
     base64Audio := Some "AAD/fw=="; interrupted := true; turnComplete := true |}.

(** A message whose audio does not decode (one byte is half a sample), and
    which also interrupts and ends the turn. *)
Definition undecodable : LiveServerMessage :=
  {| inputTranscription := Some (Some "stop");
     toolCall := None;
     base64Audio := Some "AA=="; interrupted := true; turnComplete := true |}.

(** A [navigateTo] to a section that the page does not have. *)
Definition navigate_nowhere : LiveServerMessage :=
  {| inputTranscription := None;
     toolCall := Some [ {| fc_id := "call-1"; fc_name := "navigateTo";
                           fc_args := Some {[ "section" := "about" ]} |} ];
     base64Audio := None; interrupted := false; turnComplete := false |}.

(** A captured frame of five samples: a half, minus a half, a value
    that is no multiple of 1/32768, the largest value below full scale,
    and full scale. *)
Definition capture_frame : list number :=
  [Num (1 # 2); Num (-1 # 2); Num (-7 # 65536); Num (32767 # 32768); Num 1].

(** A captured frame of 4096 samples that rise from -1 in steps of
    1/2048. *)
Definition ramp : list number :=
  map (fun i => Num ((Z.of_nat i - 2048) # 2048)) (seq 0 4096).

(** The page after a session has opened, and after that session has
    closed and a second call of [startSession] has connected and opened
    while its promise is still pending. *)
Definition page_up : Page App.State :=
  page_run App.onCommand
    [(0%nat, Click (Ok contexts)); (0%nat, StreamSettled (Ok ())); (0%nat, Open);
     (0%nat, SessionSettled (Ok 1%nat))]
    (initial_page host0).

Definition page_restarted : Page App.State :=
  page_run App.onCommand
    [(0%nat, Closed); (0%nat, Click (Ok contexts)); (1%nat, StreamSettled (Ok ()));
     (1%nat, Open)]
    page_up.

(** Two projects with a tag in common. *)
Definition sample_projects : list Filter.Project :=
  [ {| Filter.id := "1"; Filter.title := "Shop"; Filter.description := "A shop";
       Filter.imageUrl := "shop.png"; Filter.tags := ["React"; "Node"];
       Filter.link := None |};
    {| Filter.id := "2"; Filter.title := "Blog"; Filter.description := "A blog";
       Filter.imageUrl := "blog.png"; Filter.tags := ["React"];
       Filter.link := Some "https://example.org" |} ].

(** ** Tactics *)

(** A list of bounded values, from the bounds in the context. *)
Ltac bounded :=
  repeat first [apply List.Forall_nil | apply List.Forall_cons; [assumption|]];
  try assumption.

(** Linear arithmetic with division and remainder by constants. *)
Ltac lia_div := zify; Z.to_euclidean_division_equations; lia.

(** Unfolding of the component's functions down to records, by value. *)
Ltac world_cbv :=
  cbv beta iota zeta delta
    [cleanup cleanup_effects emit lifecycle interrupt failed_open startSession
     startSession_stream startSession_session startSession_catch
     set_isActive set_isConnecting set_transcript set_sessionRef set_audioContexts set_nextStartTime set_sources set_sessionPromise set_microphone set_capture set_host set_nextSource set_microtasks set_trace
     isActive isConnecting transcript sessionRef audioContexts nextStartTime sources sessionPromise microphone capture host nextSource microtasks trace].

(** The summary of an event that starts no source: nothing happens to the
    playback, or every active source is stopped.  [Hstops], [Hreact] and
    [Hun] say what the playback part of a list of stops, of a list of
    reactions and of a list of unhandled rejections is. *)
Ltac quiet_event Hstops Hreact Hun :=
  rewrite <- ?app_assoc; split_and!; try done; try tauto; try (by intros ? [? ?]);
  first
    [ exists None, false, []; cbn; rewrite ?app_nil_r;
      split_and!; intros; solve [done | auto | apply Qle_refl]
    | eexists None, false, _; cbn; (split; [reflexivity|]); unfold playback; cbn;
      rewrite ?app_nil_r, ?Hreact;
      split_and!; intros; solve [done | auto | apply Qle_refl]
    | eexists None, true, _; cbn; (split; [reflexivity|]); unfold playback; cbn;
      rewrite ?app_nil_r, ?List.filter_app, ?Hstops, ?Hun, ?app_nil_r;
      split_and!; intros; solve [done | auto | apply Qle_refl] ].

(** * Properties *)

(** ** The model at work *)

Example encode_abcd : encode ["a"; "b"; "c"; "d"]%byte = "YWJjZA==".
Proof. reflexivity. Qed.

Example decode_abcd : decode "YWJjZA==" = Ok ["a"; "b"; "c"; "d"]%byte.
Proof. reflexivity. Qed.

(** [atob] skips whitespace and does without padding. *)
Example decode_forgiving : decode "YW Jj ZA" = Ok ["a"; "b"; "c"; "d"]%byte.
Proof. reflexivity. Qed.

Example decode_five_characters : decode "YWJjZ" = Throw InvalidCharacterError.
Proof. reflexivity. Qed.

Example int16_of_floats_samples :
  int16_of_floats [Num (1 # 2); Num (-1); Num (32767 # 32768); Num (-1 # 65536); NaN]
  = [16384; -32768; 32767; 0; 0]%Z.
Proof. reflexivity. Qed.

(** One channel of three samples. *)
Example decodeAudioData_mono :
  decodeAudioData [x00; x80; xff; x7f; x01; x00]%byte {| currentTime := 0 |} 24000 1
  = Ok {| numberOfChannels := 1; frames := 3; sampleRate := 24000;
          channels := [[Num (-32768 # 32768); Num (32767 # 32768); Num (1 # 32768)]] |}.
Proof. reflexivity. Qed.

Example decodeAudioData_empty :
  decodeAudioData [] {| currentTime := 0 |} 24000 1 = Throw NotSupportedError.
Proof. reflexivity. Qed.

(** A session opens and a fragment of two samples arrives at clock 0: it is
    started at 0 and the cursor moves to its end. *)
Example first_fragment :
  trace playing
  = [GetUserMedia; Connect; SourceStart 0 two_samples 0]
  /\ nextStartTime playing = (0 + duration two_samples)%Q
  /\ sources playing = [0].
Proof. by vm_compute. Qed.

(** A message that brings a transcription, two tool calls and the
    interrupted signal while two segments play. *)
Example busy_message :
  trace (deliver App.onCommand 0
           {| inputTranscription := Some (Some "dark mode");
              toolCall := toolCall two_calls; base64Audio := None;
              interrupted := true; turnComplete := false |}
           two_playing)
  = trace two_playing
      ++ [SourceStop 0; SourceStop 1;
          SendToolResponse 1 "call-1" "toggleTheme" "ok";
          SendToolResponse 1 "call-2" "selfDestruct" "ok"].
Proof. by vm_compute. Qed.

(** ** Base64 *)

Module Base64Facts.
Import Base64.
Local Open Scope N_scope.


(** A property checked on the 64 values holds of every 6-bit value. *)
Lemma sextet_cases (P : N -> bool) :
  forallb P (map N.of_nat (seq 0 64)) = true ->
  forall v, v < 64 -> P v = true.
Proof.
  intros H v Hv.
  rewrite forallb_forall in H. apply H.
  apply in_map_iff. exists (N.to_nat v). split; [lia|].
  apply in_seq. lia.
Qed.

Lemma sextet_of_char_of_sextet v :
  v < 64 -> sextet_of_char (char_of_sextet v) = Some v.
Proof.
  intros Hv.
  pose proof (sextet_cases
    (fun v => bool_decide (sextet_of_char (char_of_sextet v) = Some v))) as H.
  specialize (H ltac:(by vm_compute) v Hv). simpl in H.
  by apply bool_decide_eq_true in H.
Qed.

Lemma byte_of_to_N b : byte_of_N (Byte.to_N b) = b.
Proof.
  unfold byte_of_N. pose proof (Byte.to_N_bounded b).
  rewrite N.mod_small by lia. by rewrite Byte.of_to_N.
Qed.

Lemma to_N_byte_of_N n : Byte.to_N (byte_of_N n) = n mod 256.
Proof.
  unfold byte_of_N.
  destruct (Byte.of_N (n mod 256)) as [b|] eqn:E.
  - by apply Byte.to_of_N.
  - apply Byte.of_N_None_iff in E. pose proof (N.mod_upper_bound n 256). lia.
Qed.

Lemma char_of_sextet_plain v :
  char_of_sextet v <> pad /\ is_ascii_whitespace (char_of_sextet v) = false.
Proof.
  destruct (decide (v < 64)) as [Hv|Hv].
  - pose proof (sextet_cases
      (fun v => bool_decide (char_of_sextet v <> pad
                             /\ is_ascii_whitespace (char_of_sextet v) = false))) as H.
    specialize (H ltac:(by vm_compute) v Hv). simpl in H.
    by apply bool_decide_eq_true in H.
  - assert (char_of_sextet v = "/"%char) as ->.
    { unfold char_of_sextet.
      rewrite !(proj2 (N.ltb_ge _ _)) by lia.
      by rewrite (proj2 (N.eqb_neq _ _)) by lia. }
    split; [discriminate | reflexivity].
Qed.

(** Lists taken three elements at a time. *)
Lemma list_ind3 {A} (P : list A -> Prop) :
  P [] -> (forall a, P [a]) -> (forall a b, P [a; b]) ->
  (forall a b c l, P l -> P (a :: b :: c :: l)) ->
  forall l, P l.
Proof.
  intros H0 H1 H2 H3 l.
  assert (P l /\ (forall a, P (a :: l)) /\ (forall a b, P (a :: b :: l))) as [? _]; [|done].
  induction l as [|x l (IH0 & IH1 & IH2)]; [by auto|].
  split_and!; auto.
Qed.

Lemma sextets_of_bytes_bounded bs :
  Forall (fun v => v < 64) (sextets_of_bytes bs).
Proof.
  induction bs as [|a|a b|a b c l IH] using list_ind3; cbn [sextets_of_bytes].
  - constructor.
  - pose proof (Byte.to_N_bounded a). repeat constructor; lia_div.
  - pose proof (Byte.to_N_bounded a). pose proof (Byte.to_N_bounded b).
    repeat constructor; lia_div.
  - pose proof (Byte.to_N_bounded a). pose proof (Byte.to_N_bounded b).
    pose proof (Byte.to_N_bounded c).
    repeat (constructor; [lia_div|]). done.
Qed.

Lemma byte_of_N_eq n b : n = Byte.to_N b -> byte_of_N n = b.
Proof. intros ->. apply byte_of_to_N. Qed.

Lemma bytes_of_sextets_of_bytes bs :
  bytes_of_sextets (sextets_of_bytes bs) = bs.
Proof.
  induction bs as [|a|a b|a b c l IH] using list_ind3; cbn [sextets_of_bytes].
  - done.
  - pose proof (Byte.to_N_bounded a). cbn [bytes_of_sextets].
    f_equal. apply byte_of_N_eq. lia_div.
  - pose proof (Byte.to_N_bounded a). pose proof (Byte.to_N_bounded b).
    cbn [bytes_of_sextets].
    f_equal; [|f_equal]; apply byte_of_N_eq; lia_div.
  - pose proof (Byte.to_N_bounded a). pose proof (Byte.to_N_bounded b).
    pose proof (Byte.to_N_bounded c).
    cbn [bytes_of_sextets]. rewrite IH.
    f_equal; [|f_equal; [|f_equal]]; apply byte_of_N_eq; lia_div.
Qed.

(** The shape of an encoding: full groups of four, then a group of two
    characters and two pads, or of three characters and one pad. *)
Lemma encoding_shape bs :
  let n := (length (sextets_of_bytes bs) mod 4)%nat in
  (n = 0 /\ padding bs = 0)%nat \/ (n = 2 /\ padding bs = 2)%nat
  \/ (n = 3 /\ padding bs = 1)%nat.
Proof.
  induction bs as [|a|a b|a b c l IH] using list_ind3; cbn [sextets_of_bytes].
  - by left.
  - right; by left.
  - right; by right.
  - assert (padding (a :: b :: c :: l) = padding l) as ->.
    { unfold padding. cbn [length].
      replace (S (S (S (length l)))) with (length l + 1 * 3)%nat by lia.
      by rewrite Nat.Div0.mod_add. }
    cbn [length].
    replace (S (S (S (S (length (sextets_of_bytes l))))))
      with (length (sextets_of_bytes l) + 1 * 4)%nat by lia.
    by rewrite Nat.Div0.mod_add.
Qed.

Lemma strip_padding_encoding (body : list ascii) (k : nat) :
  Forall (fun c => c <> pad) body -> (k <= 2)%nat ->
  (length (body ++ replicate k pad) mod 4 = 0)%nat ->
  strip_padding (body ++ replicate k pad) = body.
Proof.
  intros Hbody Hk Hlen. unfold strip_padding.
  rewrite Hlen. cbn [Nat.eqb].
  rewrite rev_app_distr.
  assert (forall c r, rev body = c :: r -> Ascii.eqb c pad = false) as Hlast.
  { intros c r Hr. apply Ascii.eqb_neq.
    rewrite Forall_forall in Hbody. apply Hbody.
    apply list_elem_of_In, in_rev. rewrite Hr. by left. }
  destruct k as [|[|[|k]]]; [| | |lia]; cbn [replicate app rev].
  - rewrite app_nil_r.
    destruct (rev body) as [|c1 [|c2 r]] eqn:Hr; [done| |].
    + by rewrite (Hlast _ _ eq_refl).
    + by rewrite (Hlast _ _ eq_refl).
  - destruct (rev body) as [|c2 r] eqn:Hr.
    + apply (f_equal (@rev _)) in Hr. rewrite rev_involutive in Hr. by subst.
    + rewrite (Hlast _ _ eq_refl). cbn.
      change (rev r ++ [c2]) with (rev (c2 :: r)).
      by rewrite <- Hr, rev_involutive.
  - cbn. apply rev_involutive.
Qed.

Lemma mapM_sextet_of_char vs :
  Forall (fun v => v < 64) vs ->
  mapM sextet_of_char (map char_of_sextet vs) = Some vs.
Proof.
  induction 1 as [|v vs Hv _ IH]; [done|].
  cbn. rewrite (sextet_of_char_of_sextet v Hv). cbn. by rewrite IH.
Qed.

Lemma filter_padded vs k :
  List.filter (fun c => negb (is_ascii_whitespace c))
              (map char_of_sextet vs ++ replicate k pad)
  = map char_of_sextet vs ++ replicate k pad.
Proof.
  apply forallb_filter_id, forallb_forall. intros c Hc.
  apply in_app_or in Hc as [Hc|Hc].
  - apply in_map_iff in Hc as (v & <- & _).
    by rewrite (proj2 (char_of_sextet_plain v)).
  - apply list_elem_of_In, elem_of_replicate in Hc as [-> _]. done.
Qed.

(** Decoding of a padded text, whatever its last bits. *)
Lemma decode_chars_padded vs k :
  Forall (fun v => v < 64) vs -> (k <= 2)%nat ->
  ((length vs + k) mod 4 = 0)%nat -> (length vs mod 4 <> 1)%nat ->
  decode_chars (map char_of_sextet vs ++ replicate k pad) = Ok (bytes_of_sextets vs).
Proof.
  intros Hvs Hk Hlen Hone. unfold decode_chars. rewrite filter_padded.
  rewrite strip_padding_encoding.
  - rewrite length_map.
    rewrite (proj2 (Nat.eqb_neq _ _) Hone).
    by rewrite mapM_sextet_of_char.
  - apply Forall_forall. intros c Hc.
    apply list_elem_of_In, in_map_iff in Hc as (v & <- & _).
    apply char_of_sextet_plain.
  - done.
  - by rewrite length_app, length_map, length_replicate.
Qed.

Lemma decode_chars_encode_chars bs : decode_chars (encode_chars bs) = Ok bs.
Proof.
  unfold encode_chars.
  pose proof (encoding_shape bs) as Hshape. cbn zeta in Hshape.
  rewrite decode_chars_padded.
  - by rewrite bytes_of_sextets_of_bytes.
  - apply sextets_of_bytes_bounded.
  - destruct Hshape as [[_ ->]|[[_ ->]|[_ ->]]]; lia.
  - rewrite <- Nat.Div0.add_mod_idemp_l.
    by destruct Hshape as [[-> ->]|[[-> ->]|[-> ->]]].
  - by destruct Hshape as [[-> _]|[[-> _]|[-> _]]].
Qed.

Lemma strip_padding_keeps (c : ascii) cs :
  c <> pad -> In c cs -> In c (strip_padding cs).
Proof.
  intros Hc Hin. unfold strip_padding.
  destruct (length cs mod 4 =? 0)%nat; [|done].
  pose proof Hin as Hcs. apply in_rev in Hin.
  destruct (rev cs) as [|c1 [|c2 r]] eqn:Hr; [done| |].
  - destruct Hin as [->|[]]. by rewrite (proj2 (Ascii.eqb_neq _ _) Hc).
  - destruct (Ascii.eqb_spec c1 pad) as [->|Hc1]; [|done].
    destruct Hin as [Hin|Hin]; [by subst|].
    destruct (Ascii.eqb_spec c2 pad) as [->|Hc2].
    + destruct Hin as [Hin|Hin]; [by subst|]. by apply in_rev in Hin.
    + by apply in_rev in Hin.
Qed.

Lemma mapM_sextet_of_char_None (c : ascii) cs :
  sextet_of_char c = None -> In c cs -> mapM sextet_of_char cs = None.
Proof.
  intros Hc. induction cs as [|x cs IH]; [done|].
  intros [->|Hin]; cbn.
  - by rewrite Hc.
  - destruct (sextet_of_char x); [|done]. cbn. by rewrite IH.
Qed.

Lemma decode_chars_illegal (c : ascii) cs :
  In c cs -> sextet_of_char c = None -> is_ascii_whitespace c = false ->
  c <> pad -> decode_chars cs = Throw InvalidCharacterError.
Proof.
  intros Hin Hnone Hws Hpad. unfold decode_chars.
  case_match; [done|].
  rewrite (mapM_sextet_of_char_None c); [done|done|].
  apply strip_padding_keeps; [done|].
  apply filter_In. by rewrite Hws.
Qed.

(** *** Canonical texts *)

Lemma char_of_sextet_of_char c v :
  sextet_of_char c = Some v -> v < 64 /\ char_of_sextet v = c.
Proof.
  destruct c as [[] [] [] [] [] [] [] []]; intros H; vm_compute in H;
    try discriminate H; injection H as <-; split; reflexivity.
Qed.

Lemma sextet_is_Some c p :
  sextet_is c p = true ->
  exists v, v < 64 /\ char_of_sextet v = c /\ p v = true.
Proof.
  unfold sextet_is. destruct (sextet_of_char c) as [v|] eqn:E; [|done].
  intros Hp. exists v. by destruct (char_of_sextet_of_char c v E).
Qed.

Lemma is_alphabet_Some c :
  is_alphabet c = true -> exists v, v < 64 /\ char_of_sextet v = c.
Proof. intros H. destruct (sextet_is_Some _ _ H) as (v & ? & ? & _). eauto. Qed.

Lemma sextet_is_char_of_sextet v p :
  v < 64 -> sextet_is (char_of_sextet v) p = p v.
Proof. intros Hv. unfold sextet_is. by rewrite sextet_of_char_of_sextet. Qed.

(** Lists taken four elements at a time. *)
Lemma list_ind4 {A} (P : list A -> Prop) :
  P [] -> (forall a, P [a]) -> (forall a b, P [a; b]) -> (forall a b c, P [a; b; c]) ->
  (forall a b c d l, P l -> P (a :: b :: c :: d :: l)) ->
  forall l, P l.
Proof.
  intros H0 H1 H2 H3 H4 l.
  assert (P l /\ (forall a, P (a :: l)) /\ (forall a b, P (a :: b :: l))
          /\ (forall a b c, P (a :: b :: c :: l))) as [? _]; [|done].
  induction l as [|x l (IH0 & IH1 & IH2 & IH3)]; [by auto|].
  split_and!; auto.
Qed.

(** Regrouping four 6-bit values into three bytes and back. *)
Lemma regroup v1 v2 v3 v4 :
  v1 < 64 -> v2 < 64 -> v3 < 64 -> v4 < 64 ->
  sextets_of_bytes
    [byte_of_N (v1 * 4 + v2 / 16); byte_of_N ((v2 mod 16) * 16 + v3 / 4);
     byte_of_N ((v3 mod 4) * 64 + v4)]
  = [v1; v2; v3; v4].
Proof.
  intros. cbn [sextets_of_bytes]. rewrite !to_N_byte_of_N.
  f_equal; [|f_equal; [|f_equal; [|f_equal]]]; lia_div.
Qed.

Lemma regroup_cons v1 v2 v3 v4 bs :
  v1 < 64 -> v2 < 64 -> v3 < 64 -> v4 < 64 ->
  sextets_of_bytes
    (byte_of_N (v1 * 4 + v2 / 16) :: byte_of_N ((v2 mod 16) * 16 + v3 / 4)
       :: byte_of_N ((v3 mod 4) * 64 + v4) :: bs)
  = v1 :: v2 :: v3 :: v4 :: sextets_of_bytes bs.
Proof.
  intros Hv1 Hv2 Hv3 Hv4.
  pose proof (regroup v1 v2 v3 v4 Hv1 Hv2 Hv3 Hv4) as E.
  cbn [sextets_of_bytes] in *. by injection E as -> -> -> ->.
Qed.

Lemma padding_cons3 a b c bs : padding (a :: b :: c :: bs) = padding bs.
Proof.
  unfold padding. cbn [length].
  replace (S (S (S (length bs)))) with (length bs + 1 * 3)%nat by lia.
  by rewrite Nat.Div0.mod_add.
Qed.

(** A canonical text is a padded text whose last bits are zero. *)
Lemma canonical_decompose cs :
  canonical_chars cs = true ->
  exists vs k,
    cs = map char_of_sextet vs ++ replicate k pad
    /\ Forall (fun v => v < 64) vs /\ (k <= 2)%nat
    /\ ((length vs + k) mod 4 = 0)%nat /\ (length vs mod 4 <> 1)%nat
    /\ sextets_of_bytes (bytes_of_sextets vs) = vs
    /\ padding (bytes_of_sextets vs) = k.
Proof.
  induction cs as [|a|a b|a b c|a b c d l IH] using list_ind4; try done.
  - intros _. exists [], 0%nat. split_and!; [done|apply List.Forall_nil|lia|done..].
  - cbn [canonical_chars]. intros H. apply andb_prop in H as [Ha H].
    apply is_alphabet_Some in Ha as (v1 & Hv1 & <-).
    destruct l as [|e l].
    + destruct (Ascii.eqb_spec d pad) as [->|Hd];
        [destruct (Ascii.eqb_spec c pad) as [->|Hc]|].
      * apply sextet_is_Some in H as (v2 & Hv2 & <- & Hz). apply N.eqb_eq in Hz.
        exists [v1; v2], 2%nat. split_and!; [done|bounded|lia|done|done| |done].
        cbn [bytes_of_sextets sextets_of_bytes]. rewrite !to_N_byte_of_N.
        f_equal; [|f_equal]; lia_div.
      * apply andb_prop in H as [Hb H].
        apply is_alphabet_Some in Hb as (v2 & Hv2 & <-).
        apply sextet_is_Some in H as (v3 & Hv3 & <- & Hz). apply N.eqb_eq in Hz.
        exists [v1; v2; v3], 1%nat.
        split_and!; [done|bounded|lia|done|done| |done].
        cbn [bytes_of_sextets sextets_of_bytes]. rewrite !to_N_byte_of_N.
        f_equal; [|f_equal; [|f_equal]]; lia_div.
      * apply andb_prop in H as [H Hd']. apply andb_prop in H as [Hb Hc].
        apply is_alphabet_Some in Hb as (v2 & Hv2 & <-).
        apply is_alphabet_Some in Hc as (v3 & Hv3 & <-).
        apply is_alphabet_Some in Hd' as (v4 & Hv4 & <-).
        exists [v1; v2; v3; v4], 0%nat.
        split_and!; [done|bounded|lia|done|done| |done].
        cbn [bytes_of_sextets]. by apply regroup.
    + apply andb_prop in H as [H Hl]. apply andb_prop in H as [H Hd'].
      apply andb_prop in H as [Hb Hc].
      apply is_alphabet_Some in Hb as (v2 & Hv2 & <-).
      apply is_alphabet_Some in Hc as (v3 & Hv3 & <-).
      apply is_alphabet_Some in Hd' as (v4 & Hv4 & <-).
      destruct (IH Hl) as (vs & k & Hcs & Hvs & Hk & Hlen & Hone & Hrt & Hpad).
      exists (v1 :: v2 :: v3 :: v4 :: vs), k. split_and!.
      * cbn [map app]. by rewrite Hcs.
      * bounded.
      * done.
      * cbn [length].
        replace (S (S (S (S (length vs)))) + k)%nat with (length vs + k + 1 * 4)%nat by lia.
        by rewrite Nat.Div0.mod_add.
      * cbn [length].
        replace (S (S (S (S (length vs)))))%nat with (length vs + 1 * 4)%nat by lia.
        by rewrite Nat.Div0.mod_add.
      * cbn [bytes_of_sextets]. by rewrite regroup_cons, Hrt.
      * cbn [bytes_of_sextets]. by rewrite padding_cons3.
Qed.

(** On canonical text, [atob] followed by [btoa] gives the text back. *)
Lemma canonical_decode_encode cs :
  canonical_chars cs = true ->
  exists bs, decode_chars cs = Ok bs /\ encode_chars bs = cs.
Proof.
  intros H.
  destruct (canonical_decompose cs H) as (vs & k & -> & Hvs & Hk & Hlen & Hone & Hrt & Hpad).
  exists (bytes_of_sextets vs). split.
  - by apply decode_chars_padded.
  - unfold encode_chars. by rewrite Hrt, Hpad.
Qed.

(** What [btoa] produces is canonical. *)
Lemma canonical_encode_chars bs : canonical_chars (encode_chars bs) = true.
Proof.
  induction bs as [|a|a b|a b c l IH] using list_ind3.
  - done.
  - unfold encode_chars. cbn [sextets_of_bytes map padding length Nat.modulo app replicate].
    pose proof (Byte.to_N_bounded a).
    cbn -[N.div N.modulo N.mul char_of_sextet sextet_is].
    unfold is_alphabet. rewrite !sextet_is_char_of_sextet by lia_div.
    apply N.eqb_eq. lia_div.
  - unfold encode_chars. cbn [sextets_of_bytes map app].
    pose proof (Byte.to_N_bounded a). pose proof (Byte.to_N_bounded b).
    change (padding [a; b]) with 1%nat. cbn [replicate app canonical_chars].
    change (Ascii.eqb pad pad) with true. cbn match.
    destruct (Ascii.eqb_spec (char_of_sextet (to_N b mod 16 * 4)) pad) as [E|_];
      [by destruct (char_of_sextet_plain (to_N b mod 16 * 4))|].
    unfold is_alphabet. rewrite !sextet_is_char_of_sextet by lia_div.
    apply N.eqb_eq. lia_div.
  - pose proof (Byte.to_N_bounded a). pose proof (Byte.to_N_bounded b).
    pose proof (Byte.to_N_bounded c).
    assert (encode_chars (a :: b :: c :: l)
            = char_of_sextet (to_N a / 4)
                :: char_of_sextet (to_N a mod 4 * 16 + to_N b / 16)
                :: char_of_sextet (to_N b mod 16 * 4 + to_N c / 64)
                :: char_of_sextet (to_N c mod 64) :: encode_chars l) as ->.
    { unfold encode_chars. by rewrite padding_cons3. }
    cbn [canonical_chars]. rewrite IH.
    unfold is_alphabet. rewrite !sextet_is_char_of_sextet by lia_div.
    destruct (encode_chars l); [|done].
    destruct (Ascii.eqb_spec (char_of_sextet (to_N c mod 64)) pad) as [E|_];
      [by destruct (char_of_sextet_plain (to_N c mod 64))|].
    done.
Qed.

End Base64Facts.

(** ** Typed arrays and audio buffers *)

Section Loops.
Context {A : Type}.

(** A loop [for (i = 0; i < k; i++)] whose body updates position [i] of a
    list: position [j] of the result is the updated value exactly when the
    loop reached [j]; positions outside the list are never created. *)
Lemma foldl_update_seq (upd : nat -> list A -> list A) (h : nat -> A -> A) :
  (forall i l, upd i l !! i = h i <$> (l !! i)) ->
  (forall i j l, i <> j -> upd i l !! j = l !! j) ->
  forall k l j,
    foldl (fun l i => upd i l) l (seq 0 k) !! j
    = if decide (j < k)%nat then h j <$> (l !! j) else l !! j.
Proof.
  intros Hi Hne k. induction k as [|k IH]; intros l j; [done|].
  rewrite seq_S, foldl_app. cbn [foldl Nat.add].
  destruct (decide (k = j)) as [->|Hkj].
  - rewrite Hi, IH. rewrite decide_False by lia. by rewrite decide_True by lia.
  - rewrite Hne by done. rewrite IH.
    destruct (decide (j < k)%nat).
    + by rewrite decide_True by lia.
    + by rewrite decide_False by lia.
Qed.

Lemma foldl_update_seq_length (upd : nat -> list A -> list A) :
  (forall i l, length (upd i l) = length l) ->
  forall k l, length (foldl (fun l i => upd i l) l (seq 0 k)) = length l.
Proof.
  intros Hlen k. induction k as [|k IH]; intros l; [done|].
  rewrite seq_S, foldl_app. cbn [foldl]. by rewrite Hlen.
Qed.

Lemma list_lookup_insert_fmap (l : list A) i x :
  <[i:=x]> l !! i = (fun _ => x) <$> (l !! i).
Proof.
  destruct (l !! i) eqn:Hl.
  - rewrite list_lookup_insert_eq; [done|]. by eapply lookup_lt_Some.
  - rewrite list_insert_ge; [by rewrite Hl|]. by apply lookup_ge_None.
Qed.
End Loops.

Lemma int16_of_bytes_range lo hi :
  (-32768 <= int16_of_bytes lo hi <= 32767)%Z.
Proof.
  unfold int16_of_bytes.
  pose proof (Byte.to_N_bounded lo). pose proof (Byte.to_N_bounded hi).
  destruct (_ <? _)%Z eqn:E; [apply Z.ltb_lt in E|apply Z.ltb_ge in E]; lia.
Qed.

(** Lists taken two elements at a time. *)
Lemma list_ind2 {A} (P : list A -> Prop) :
  P [] -> (forall a, P [a]) -> (forall a b l, P l -> P (a :: b :: l)) ->
  forall l, P l.
Proof.
  intros H0 H1 H2 l.
  assert (P l /\ forall a, P (a :: l)) as [? _]; [|done].
  induction l as [|x l [IH0 IH1]]; auto.
Qed.

Lemma int16_elements_range buffer :
  Forall (fun v => -32768 <= v <= 32767)%Z (int16_elements buffer).
Proof.
  induction buffer as [|a|a b l IH] using list_ind2; cbn [int16_elements];
    repeat constructor; try apply int16_of_bytes_range.
  done.
Qed.

Lemma int16_elements_length buffer :
  length (int16_elements buffer) = (length buffer / 2)%nat.
Proof.
  induction buffer as [|a|a b l IH] using list_ind2; [done..|].
  cbn [int16_elements length]. rewrite IH.
  change (S (S (length l))) with (1 * 2 + length l)%nat.
  by rewrite Nat.div_add_l by lia.
Qed.

(** Truncation of an integer quotient. *)
Lemma Qtrunc_div (n c : nat) :
  (0 < c)%nat ->
  Qtrunc (inject_Z (Z.of_nat n) / inject_Z (Z.of_nat c)) = Z.of_nat (n / c).
Proof.
  intros Hc. destruct c as [|c]; [lia|].
  unfold Qtrunc, Qdiv, Qinv, Qmult, inject_Z. cbn [Qnum Qden Z.of_nat].
  rewrite Z.mul_1_r. cbn [Qnum Qden]. rewrite Pos.mul_1_l.
  rewrite Z.quot_div_nonneg by lia.
  by rewrite Nat2Z.inj_div.
Qed.

Lemma Qtrunc_le_ceiling q : (0 <= q)%Q -> (Qtrunc q <= Qceiling q)%Z.
Proof.
  intros Hq. unfold Qtrunc.
  assert (0 <= Qnum q)%Z by (destruct q; unfold Qle in Hq; cbn in *; lia).
  rewrite Z.quot_div_nonneg by lia.
  assert (Qnum q / Z.pos (Qden q) = Qfloor q)%Z as -> by (by destruct q).
  rewrite Zle_Qle. eapply Qle_trans; [apply Qfloor_le|apply Qle_ceiling].
Qed.

Lemma div_32768_range v :
  (-32768 <= v <= 32767)%Z ->
  (-1 <= inject_Z v / 32768)%Q /\ (inject_Z v / 32768 <= 1)%Q.
Proof.
  intros Hv. unfold Qle, Qdiv, Qmult, Qinv, inject_Z. cbn. lia.
Qed.

(** What the two loops of [decodeAudioData] leave in one channel. *)
Lemma fill_channel_lookup dataInt16 numChannels frameCount channel cd i :
  fill_channel dataInt16 numChannels frameCount channel cd !! i
  = if decide (i < iterations frameCount)%nat
    then (fun _ => div_32768 (dataInt16 !! (i * numChannels + channel)%nat)) <$> (cd !! i)
    else cd !! i.
Proof.
  unfold fill_channel.
  apply (foldl_update_seq
    (fun i cd => <[i := div_32768 (dataInt16 !! (i * numChannels + channel)%nat)]> cd)
    (fun i _ => div_32768 (dataInt16 !! (i * numChannels + channel)%nat))).
  - intros. apply list_lookup_insert_fmap.
  - intros. by apply list_lookup_insert_ne.
Qed.

Lemma fill_channel_length dataInt16 numChannels frameCount channel cd :
  length (fill_channel dataInt16 numChannels frameCount channel cd) = length cd.
Proof.
  unfold fill_channel.
  apply (foldl_update_seq_length
    (fun i cd => <[i := div_32768 (dataInt16 !! (i * numChannels + channel)%nat)]> cd)).
  intros. apply length_insert.
Qed.

(** The buffer that [decodeAudioData] returns for input of even byte length
    holding at least one frame: [samples / numChannels] frames per channel
    (rounded down), frame [i] of channel [ch] being sample
    [i * numChannels + ch] divided by 32768. *)
Lemma decodeAudioData_spec data ctx rate numChannels :
  Nat.even (length data) = true ->
  (1 <= numChannels <= 32)%nat ->
  (8000 <= rate)%Q -> (rate <= 96000)%Q ->
  let samples := (length data / 2)%nat in
  (1 <= samples / numChannels)%nat ->
  (Z.of_nat (samples / numChannels) < 4294967296)%Z ->
  exists buffer,
    decodeAudioData data ctx rate numChannels = Ok buffer
    /\ numberOfChannels buffer = numChannels
    /\ frames buffer = (samples / numChannels)%nat
    /\ sampleRate buffer = rate
    /\ length (channels buffer) = numChannels
    /\ forall ch, (ch < numChannels)%nat ->
         exists cd, channels buffer !! ch = Some cd
           /\ length cd = (samples / numChannels)%nat
           /\ forall i, (i < samples / numChannels)%nat ->
                exists v, int16_elements data !! (i * numChannels + ch)%nat = Some v
                  /\ cd !! i = Some (Num (inject_Z v / 32768))
                  /\ (-1 <= inject_Z v / 32768)%Q /\ (inject_Z v / 32768 <= 1)%Q.
Proof.
  intros Heven Hc Hlo Hhi samples Hone Hbig.
  unfold decodeAudioData, Int16Array_of_buffer. rewrite Heven. cbn [bind_result].
  rewrite int16_elements_length. fold samples.
  assert (js_div samples numChannels
          = Num (inject_Z (Z.of_nat samples) / inject_Z (Z.of_nat numChannels))) as Hdiv.
  { unfold js_div. destruct numChannels; [lia|done]. }
  rewrite Hdiv.
  set (frameCount := Num _).
  assert (ToUint32 frameCount = (samples / numChannels)%nat) as Hlen.
  { unfold frameCount, ToUint32. rewrite Qtrunc_div by lia.
    rewrite Z.mod_small; [apply Nat2Z.id|].
    lia. }
  assert (samples / numChannels <= iterations frameCount)%nat as Hiter.
  { unfold frameCount, iterations.
    assert (Z.of_nat (samples / numChannels)
            <= Qceiling (inject_Z (Z.of_nat samples) / inject_Z (Z.of_nat numChannels)))%Z;
      [|lia].
    rewrite <- Qtrunc_div by lia. apply Qtrunc_le_ceiling.
    apply Qmult_le_0_compat; [unfold Qle; cbn; lia|].
    apply Qinv_le_0_compat. unfold Qle; cbn; lia. }
  unfold createBuffer. rewrite Hlen.
  rewrite (proj2 (Nat.leb_le 1 numChannels)) by lia.
  rewrite (proj2 (Nat.leb_le numChannels 32)) by lia.
  rewrite (proj2 (Nat.leb_le 1 _) Hone).
  rewrite (proj2 (Qle_bool_iff 8000 rate) Hlo).
  rewrite (proj2 (Qle_bool_iff rate 96000) Hhi).
  cbn [andb bind_result numberOfChannels frames sampleRate channels].
  eexists. split; [reflexivity|]. cbn [numberOfChannels frames sampleRate channels].
  split_and!; [done..| |].
  - rewrite (foldl_update_seq_length
      (fun channel chans =>
         alter (fill_channel (int16_elements data) numChannels frameCount channel)
               channel chans)).
    + apply length_replicate.
    + intros. apply length_alter.
  - intros ch Hch.
    rewrite (foldl_update_seq
      (fun channel chans =>
         alter (fill_channel (int16_elements data) numChannels frameCount channel)
               channel chans)
      (fill_channel (int16_elements data) numChannels frameCount)).
    2: { intros. apply list_lookup_alter_eq. }
    2: { intros. by apply list_lookup_alter_ne. }
    rewrite decide_True by done. rewrite lookup_replicate_2 by done.
    eexists. split; [reflexivity|].
    split; [by rewrite fill_channel_length, length_replicate|].
    intros i Hi.
    assert (i * numChannels + ch < length (int16_elements data))%nat as Hidx.
    { rewrite int16_elements_length. fold samples.
      pose proof (Nat.Div0.mul_div_le samples numChannels). nia. }
    apply lookup_lt_is_Some_2 in Hidx as [v Hv].
    exists v. split; [done|].
    rewrite fill_channel_lookup, decide_True by lia.
    rewrite lookup_replicate_2 by done. rewrite Hv. split; [done|].
    apply div_32768_range.
    pose proof (int16_elements_range data) as Hr.
    rewrite Forall_forall in Hr. apply Hr. by eapply list_elem_of_lookup_2.
Qed.

Lemma decodeAudioData_odd data ctx rate numChannels :
  Nat.even (length data) = false ->
  decodeAudioData data ctx rate numChannels = Throw RangeError.
Proof.
  intros Hodd. unfold decodeAudioData, Int16Array_of_buffer. by rewrite Hodd.
Qed.

(** ** Capture conversion *)

Lemma int16_of_bytes_of_int16 v :
  (-32768 <= v <= 32767)%Z ->
  int16_elements (bytes_of_int16 v) = [v].
Proof.
  intros Hv. unfold bytes_of_int16. cbn [int16_elements]. f_equal.
  unfold int16_of_bytes. rewrite !Base64Facts.to_N_byte_of_N.
  destruct (_ <? _)%Z eqn:E; [apply Z.ltb_lt in E|apply Z.ltb_ge in E];
    lia_div.
Qed.

Lemma Uint8Array_of_int16_elements int16 :
  Forall (fun v => -32768 <= v <= 32767)%Z int16 ->
  int16_elements (Uint8Array_of_int16 int16) = int16
  /\ length (Uint8Array_of_int16 int16) = (2 * length int16)%nat.
Proof.
  induction 1 as [|v l Hv _ [IH1 IH2]]; [done|].
  cbn [Uint8Array_of_int16 flat_map bytes_of_int16 app int16_elements length].
  fold (Uint8Array_of_int16 l). rewrite IH1, IH2. split; [|lia].
  f_equal. pose proof (int16_of_bytes_of_int16 v Hv) as E.
  unfold bytes_of_int16 in E. cbn [int16_elements] in E. by injection E.
Qed.

Lemma ToInt16_range x : (-32768 <= ToInt16 x <= 32767)%Z.
Proof.
  destruct x as [q| |]; cbn [ToInt16]; [|lia..].
  destruct (_ <? _)%Z eqn:E; [apply Z.ltb_lt in E|apply Z.ltb_ge in E];
    lia_div.
Qed.

Lemma int16_of_floats_range inputData :
  Forall (fun v => -32768 <= v <= 32767)%Z (int16_of_floats inputData).
Proof.
  unfold int16_of_floats. apply Forall_forall. intros v Hv.
  apply list_elem_of_In, in_map_iff in Hv as (x & <- & _). apply ToInt16_range.
Qed.

Lemma Qtrunc_integral q z : (q == inject_Z z)%Q -> Qtrunc q = z.
Proof.
  unfold Qeq, Qtrunc. cbn [Qnum Qden inject_Z]. intros E.
  rewrite Z.mul_1_r in E. rewrite E. apply Z.quot_mul. lia.
Qed.

(** Inside the 16-bit range the store changes nothing but the fraction. *)
Lemma ToInt16_exact q z :
  (q == inject_Z z)%Q -> (-32768 <= z <= 32767)%Z -> ToInt16 (Num q) = z.
Proof.
  intros E Hz. cbn [ToInt16]. rewrite (Qtrunc_integral q z E).
  destruct (_ <? _)%Z eqn:E'; [apply Z.ltb_lt in E'|apply Z.ltb_ge in E'];
    lia_div.
Qed.

(** The payload of a frame: its bytes, recovered by [decode], are the
    little-endian 16-bit samples. *)
Lemma audio_blob_spec inputData :
  let bytes := Uint8Array_of_int16 (int16_of_floats inputData) in
  data (audio_blob inputData) = encode bytes
  /\ mimeType (audio_blob inputData) = "audio/pcm;rate=16000"
  /\ decode (data (audio_blob inputData)) = Ok bytes
  /\ int16_elements bytes = int16_of_floats inputData
  /\ length bytes = (2 * length inputData)%nat.
Proof.
  intros bytes. pose proof (Uint8Array_of_int16_elements _ (int16_of_floats_range inputData)) as [H1 H2].
  split_and!; [done|done| |done|].
  - cbn [audio_blob data]. fold bytes. unfold decode, encode, Base64.atob, Base64.btoa.
    rewrite list_ascii_of_string_of_list_ascii, list_byte_of_string_of_list_byte.
    rewrite Base64Facts.decode_chars_encode_chars.
    by rewrite list_byte_of_string_of_list_byte.
  - unfold bytes. rewrite H2. unfold int16_of_floats. by rewrite length_map.
Qed.

Lemma decode_encode bytes : decode (encode bytes) = Ok bytes.
Proof.
  unfold decode, encode, Base64.atob, Base64.btoa.
  rewrite list_ascii_of_string_of_list_ascii, list_byte_of_string_of_list_byte.
  rewrite Base64Facts.decode_chars_encode_chars.
  by rewrite list_byte_of_string_of_list_byte.
Qed.

(** ** The session *)

Section SessionFacts.

Context {Host : Type}.
Variable onCommand : string -> option (gmap string string) -> Host -> result Host.
Implicit Types w : World Host.

Lemma emit_nil w : emit [] w = w.
Proof. destruct w. unfold emit, set_trace. cbn. by rewrite app_nil_r. Qed.

Lemma emit_emit es1 es2 w : emit es2 (emit es1 w) = emit (es1 ++ es2) w.
Proof. destruct w. unfold emit, set_trace. cbn. by rewrite app_assoc. Qed.

(** The reactions of a promise that is fulfilled run in the order of
    their registration. *)
Lemma run_reactions s rs w :
  foldl run_microtask w (map (React s) rs) = emit (map (reaction_effect s) rs) w.
Proof.
  revert w. induction rs as [|r rs IH]; intros w; cbn [map foldl].
  - by rewrite emit_nil.
  - rewrite IH. destruct r; cbn [run_microtask reaction_effect]; by rewrite emit_emit.
Qed.

(** The reactions that send tool responses only extend the trace. *)
Lemma run_tool_responses s fcs w :
  foldl run_microtask w (map (fun fc => React s (ToolResponse fc)) fcs)
  = emit (map (fun fc => SendToolResponse s (fc_id fc) (fc_name fc) "ok") fcs) w.
Proof.
  revert w. induction fcs as [|fc fcs IH]; intros w; cbn [map foldl].
  - by rewrite emit_nil.
  - rewrite IH. cbn [run_microtask]. by rewrite emit_emit.
Qed.

Lemma sessionPromise_then_set_host r h w :
  sessionPromise_then r (set_host h w) = set_host h (sessionPromise_then r w).
Proof. destruct w as [? ? ? ? ? ? ? [] ? ? ? ? ? ?]; reflexivity. Qed.

Lemma thens_set_host fcs h w : thens fcs (set_host h w) = set_host h (thens fcs w).
Proof.
  revert w. induction fcs as [|fc fcs IH]; intros w; [done|].
  unfold thens in *. cbn [foldl]. by rewrite sessionPromise_then_set_host, IH.
Qed.

Lemma set_host_set_host h h' w : set_host h (set_host h' w) = set_host h w.
Proof. by destruct w. Qed.

(** The loop over the function calls, when every call returns: the host
    has moved on and one reaction per call is registered, in order. *)
Lemma tool_calls_returns fcs w :
  dispatch_returns onCommand fcs ->
  exists h, tool_calls onCommand fcs w = (set_host h (thens fcs w), None).
Proof.
  revert w. induction fcs as [|fc fcs IH]; intros w Hret.
  - exists (host w). by destruct w.
  - cbn [tool_calls].
    destruct (Hret fc (or_introl eq_refl) (host w)) as [h1 ->].
    destruct (IH (sessionPromise_then (ToolResponse fc) (set_host h1 w))) as [h ->].
    { intros fc' Hin. apply Hret. by right. }
    exists h. f_equal.
    change (thens (fc :: fcs) w)
      with (thens fcs (sessionPromise_then (ToolResponse fc) w)).
    rewrite sessionPromise_then_set_host.
    by rewrite thens_set_host, set_host_set_host.
Qed.

Lemma thens_Fulfilled s fcs w :
  sessionPromise w = Fulfilled s ->
  thens fcs w
  = set_microtasks
      (microtasks w ++ map (fun fc => React s (ToolResponse fc)) fcs) w.
Proof.
  revert w. induction fcs as [|fc fcs IH]; intros w Hs.
  - destruct w. unfold set_microtasks. cbn. by rewrite app_nil_r.
  - unfold thens in *. cbn [foldl]. rewrite IH.
    + unfold sessionPromise_then. rewrite Hs. destruct w. unfold set_microtasks.
      cbn. by rewrite <- app_assoc.
    + unfold sessionPromise_then. rewrite Hs. by destruct w.
Qed.

Lemma thens_Pending rs fcs w :
  sessionPromise w = Pending rs ->
  thens fcs w = set_sessionPromise (Pending (rs ++ map ToolResponse fcs)) w.
Proof.
  revert w rs. induction fcs as [|fc fcs IH]; intros w rs Hs.
  - destruct w. unfold set_sessionPromise. cbn in *. by rewrite app_nil_r, Hs.
  - unfold thens in *. cbn [foldl]. rewrite (IH _ (rs ++ [ToolResponse fc])).
    + unfold sessionPromise_then. rewrite Hs. destruct w. unfold set_sessionPromise.
      cbn. by rewrite <- app_assoc.
    + unfold sessionPromise_then. rewrite Hs. by destruct w.
Qed.

Lemma thens_Rejected e fcs w :
  sessionPromise w = Rejected e ->
  thens fcs w
  = set_microtasks (microtasks w ++ map (fun _ => Unhandled e) fcs) w.
Proof.
  revert w. induction fcs as [|fc fcs IH]; intros w Hs.
  - destruct w. unfold set_microtasks. cbn. by rewrite app_nil_r.
  - unfold thens in *. cbn [foldl]. rewrite IH.
    + unfold sessionPromise_then. rewrite Hs. destruct w. unfold set_microtasks.
      cbn. by rewrite <- app_assoc.
    + unfold sessionPromise_then. rewrite Hs. by destruct w.
Qed.

Lemma thens_NoPromise fcs w : sessionPromise w = NoPromise -> thens fcs w = w.
Proof.
  revert w. induction fcs as [|fc fcs IH]; intros w Hs; [done|].
  unfold thens in *. cbn [foldl].
  assert (sessionPromise_then (ToolResponse fc) w = w) as ->.
  { unfold sessionPromise_then. by rewrite Hs. }
  by apply IH.
Qed.

Lemma run_unhandled {A} e (fcs : list A) w :
  foldl run_microtask w (map (fun _ => Unhandled e) fcs)
  = emit (map (fun _ => Uncaught e) fcs) w.
Proof.
  revert w. induction fcs as [|fc fcs IH]; intros w; cbn [map foldl].
  - by rewrite emit_nil.
  - rewrite IH. cbn [run_microtask]. by rewrite emit_emit.
Qed.

(** The registrations of a message in one statement: they leave the world
    as it is but for the promise and the queue, and what they queue puts
    out [reactions_log]. *)
Lemma thens_spec fcs w :
  exists prom' reacts,
    thens fcs w = set_microtasks (microtasks w ++ reacts) (set_sessionPromise prom' w)
    /\ (forall s, sessionPromise w = Fulfilled s -> prom' = Fulfilled s)
    /\ forall w2, foldl run_microtask w2 reacts = emit (reactions_log w fcs) w2.
Proof.
  unfold reactions_log. destruct (sessionPromise w) as [|rs|s|e] eqn:Hs.
  - exists NoPromise, []. rewrite thens_NoPromise by done.
    split_and!; [|done|intros; by rewrite emit_nil].
    destruct w. cbn in *. subst. unfold set_microtasks, set_sessionPromise. cbn.
    by rewrite app_nil_r.
  - exists (Pending (rs ++ map ToolResponse fcs)), [].
    rewrite (thens_Pending rs) by done.
    split_and!; [|done|intros; by rewrite emit_nil].
    destruct w. unfold set_microtasks, set_sessionPromise. cbn. by rewrite app_nil_r.
  - exists (Fulfilled s), (map (fun fc => React s (ToolResponse fc)) fcs).
    rewrite (thens_Fulfilled s) by done.
    split_and!; [|done|intros; apply run_tool_responses].
    destruct w. cbn in *. by subst.
  - exists (Rejected e), (map (fun _ => Unhandled e) fcs).
    rewrite (thens_Rejected e) by done.
    split_and!; [|done|intros; apply run_unhandled].
    destruct w. cbn in *. by subst.
Qed.

(** The loop over the tool calls, whatever the callback does. *)
Lemma tool_calls_loop fcs w :
  tool_calls onCommand fcs w
  = (set_host (host_after onCommand fcs (host w))
       (thens (returned_calls onCommand fcs (host w)) w),
     thrown onCommand fcs (host w)).
Proof.
  revert w. induction fcs as [|fc fcs IH]; intros w.
  - by destruct w.
  - cbn [tool_calls returned_calls host_after thrown].
    destruct (onCommand (fc_name fc) (fc_args fc) (host w)) as [h1|e].
    + rewrite IH.
      assert (host (sessionPromise_then (ToolResponse fc) (set_host h1 w)) = h1) as ->.
      { rewrite sessionPromise_then_set_host. by destruct (sessionPromise_then _ w). }
      f_equal.
      change (thens (fc :: ?l) w)
        with (thens l (sessionPromise_then (ToolResponse fc) w)).
      rewrite sessionPromise_then_set_host.
      by rewrite thens_set_host, set_host_set_host.
    + by destruct w.
Qed.

Lemma thrown_None fcs h :
  thrown onCommand fcs h = None <-> returned_calls onCommand fcs h = fcs.
Proof.
  revert h. induction fcs as [|fc fcs IH]; intros h; [done|].
  cbn [thrown returned_calls].
  destruct (onCommand (fc_name fc) (fc_args fc) h) as [h1|e]; [|done].
  rewrite IH. split; [by intros ->|by intros [= ->]].
Qed.

Lemma returned_calls_all fcs h :
  dispatch_returns onCommand fcs ->
  returned_calls onCommand fcs h = fcs /\ thrown onCommand fcs h = None.
Proof.
  intros Hret. assert (returned_calls onCommand fcs h = fcs) as E.
  { revert h. induction fcs as [|fc fcs IH]; intros h; [done|].
    cbn [returned_calls].
    destruct (Hret fc (or_introl eq_refl) h) as [h1 ->].
    rewrite IH; [done|]. intros fc' Hin. apply Hret. by right. }
  split; [done|]. by apply thrown_None.
Qed.

Lemma decodeAudioData_ctx bytes ctx ctx' rate numChannels :
  decodeAudioData bytes ctx rate numChannels
  = decodeAudioData bytes ctx' rate numChannels.
Proof. reflexivity. Qed.

(** One delivery, from a quiescent world whose output context exists and
    for a message whose tool calls all return from the host state at
    hand: the reactions of the tool calls put out their part first, then
    the audio is scheduled or dropped, then an interruption stops
    whatever is active. *)
Lemma deliver_spec_at now m w c :
  quiescent w -> audioContexts w = Some c ->
  thrown onCommand (calls m) (host w) = None ->
  let w' := deliver onCommand now m w in
  let t := Qmax (nextStartTime w) now in
  quiescent w' /\ audioContexts w' = Some c
  /\ (forall s, sessionPromise w = Fulfilled s -> sessionPromise w' = Fulfilled s)
  /\ match audio_outcome m with
     | NoAudio =>
         trace w' = trace w ++ stops_if (interrupted m) (sources w)
                      ++ reactions_log w (calls m)
         /\ nextStartTime w' = (if interrupted m then 0%Q else nextStartTime w)
         /\ sources w' = (if interrupted m then [] else sources w)
         /\ nextSource w' = nextSource w
     | Scheduled b =>
         trace w' = trace w ++ reactions_log w (calls m)
                      ++ SourceStart (nextSource w) b t
                           :: stops_if (interrupted m) (sources w ++ [nextSource w])
         /\ nextStartTime w' = (if interrupted m then 0 else t + duration b)%Q
         /\ sources w' = (if interrupted m then [] else sources w ++ [nextSource w])
         /\ nextSource w' = S (nextSource w)
     | Dropped e =>
         (exists before after,
             trace w' = trace w ++ before ++ [Uncaught e] ++ after
             /\ before ++ after = reactions_log w (calls m))
         /\ nextStartTime w' = t
         /\ sources w' = sources w
         /\ nextSource w' = nextSource w
     end.
Proof.
  intros Hq Hc Hret. unfold deliver, onmessage.
  destruct w as [act con tr sref ctxs cur srcs prom mic cap h nxt mts log].
  unfold quiescent in Hq. cbn in Hq, Hc, Hret. subst mts ctxs.
  set (w0 := match inputTranscription m with Some _ => _ | None => _ end).
  assert (exists tr', w0 = @Build_World Host act con tr' sref (Some c) cur srcs prom
                             mic cap h nxt [] log) as [tr' Hw0].
  { unfold w0. destruct (inputTranscription m); eexists; reflexivity. }
  rewrite Hw0. clear Hw0 w0.
  set (acks := reactions_log _ (calls m)).
  assert (exists w1 reacts,
    match toolCall m with
    | Some fcs => tool_calls onCommand fcs
         (@Build_World Host act con tr' sref (Some c) cur srcs prom mic cap h nxt [] log)
    | None => (@Build_World Host act con tr' sref (Some c) cur srcs prom mic cap h nxt [] log, None)
    end = (w1, None)
    /\ (exists h' prom', w1 = @Build_World Host act con tr' sref (Some c) cur srcs prom'
                                mic cap h' nxt reacts log
          /\ forall s, prom = Fulfilled s -> prom' = Fulfilled s)
    /\ forall w2 : World Host, foldl run_microtask w2 reacts = emit acks w2)
    as (w1 & reacts & -> & (h' & prom' & -> & Hprom) & Hreacts).
  { unfold acks, calls in *. destruct (toolCall m) as [fcs|]; cbn [default id] in *.
    - rewrite tool_calls_loop. cbn [host]. rewrite Hret.
      apply thrown_None in Hret. rewrite Hret.
      destruct (thens_spec fcs
        (@Build_World Host act con tr' sref (Some c) cur srcs prom mic cap h nxt [] log))
        as (prom' & reacts & -> & Hprom & Hreacts).
      eexists _, reacts. split; [reflexivity|]. split; [by eexists _, _|].
      exact Hreacts.
    - eexists _, []. split; [done|]. split; [by eexists _, _|].
      intros. unfold reactions_log. destruct prom; by rewrite emit_nil. }
  clearbody acks. clear Hret.
  unfold onmessage_audio, audio_outcome. cbn [audioContexts base64Audio].
  destruct (base64Audio m) as [b64|]; [case_bool_decide|].
  - (* empty string *)
    unfold checkpoint, onmessage_end, interrupt, quiescent.
    destruct (interrupted m), (turnComplete m); cbn; rewrite Hreacts; cbn;
      rewrite <- ?app_assoc; split_and!; auto.
  - cbn [nextStartTime currentTime].
    destruct (decode b64) as [bytes|e].
    + rewrite (decodeAudioData_ctx bytes {| currentTime := now |}
                                         {| currentTime := 0 |}).
      destruct (decodeAudioData bytes _ 24000 1) as [buffer|e];
        unfold checkpoint, quiescent; cbn; rewrite foldl_app, Hreacts; cbn.
      * unfold onmessage_end, interrupt.
        destruct (interrupted m), (turnComplete m); cbn;
          rewrite <- ?app_assoc; cbn; split_and!; auto.
      * rewrite <- ?app_assoc; split_and!; auto.
        exists acks, []. by rewrite app_nil_r.
    + unfold checkpoint, quiescent; cbn. rewrite Hreacts. cbn.
      rewrite <- ?app_assoc; split_and!; auto.
      by exists [], acks.
  - unfold checkpoint, onmessage_end, interrupt, quiescent.
    destruct (interrupted m), (turnComplete m); cbn; rewrite Hreacts; cbn;
      rewrite <- ?app_assoc; split_and!; auto.
Qed.

Lemma deliver_spec now m w c :
  quiescent w -> audioContexts w = Some c ->
  dispatch_returns onCommand (calls m) ->
  let w' := deliver onCommand now m w in
  let t := Qmax (nextStartTime w) now in
  quiescent w' /\ audioContexts w' = Some c
  /\ (forall s, sessionPromise w = Fulfilled s -> sessionPromise w' = Fulfilled s)
  /\ match audio_outcome m with
     | NoAudio =>
         trace w' = trace w ++ stops_if (interrupted m) (sources w)
                      ++ reactions_log w (calls m)
         /\ nextStartTime w' = (if interrupted m then 0%Q else nextStartTime w)
         /\ sources w' = (if interrupted m then [] else sources w)
         /\ nextSource w' = nextSource w
     | Scheduled b =>
         trace w' = trace w ++ reactions_log w (calls m)
                      ++ SourceStart (nextSource w) b t
                           :: stops_if (interrupted m) (sources w ++ [nextSource w])
         /\ nextStartTime w' = (if interrupted m then 0 else t + duration b)%Q
         /\ sources w' = (if interrupted m then [] else sources w ++ [nextSource w])
         /\ nextSource w' = S (nextSource w)
     | Dropped e =>
         (exists before after,
             trace w' = trace w ++ before ++ [Uncaught e] ++ after
             /\ before ++ after = reactions_log w (calls m))
         /\ nextStartTime w' = t
         /\ sources w' = sources w
         /\ nextSource w' = nextSource w
     end.
Proof.
  intros Hq Hc Hret. apply deliver_spec_at; [done|done|].
  by apply returned_calls_all.
Qed.

End SessionFacts.

(** * The claims *)

(** ** C5: base64 round trip *)

(** C5, counterexample.  The claim is that [encode (decode x) = x] for every
    valid base64 string [x] and that [decode] fails on the others.  The
    unpadded string ["YQ"] is decoded, to the single byte ["a"], so it is not
    rejected as malformed; yet encoding that byte gives ["YQ=="], which is
    not the string that was decoded. *)
Lemma roundtrip_unpadded :
  Base64.canonical "YQ" = false
  /\ exists bytes,
       decode "YQ" = Ok bytes /\ encode bytes = "YQ==" /\ encode bytes <> "YQ".
Proof.
  split; [reflexivity|].
  exists ["a"%byte]. split_and!; [reflexivity..|discriminate].
Qed.

(** C5, as amended.  For every canonical base64 string [x] (groups of four
    characters of the alphabet, the last group possibly ending in one or
    two [=], its unused bits zero), [decode x] succeeds and
    [encode (decode x) = x]; the canonical strings are exactly the ones
    that [encode] produces, and [decode (encode bytes) = bytes].  [decode]
    fails, with the [InvalidCharacterError] of [atob], on every string that
    holds a character which is neither in the base64 alphabet, nor ASCII
    whitespace, nor [=]. *)
Theorem encode_decode_roundtrip :
  (forall x,
      Base64.canonical x = true ->
      exists bytes, decode x = Ok bytes /\ encode bytes = x)
  /\ (forall bytes,
        Base64.canonical (encode bytes) = true /\ decode (encode bytes) = Ok bytes)
  /\ (forall x ch,
        In ch (list_ascii_of_string x) ->
        Base64.sextet_of_char ch = None ->
        Base64.is_ascii_whitespace ch = false ->
        ch <> "="%char ->
        decode x = Throw InvalidCharacterError).
Proof.
  split_and!.
  - intros x Hx. unfold Base64.canonical in Hx.
    destruct (Base64Facts.canonical_decode_encode _ Hx) as (bs & Hdec & Henc).
    exists bs. unfold decode, encode, Base64.atob, Base64.btoa.
    rewrite Hdec, !list_byte_of_string_of_list_byte, Henc.
    by rewrite string_of_list_ascii_of_string.
  - intros bytes. split; [|apply decode_encode].
    unfold Base64.canonical, encode, Base64.btoa.
    rewrite list_ascii_of_string_of_list_ascii.
    apply Base64Facts.canonical_encode_chars.
  - intros x ch Hin Hnone Hws Hpad. unfold decode, Base64.atob.
    by rewrite (Base64Facts.decode_chars_illegal ch).
Qed.

Lemma encode_decode_roundtrip_witness :
  (exists bytes, decode "YWI=" = Ok bytes /\ encode bytes = "YWI=")
  /\ decode "Y*==" = Throw InvalidCharacterError.
Proof.
  split.
  - apply (proj1 encode_decode_roundtrip "YWI="). reflexivity.
  - apply (proj2 (proj2 encode_decode_roundtrip) "Y*==" "*"%char).
    + right; left; reflexivity.
    + reflexivity.
    + reflexivity.
    + discriminate.
Defined.

(** ** C4: PCM buffers *)

(** C4, counterexample.  Six bytes are three samples; with two channels the
    byte length is not a multiple of [channelCount * 2 = 4], and the claim
    is that the conversion fails.  It returns a buffer of one frame per
    channel: the third sample is dropped. *)
Lemma partial_frame_accepted :
  (6 mod (2 * 2) <> 0)%nat
  /\ decodeAudioData [x00; x80; xff; x7f; x01; x00]%byte {| currentTime := 0 |} 24000 2
     = Ok {| numberOfChannels := 2; frames := 1; sampleRate := 24000;
             channels := [[Num (-32768 # 32768)]; [Num (32767 # 32768)]] |}.
Proof. split; [discriminate|reflexivity]. Qed.

(** C4, as amended.  Applied to a byte buffer of even length that holds [n]
    interleaved 16-bit signed little-endian samples, for [c] channels (1 to
    32, at a rate from 8000 Hz to 96000 Hz) and with at least one whole frame,
    [decodeAudioData] produces [n / c] frames per channel, rounded down,
    each the sample [i * c + ch] divided by 32768 and lying in [-1, 1].  It
    fails, with the [RangeError] of the typed-array view, whenever the byte
    length is odd; for one channel, the only count the session uses, that is
    whenever the byte length is not a multiple of [channelCount * 2]. *)
Theorem decodeAudioData_frames :
  (forall data ctx rate numChannels,
      Nat.even (length data) = true ->
      (1 <= numChannels <= 32)%nat ->
      (8000 <= rate)%Q -> (rate <= 96000)%Q ->
      let samples := (length data / 2)%nat in
      (1 <= samples / numChannels)%nat ->
      (Z.of_nat (samples / numChannels) < 4294967296)%Z ->
      exists buffer,
        decodeAudioData data ctx rate numChannels = Ok buffer
        /\ numberOfChannels buffer = numChannels
        /\ frames buffer = (samples / numChannels)%nat
        /\ sampleRate buffer = rate
        /\ length (channels buffer) = numChannels
        /\ forall ch, (ch < numChannels)%nat ->
             exists cd, channels buffer !! ch = Some cd
               /\ length cd = (samples / numChannels)%nat
               /\ forall i, (i < samples / numChannels)%nat ->
                    exists v, int16_elements data !! (i * numChannels + ch)%nat = Some v
                      /\ cd !! i = Some (Num (inject_Z v / 32768))
                      /\ (-1 <= inject_Z v / 32768)%Q /\ (inject_Z v / 32768 <= 1)%Q)
  /\ (forall data ctx rate numChannels,
        Nat.even (length data) = false ->
        decodeAudioData data ctx rate numChannels = Throw RangeError)
  /\ (forall data ctx rate,
        (length data mod (1 * 2) <> 0)%nat ->
        decodeAudioData data ctx rate 1 = Throw RangeError).
Proof.
  split_and!.
  - apply decodeAudioData_spec.
  - apply decodeAudioData_odd.
  - intros data ctx rate Hmod. apply decodeAudioData_odd.
    change (1 * 2)%nat with 2%nat in Hmod.
    destruct (Nat.even (length data)) eqn:E; [|done].
    exfalso. apply Hmod.
    apply Nat.even_spec in E as [k ->]. by rewrite Nat.mul_comm, Nat.Div0.mod_mul.
Qed.

Lemma decodeAudioData_frames_witness :
  (exists buffer,
     decodeAudioData [x00; x80; xff; x7f; x01; x00]%byte {| currentTime := 0 |} 24000 1
     = Ok buffer /\ frames buffer = 3%nat)
  /\ decodeAudioData [x00; x80; xff]%byte {| currentTime := 0 |} 24000 1
     = Throw RangeError.
Proof.
  split.
  - destruct (proj1 decodeAudioData_frames
                [x00; x80; xff; x7f; x01; x00]%byte {| currentTime := 0 |} 24000%Q 1%nat)
      as (buffer & Hok & _ & Hframes & _).
    + reflexivity.
    + lia.
    + unfold Qle; cbn; lia.
    + unfold Qle; cbn; lia.
    + cbn; lia.
    + cbn; lia.
    + exists buffer. split; [exact Hok|exact Hframes].
  - apply (proj2 (proj2 decodeAudioData_frames)). cbn. discriminate.
Defined.

(** ** C10: the conversion of captured samples *)

Lemma scaled_trunc_range (v : Q) :
  (-1 <= v)%Q -> (v < 1)%Q -> (-32768 <= Qtrunc (v * 32768) <= 32767)%Z.
Proof.
  destruct v as [n d]. unfold Qle, Qlt, Qtrunc, Qmult. cbn [Qnum Qden].
  intros Hlo Hhi.
  assert (- Z.pos d <= n < Z.pos d)%Z as Hn by lia.
  replace (Z.pos (d * 1)) with (Z.pos d) by (f_equal; lia).
  clear Hlo Hhi.
  destruct (Z.le_gt_cases 0 n) as [Hpos|Hneg].
  - pose proof (Z.quot_pos (n * 32768) (Z.pos d) ltac:(lia) ltac:(lia)).
    pose proof (Z.mul_quot_le (n * 32768) (Z.pos d) ltac:(lia) ltac:(lia)). nia.
  - pose proof (Z.quot_opp_l (n * 32768) (Z.pos d) ltac:(lia)) as E.
    pose proof (Z.quot_pos (- (n * 32768)) (Z.pos d) ltac:(lia) ltac:(lia)).
    pose proof (Z.mul_quot_le (- (n * 32768)) (Z.pos d) ltac:(lia) ltac:(lia)). nia.
Qed.

Lemma scaled_sample_range (v : Q) (z : Z) :
  (-1 <= v)%Q -> (v < 1)%Q -> (v * 32768 == inject_Z z)%Q ->
  (-32768 <= z <= 32767)%Z.
Proof.
  destruct v as [n d]. unfold Qle, Qlt, Qeq, Qmult, inject_Z. cbn.
  intros Hlo Hhi E. nia.
Qed.

(** C10.  The capture path multiplies each sample by 32768 and stores it in
    an [Int16Array] without clamping.  This holds of every sample of a
    frame, whatever its position: a sample [v] with [-1 <= v < 1] is
    stored, and transmitted as two little-endian bytes, as [v * 32768]
    truncated toward zero, which is [v * 32768] itself when that is an
    integer.  The full-scale sample 1 gives 32768, which is outside the
    signed 16-bit range, and the store reduces it modulo [2^16] to
    -32768.  The frame sent has as many samples as the frame captured. *)
Theorem capture_sample_conversion :
  (forall (inputData : list number) (i : nat) (v : Q) (z : Z),
      inputData !! i = Some (Num v) ->
      (-1 <= v)%Q -> (v < 1)%Q -> (v * 32768 == inject_Z z)%Q ->
      int16_of_floats inputData !! i = Some z
      /\ exists bytes,
           decode (data (audio_blob inputData)) = Ok bytes
           /\ int16_elements bytes !! i = Some z)
  /\ (forall (inputData : list number) (i : nat) (v : Q),
        inputData !! i = Some (Num v) ->
        (-1 <= v)%Q -> (v < 1)%Q ->
        int16_of_floats inputData !! i = Some (Qtrunc (v * 32768))
        /\ (-32768 <= Qtrunc (v * 32768) <= 32767)%Z)
  /\ (forall (inputData : list number) (i : nat),
        inputData !! i = Some (Num 1) ->
        int16_of_floats inputData !! i = Some (-32768)%Z
        /\ exists bytes,
             decode (data (audio_blob inputData)) = Ok bytes
             /\ int16_elements bytes !! i = Some (-32768)%Z)
  /\ (forall inputData : list number,
        length (int16_of_floats inputData) = length inputData)
  /\ mul_32768 (Num 1) = Num (1 * 32768)
  /\ Qtrunc (1 * 32768) = 32768%Z
  /\ ~ (32768 <= 32767)%Z
  /\ (32768 - 65536 = -32768)%Z.
Proof.
  assert (forall inputData i z,
             int16_of_floats inputData !! i = Some z ->
             exists bytes,
               decode (data (audio_blob inputData)) = Ok bytes
               /\ int16_elements bytes !! i = Some z) as Hsent.
  { intros inputData i z Hz.
    destruct (audio_blob_spec inputData) as (_ & _ & Hdec & Hel & _). cbv zeta in *.
    eexists. split; [exact Hdec|]. by rewrite Hel. }
  assert (forall inputData i x,
             inputData !! i = Some x ->
             int16_of_floats inputData !! i = Some (ToInt16 (mul_32768 x))) as Hat.
  { intros inputData i x Hx. unfold int16_of_floats.
    by rewrite list_lookup_fmap, Hx. }
  split_and!; [| | | |reflexivity|reflexivity|lia|reflexivity].
  - intros inputData i v z Hi Hlo Hhi E.
    pose proof (scaled_sample_range v z Hlo Hhi E) as Hz.
    assert (int16_of_floats inputData !! i = Some z) as Hz'.
    { rewrite (Hat _ _ _ Hi). cbn [mul_32768]. f_equal. by apply ToInt16_exact. }
    split; [done|]. by apply Hsent.
  - intros inputData i v Hi Hlo Hhi.
    pose proof (scaled_trunc_range v Hlo Hhi) as Hz.
    split; [|done]. rewrite (Hat _ _ _ Hi). cbn [mul_32768 ToInt16]. f_equal.
    destruct (_ <? _)%Z eqn:E; [apply Z.ltb_lt in E|apply Z.ltb_ge in E]; lia_div.
  - intros inputData i Hi.
    assert (int16_of_floats inputData !! i = Some (-32768)%Z) as Hz'.
    { by rewrite (Hat _ _ _ Hi). }
    split; [done|]. by apply Hsent.
  - intros inputData. unfold int16_of_floats. apply length_map.
Qed.

Lemma capture_sample_conversion_witness :
  int16_of_floats capture_frame !! 3%nat = Some 32767%Z
  /\ (exists bytes,
         decode (data (audio_blob capture_frame)) = Ok bytes
         /\ int16_elements bytes !! 1%nat = Some (-16384)%Z)
  /\ int16_of_floats capture_frame !! 2%nat = Some (-3)%Z
  /\ int16_of_floats capture_frame !! 4%nat = Some (-32768)%Z.
Proof.
  split_and!.
  - apply (proj1 capture_sample_conversion capture_frame 3%nat (32767 # 32768)%Q 32767%Z);
      [reflexivity|unfold Qle; cbn; lia|unfold Qlt; cbn; lia|reflexivity].
  - apply (proj1 capture_sample_conversion capture_frame 1%nat (-1 # 2)%Q (-16384)%Z);
      [reflexivity|unfold Qle; cbn; lia|unfold Qlt; cbn; lia|reflexivity].
  - apply (proj1 (proj2 capture_sample_conversion) capture_frame 2%nat (-7 # 65536)%Q);
      [reflexivity|unfold Qle; cbn; lia|unfold Qlt; cbn; lia].
  - apply (proj1 (proj2 (proj2 capture_sample_conversion)) capture_frame 4%nat).
    reflexivity.
Defined.

(** ** C7: cleanup *)

(** C7, counterexample.  After [cleanup] in a session that is capturing and
    playing, the state is Idle, but the capture processor is still
    connected, the microphone stream is still live, the audio contexts are
    still there, and the cursor still stands where the last fragment
    ended: [cleanup] neither stops the capture stream, nor releases a
    device, nor resets the cursor as an interruption does. *)
Lemma cleanup_leaves_capture :
  lifecycle playing = Active
  /\ lifecycle (cleanup playing) = Idle
  /\ capture (cleanup playing)
     = Some {| bufferSize := 4096; numberOfInputChannels := 1;
               numberOfOutputChannels := 1 |}
  /\ microphone (cleanup playing) = true
  /\ audioContexts (cleanup playing) = Some contexts
  /\ ~ (nextStartTime (cleanup playing) == 0)%Q
  /\ nextStartTime (interrupt playing) = 0%Q.
Proof.
  split_and!; try reflexivity. vm_compute. discriminate.
Qed.

(** C7, as amended.  [cleanup], from any state, closes the connection that
    [sessionRef] holds, if any, and forgets it; stops every active playback
    segment and empties the active set; leaves the session Idle and the
    transcript empty.  It leaves the capture stream, the microphone and the
    audio contexts as they are.  It is idempotent: a second [cleanup]
    changes nothing, and neither does [cleanup] in the initial, Idle
    state. *)
Theorem cleanup_idempotent :
  forall {Host},
    (forall (w : World Host),
        let w' := cleanup w in
        trace w' = trace w ++ cleanup_effects w
        /\ sessionRef w' = None
        /\ sources w' = []
        /\ isActive w' = false /\ isConnecting w' = false /\ lifecycle w' = Idle
        /\ transcript w' = EmptyString
        /\ capture w' = capture w
        /\ microphone w' = microphone w
        /\ audioContexts w' = audioContexts w
        /\ cleanup w' = w')
    /\ (forall h : Host, cleanup (initial h) = initial h).
Proof.
  intros Host. split.
  - intros w.
    destruct w as [act con tr [s|] ctxs cur srcs prom mic cap h nxt mts log];
      world_cbv; fold (@app Effect); fold (@map nat Effect SourceStop);
      cbn [map]; rewrite ?app_nil_r, <- ?app_assoc; split_and!; done.
  - done.
Qed.

(** ** C6: failure to open a session *)

(** C6, counterexample.  The microphone is granted, the connection opens
    and then fails.  [startSession] ends in [cleanup] and the state is
    Idle with no session held, but the microphone stream that it acquired
    is still live and the processor that [onopen] connected is still
    connected: nothing stops the one or disconnects the other.  The
    microphone stays live also when the connection fails before it has
    opened. *)
Lemma failed_connection_keeps_microphone :
  let w := failed_open (ConnectionFails true ConnectionError) contexts (initial host0) in
  let w' := failed_open (ConnectionFails false ConnectionError) contexts (initial host0) in
  microphone (initial host0) = false /\ capture (initial host0) = None
  /\ lifecycle w = Idle /\ sessionRef w = None
  /\ microphone w = true
  /\ capture w = Some {| bufferSize := 4096; numberOfInputChannels := 1;
                         numberOfOutputChannels := 1 |}
  /\ lifecycle w' = Idle /\ microphone w' = true /\ capture w' = None.
Proof. repeat split. Qed.

(** C6, as amended.  Any failure to construct the audio contexts, to
    acquire the microphone or to open the connection ends [startSession]
    in [cleanup]: the state is Idle, no session is held, the transcript is
    empty and no playback segment is active.  When the contexts cannot be
    constructed or the microphone is refused (as with a permission
    error), no connection has been attempted, and the microphone stream
    and the capture processor are as they were before the attempt: a
    component that held neither holds neither.  When the connection
    fails, the microphone stream acquired for it stays live, and if the
    connection had opened before it failed, the capture processor that
    [onopen] connected stays connected. *)
Theorem failed_open_idle :
  forall {Host} (w : World Host) (c : Contexts) (f : OpenFailure),
    match f with DevicesFail _ => audioContexts w = None | _ => True end ->
    let w' := failed_open f c w in
    lifecycle w' = Idle /\ sessionRef w' = None
    /\ transcript w' = EmptyString /\ sources w' = []
    /\ match f with
       | DevicesFail e =>
           trace w' = trace w ++ [ConsoleError e] ++ cleanup_effects w
           /\ microphone w' = microphone w /\ capture w' = capture w
           /\ sessionPromise w' = sessionPromise w
           /\ audioContexts w' = None
       | MicrophoneFails e =>
           trace w' = trace w ++ [GetUserMedia; ConsoleError e] ++ cleanup_effects w
           /\ microphone w' = microphone w /\ capture w' = capture w
           /\ sessionPromise w' = sessionPromise w
       | ConnectionFails opened e =>
           trace w' = trace w ++ [GetUserMedia; Connect; ConsoleError e]
                        ++ cleanup_effects w
           /\ microphone w' = true
           /\ capture w'
              = (if opened
                 then Some {| bufferSize := 4096; numberOfInputChannels := 1;
                              numberOfOutputChannels := 1 |}
                 else capture w)
           /\ sessionPromise w' = Rejected e
       end
    /\ (microphone w = false -> capture w = None ->
        match f with
        | ConnectionFails opened _ =>
            microphone w' = true /\ (is_Some (capture w') <-> opened = true)
        | _ => microphone w' = false /\ capture w' = None
        end).
Proof.
  intros Host w c f Hf.
  destruct w as [act con tr [s|] [ctxs|] cur srcs prom mic cap h nxt mts log];
    destruct f as [e|e|[] e]; cbn in Hf; try discriminate;
    unfold failed_open, onopen; world_cbv;
    fold (@app Effect); fold (@map nat Effect SourceStop);
    cbn [map]; rewrite ?app_nil_r, <- ?app_assoc; split_and!; try done;
    intros -> ->; split; try done; split; try done; try (by eexists);
    by intros [? ?].
Qed.

Lemma failed_open_idle_witness :
  lifecycle (failed_open (MicrophoneFails NotAllowedError) contexts (initial host0)) = Idle
  /\ microphone (failed_open (MicrophoneFails NotAllowedError) contexts (initial host0))
     = false
  /\ capture (failed_open (MicrophoneFails NotAllowedError) contexts (initial host0)) = None
  /\ trace (failed_open (MicrophoneFails NotAllowedError) contexts (initial host0))
     = [GetUserMedia; ConsoleError NotAllowedError].
Proof.
  destruct (failed_open_idle (initial host0) contexts (MicrophoneFails NotAllowedError) I)
    as (Hidle & _ & _ & _ & (Htrace & _) & Hheld).
  destruct (Hheld eq_refl eq_refl) as [Hmic Hcap].
  split_and!; [exact Hidle|exact Hmic|exact Hcap|exact Htrace].
Defined.

(** ** Playback, acknowledgements and sequences of deliveries *)




Section Traces.
Context {Host : Type}.
Implicit Types w : World Host.

Lemma playback_app tr1 tr2 : playback (tr1 ++ tr2) = playback tr1 ++ playback tr2.
Proof. apply List.filter_app. Qed.

Lemma acknowledgements_app tr1 tr2 :
  acknowledgements (tr1 ++ tr2) = acknowledgements tr1 ++ acknowledgements tr2.
Proof. apply List.filter_app. Qed.

Lemma started_buffers_app tr1 tr2 :
  started_buffers (tr1 ++ tr2) = started_buffers tr1 ++ started_buffers tr2.
Proof. apply omap_app. Qed.

Lemma reactions_log_filters w fcs :
  playback (reactions_log w fcs) = []
  /\ acknowledgements (reactions_log w fcs)
     = match sessionPromise w with
       | Fulfilled s =>
           map (fun fc => SendToolResponse s (fc_id fc) (fc_name fc) "ok") fcs
       | _ => []
       end
  /\ started_buffers (reactions_log w fcs) = [].
Proof.
  unfold reactions_log, playback, acknowledgements, started_buffers.
  destruct (sessionPromise w); try done.
  - induction fcs as [|fc fcs (IH1 & IH2 & IH3)]; [done|].
    cbn. by rewrite IH2.
  - induction fcs as [|fc fcs (IH1 & IH2 & IH3)]; done.
Qed.

Lemma reactions_log_acks w m :
  acknowledgements (reactions_log w (calls m)) = acks_of w m.
Proof. apply reactions_log_filters. Qed.

Lemma stops_if_filters b srcs :
  playback (stops_if b srcs) = stops_if b srcs
  /\ acknowledgements (stops_if b srcs) = []
  /\ started_buffers (stops_if b srcs) = [].
Proof.
  unfold playback, acknowledgements, started_buffers.
  destruct b; [|done]. cbn [stops_if].
  induction srcs as [|s srcs (IH1 & IH2 & IH3)]; [done|].
  cbn. by rewrite IH1.
Qed.
End Traces.

(** ** Deliveries in general *)

Section General.

Context {Host : Type}.
Variable onCommand : string -> option (gmap string string) -> Host -> result Host.
Implicit Types w : World Host.

(** A call that throws ends the loop: the calls before it are dispatched,
    the calls after it are not. *)
Lemma tool_calls_throws before fc after e w :
  dispatch_returns onCommand before ->
  (forall h, onCommand (fc_name fc) (fc_args fc) h = Throw e) ->
  exists h, tool_calls onCommand (before ++ fc :: after) w
            = (set_host h (thens before w), Some e).
Proof.
  revert w. induction before as [|fc0 before IH]; intros w Hret Hthrow.
  - cbn [app tool_calls]. rewrite Hthrow. exists (host w). by destruct w.
  - cbn [app tool_calls].
    destruct (Hret fc0 (or_introl eq_refl) (host w)) as [h1 ->].
    destruct (IH (sessionPromise_then (ToolResponse fc0) (set_host h1 w))) as [h ->].
    { intros fc' Hin. apply Hret. by right. }
    { done. }
    exists h. f_equal.
    change (thens (fc0 :: before) w)
      with (thens before (sessionPromise_then (ToolResponse fc0) w)).
    rewrite sessionPromise_then_set_host.
    by rewrite thens_set_host, set_host_set_host.
Qed.

End General.

Lemma append_nil_r (s : string) : (s ++ EmptyString)%string = s.
Proof.
  induction s as [|a s IH]; [reflexivity|].
  change (String a (s ++ EmptyString)%string = String a s). by rewrite IH.
Qed.

Lemma append_assoc (s1 s2 s3 : string) :
  ((s1 ++ s2) ++ s3)%string = (s1 ++ (s2 ++ s3))%string.
Proof.
  induction s1 as [|a s1 IH]; [reflexivity|].
  change (String a ((s1 ++ s2) ++ s3)%string = String a (s1 ++ (s2 ++ s3))%string).
  by rewrite IH.
Qed.

Lemma tool_responses_filters s (fcs : list FunctionCall) :
  let acks := map (fun fc => SendToolResponse s (fc_id fc) (fc_name fc) "ok") fcs in
  playback acks = [] /\ frames_sent acks = [] /\ started_ids acks = []
  /\ stopped_ids acks = [] /\ acknowledgements acks = acks.
Proof.
  cbv zeta. unfold playback, frames_sent, started_ids, stopped_ids, acknowledgements.
  induction fcs as [|fc fcs (IH1 & IH2 & IH3 & IH4 & IH5)]; [done|].
  cbn. by rewrite IH5.
Qed.

Lemma reactions_log_frames {Host} (w : World Host) fcs :
  frames_sent (reactions_log w fcs) = [].
Proof.
  unfold reactions_log, frames_sent.
  destruct (sessionPromise w); try done; by induction fcs.
Qed.

Section GeneralDelivery.

Context {Host : Type}.
Variable onCommand : string -> option (gmap string string) -> Host -> result Host.
Implicit Types w : World Host.

(** One delivery from a quiescent world, whatever the message: the handler
    touches neither the lifecycle nor the session, the capture or the
    devices; it starts at most one source, a fresh one, and stops sources
    only in an interruption, which stops every active one. *)
Lemma deliver_general now m w :
  quiescent w ->
  let w' := deliver onCommand now m w in
  quiescent w'
  /\ isActive w' = isActive w /\ isConnecting w' = isConnecting w
  /\ sessionRef w' = sessionRef w /\ audioContexts w' = audioContexts w
  /\ microphone w' = microphone w /\ capture w' = capture w
  /\ (forall s, sessionPromise w = Fulfilled s -> sessionPromise w' = Fulfilled s)
  /\ (turnComplete m = false ->
      transcript w' = (transcript w ++ transcript_piece m)%string)
  /\ exists (started : option AudioBuffer) (intr : bool) (new : list Effect),
       let t := Qmax (nextStartTime w) now in
       let srcs := sources w ++ match started with Some _ => [nextSource w] | None => [] end in
       trace w' = trace w ++ new
       /\ playback new
          = match started with Some b => [SourceStart (nextSource w) b t] | None => [] end
              ++ stops_if intr srcs
       /\ frames_sent new = []
       /\ sources w' = (if intr then [] else srcs)
       /\ nextSource w'
          = match started with Some _ => S (nextSource w) | None => nextSource w end
       /\ (forall b, started = Some b -> audio_outcome m = Scheduled b)
       /\ (intr = true -> interrupted m = true)
       /\ (if intr then nextStartTime w' = 0%Q
           else match started with
                | Some b => nextStartTime w' = (t + duration b)%Q
                | None => nextStartTime w' = nextStartTime w \/ nextStartTime w' = t
                end).
Proof.
  intros Hq. unfold deliver, onmessage.
  destruct w as [act con tr sref ctxs cur srcs prom mic cap h nxt mts log].
  unfold quiescent in Hq. cbn in Hq. subst mts.
  set (w0 := match inputTranscription m with Some _ => _ | None => _ end).
  assert (w0 = @Build_World Host act con (tr ++ transcript_piece m)%string sref ctxs
                 cur srcs prom mic cap h nxt [] log) as Hw0.
  { unfold w0, transcript_piece. destruct (inputTranscription m); [done|].
    by rewrite append_nil_r. }
  rewrite Hw0. clear Hw0 w0. set (tr' := (tr ++ transcript_piece m)%string).
  cbn [isActive isConnecting sessionRef audioContexts microphone capture
       sessionPromise transcript trace nextStartTime sources nextSource].
  assert (exists w1 err reacts acks,
    match toolCall m with
    | Some fcs => tool_calls onCommand fcs
         (@Build_World Host act con tr' sref ctxs cur srcs prom mic cap h nxt [] log)
    | None => (@Build_World Host act con tr' sref ctxs cur srcs prom mic cap h nxt [] log, None)
    end = (w1, err)
    /\ (exists h' prom', w1 = @Build_World Host act con tr' sref ctxs cur srcs prom'
                                mic cap h' nxt reacts log
          /\ forall s, prom = Fulfilled s -> prom' = Fulfilled s)
    /\ (forall w2 : World Host, foldl run_microtask w2 reacts = emit acks w2)
    /\ playback acks = [] /\ frames_sent acks = [])
    as (w1 & err & reacts & acks & -> & (h' & prom' & -> & Hprom) & Hreacts & Hpb & Hfs).
  { destruct (toolCall m) as [fcs|].
    - rewrite tool_calls_loop. cbn [host].
      destruct (thens_spec (returned_calls onCommand fcs h)
        (@Build_World Host act con tr' sref ctxs cur srcs prom mic cap h nxt [] log))
        as (prom' & reacts & -> & Hprom & Hreacts).
      eexists _, _, reacts, _. split; [reflexivity|]. split; [by eexists _, _|].
      split; [exact Hreacts|]. split; [apply reactions_log_filters|].
      apply reactions_log_frames.
    - eexists _, None, [], []. split; [done|]. split; [by eexists _, _|].
      split; [|done]. intros. by rewrite emit_nil. }
  assert (forall l : list nat, playback (map SourceStop l) = map SourceStop l) as Hstops.
  { intros l. apply (stops_if_filters true l). }
  assert (forall l : list nat, frames_sent (map SourceStop l) = []) as Hfstops.
  { intros l. unfold frames_sent. by induction l. }
  assert (forall l1 l2, frames_sent (l1 ++ l2) = frames_sent l1 ++ frames_sent l2) as Hfapp.
  { intros. apply omap_app. }
  pose proof (Q.le_max_l cur now) as Hmax.
  destruct err as [e|].
  { (* a call has thrown *)
    unfold checkpoint, rejected, quiescent. cbn. rewrite Hreacts. cbn.
    rewrite <- ?app_assoc.
    split_and!; try done.
    exists None, false, ([Uncaught e] ++ acks). cbn.
    rewrite app_nil_r. split_and!; try done; auto. }
  unfold onmessage_audio, audio_outcome. cbn [audioContexts base64Audio].
  destruct (base64Audio m) as [b64|]; [case_bool_decide|].
  - unfold checkpoint, onmessage_end, interrupt, quiescent.
    destruct (interrupted m) eqn:Hint, (turnComplete m) eqn:Hturn;
      cbn; rewrite Hreacts; cbn; rewrite <- ?app_assoc;
      (split_and!; try done).
    + exists None, true, (map SourceStop srcs ++ acks).
      cbn. rewrite !app_nil_r, playback_app, Hfapp, Hfstops, Hpb, app_nil_r, Hstops.
      split_and!; try done.
    + exists None, true, (map SourceStop srcs ++ acks).
      cbn. rewrite !app_nil_r, playback_app, Hfapp, Hfstops, Hpb, app_nil_r, Hstops.
      split_and!; try done.
    + exists None, false, acks. cbn. rewrite !app_nil_r. split_and!; auto; done.
    + exists None, false, acks. cbn. rewrite !app_nil_r. split_and!; auto; done.
  - destruct ctxs as [c|].
    2:{ unfold checkpoint, rejected, quiescent. cbn. rewrite Hreacts. cbn.
        rewrite <- ?app_assoc. split_and!; try done.
        exists None, false, ([Uncaught TypeError] ++ acks). cbn.
        rewrite app_nil_r. split_and!; try done; auto. }
    cbn [nextStartTime currentTime].
    destruct (decode b64) as [bytes|e].
    + rewrite (decodeAudioData_ctx bytes {| currentTime := now |}
                                         {| currentTime := 0 |}).
      destruct (decodeAudioData bytes _ 24000 1) as [buffer|e];
        unfold checkpoint, quiescent; cbn; rewrite foldl_app, Hreacts; cbn.
      * unfold onmessage_end, interrupt.
        destruct (interrupted m) eqn:Hint, (turnComplete m) eqn:Hturn; cbn;
          rewrite <- ?app_assoc; cbn; (split_and!; try done).
        -- exists (Some buffer), true,
             (acks ++ SourceStart nxt buffer (Qmax cur now) :: map SourceStop (srcs ++ [nxt])).
           cbn. rewrite playback_app, Hfapp, Hpb, Hfs. cbn. rewrite Hstops, Hfstops.
           split_and!; try done. by intros ? [= ->].
        -- exists (Some buffer), true,
             (acks ++ SourceStart nxt buffer (Qmax cur now) :: map SourceStop (srcs ++ [nxt])).
           cbn. rewrite playback_app, Hfapp, Hpb, Hfs. cbn. rewrite Hstops, Hfstops.
           split_and!; try done. by intros ? [= ->].
        -- exists (Some buffer), false, (acks ++ [SourceStart nxt buffer (Qmax cur now)]).
           cbn. rewrite playback_app, Hfapp, Hpb, Hfs. cbn.
           split_and!; try done. by intros ? [= ->].
        -- exists (Some buffer), false, (acks ++ [SourceStart nxt buffer (Qmax cur now)]).
           cbn. rewrite playback_app, Hfapp, Hpb, Hfs. cbn.
           split_and!; try done. by intros ? [= ->].
      * rewrite <- ?app_assoc. split_and!; try done.
        exists None, false, (acks ++ [Uncaught e]). cbn.
        rewrite playback_app, Hfapp, Hpb, Hfs, app_nil_r. cbn.
        split_and!; try done; auto. by rewrite app_nil_r.
    + unfold checkpoint, quiescent; cbn. rewrite Hreacts. cbn.
      rewrite <- ?app_assoc; split_and!; try done.
      exists None, false, ([Uncaught e] ++ acks). cbn.
      rewrite app_nil_r. split_and!; try done; auto.
  - unfold checkpoint, onmessage_end, interrupt, quiescent.
    destruct (interrupted m) eqn:Hint, (turnComplete m) eqn:Hturn;
      cbn; rewrite Hreacts; cbn; rewrite <- ?app_assoc;
      (split_and!; try done).
    + exists None, true, (map SourceStop srcs ++ acks).
      cbn. rewrite !app_nil_r, playback_app, Hfapp, Hfstops, Hpb, app_nil_r, Hstops.
      split_and!; try done.
    + exists None, true, (map SourceStop srcs ++ acks).
      cbn. rewrite !app_nil_r, playback_app, Hfapp, Hfstops, Hpb, app_nil_r, Hstops.
      split_and!; try done.
    + exists None, false, acks. cbn. rewrite !app_nil_r. split_and!; auto; done.
    + exists None, false, acks. cbn. rewrite !app_nil_r. split_and!; auto; done.
Qed.

(** The acknowledgements of one delivery, whatever the message and
    whatever the callback does: the reactions of the calls that the loop
    got through, and of no other, have run. *)
Lemma deliver_acknowledged now m w :
  quiescent w ->
  let w' := deliver onCommand now m w in
  acknowledgements (trace w')
  = acknowledgements (trace w)
      ++ acknowledgements
           (reactions_log w (returned_calls onCommand (calls m) (host w)))
  /\ host w' = host_after onCommand (calls m) (host w).
Proof.
  intros Hq. cbv zeta.
  remember (reactions_log w (returned_calls onCommand (calls m) (host w))) as acks
    eqn:Hacks.
  unfold deliver, onmessage.
  destruct w as [act con tr sref ctxs cur srcs prom mic cap h nxt mts log].
  unfold quiescent in Hq. cbn in Hq. subst mts.
  cbn [host trace] in *.
  set (w0 := match inputTranscription m with Some _ => _ | None => _ end).
  assert (exists tr', w0 = @Build_World Host act con tr' sref ctxs cur srcs prom
                             mic cap h nxt [] log) as [tr' Hw0].
  { unfold w0. destruct (inputTranscription m); eexists; reflexivity. }
  rewrite Hw0. clear Hw0 w0.
  assert (exists w1 reacts,
    match toolCall m with
    | Some fcs => tool_calls onCommand fcs
         (@Build_World Host act con tr' sref ctxs cur srcs prom mic cap h nxt [] log)
    | None => (@Build_World Host act con tr' sref ctxs cur srcs prom mic cap h nxt [] log, None)
    end = (w1, thrown onCommand (calls m) h)
    /\ (exists prom', w1 = @Build_World Host act con tr' sref ctxs cur srcs prom'
                                mic cap (host_after onCommand (calls m) h) nxt reacts log)
    /\ (forall w2 : World Host, foldl run_microtask w2 reacts = emit acks w2))
    as (w1 & reacts & -> & (prom' & ->) & Hreacts).
  { subst acks. unfold calls. destruct (toolCall m) as [fcs|]; cbn [default id].
    - rewrite tool_calls_loop. cbn [host].
      destruct (thens_spec (returned_calls onCommand fcs h)
        (@Build_World Host act con tr' sref ctxs cur srcs prom mic cap h nxt [] log))
        as (prom' & reacts & -> & _ & Hreacts).
      eexists _, reacts. split; [reflexivity|]. split; [by eexists|].
      exact Hreacts.
    - eexists _, []. split; [done|]. split; [by eexists|].
      intros. unfold reactions_log. cbn. destruct prom; by rewrite emit_nil. }
  clear Hacks.
  assert (forall l : list nat, acknowledgements (map SourceStop l) = []) as Hstops.
  { intros l. apply (stops_if_filters true l). }
  destruct (thrown onCommand (calls m) h) as [e|].
  { unfold checkpoint, rejected. cbn. rewrite Hreacts. cbn.
    by rewrite <- app_assoc, !acknowledgements_app. }
  unfold onmessage_audio. cbn [audioContexts base64Audio].
  destruct (base64Audio m) as [b64|]; [case_bool_decide|].
  - unfold checkpoint, onmessage_end, interrupt.
    destruct (interrupted m), (turnComplete m); cbn; rewrite Hreacts; cbn;
      rewrite <- ?app_assoc, !acknowledgements_app, ?Hstops; done.
  - destruct ctxs as [c|].
    2:{ unfold checkpoint, rejected. cbn. rewrite Hreacts. cbn.
        by rewrite <- app_assoc, !acknowledgements_app. }
    cbn [nextStartTime currentTime].
    destruct (decode b64) as [bytes|e].
    + destruct (decodeAudioData bytes _ 24000 1) as [buffer|e];
        unfold checkpoint; cbn; rewrite foldl_app, Hreacts; cbn.
      * unfold onmessage_end, interrupt.
        destruct (interrupted m), (turnComplete m); cbn;
          rewrite <- ?app_assoc, !acknowledgements_app; cbn;
          rewrite ?Hstops, ?app_nil_r; done.
      * rewrite <- ?app_assoc, !acknowledgements_app. cbn. by rewrite app_nil_r.
    + unfold checkpoint; cbn. rewrite Hreacts. cbn.
      by rewrite <- app_assoc, !acknowledgements_app.
  - unfold checkpoint, onmessage_end, interrupt.
    destruct (interrupted m), (turnComplete m); cbn; rewrite Hreacts; cbn;
      rewrite <- ?app_assoc, !acknowledgements_app, ?Hstops; done.
Qed.

End GeneralDelivery.


(** ** C1: scheduling *)





(** ** C2: interruption *)



(** ** C3: acknowledgement of tool calls *)

(** C3, counterexample.  The session is up and a message brings two tool
    invocations, the first a [navigateTo] without an argument object.  The
    host callback reads [args.section] and throws; the exception leaves the
    loop, and neither invocation is acknowledged. *)
Lemma malformed_call_unacknowledged :
  active_session 1 session_up
  /\ length (calls malformed_call) = 2%nat
  /\ acknowledgements (trace (deliver App.onCommand 0 malformed_call session_up)) = []
  /\ trace (deliver App.onCommand 0 malformed_call session_up)
     = trace session_up ++ [Uncaught TypeError].
Proof.
  split_and!; [|done|by vm_compute..].
  unfold active_session, quiescent. split_and!; try by vm_compute.
  by exists contexts.
Qed.

Lemma App_onCommand_unrecognized cmd args st :
  cmd <> "navigateTo" -> cmd <> "toggleTheme" -> cmd <> "openAdmin" ->
  App.onCommand cmd args st = Ok st.
Proof.
  intros H1 H2 H3. unfold App.onCommand.
  rewrite !bool_decide_eq_false_2 by done. done.
Qed.

Lemma App_onCommand_returns cmd args st :
  (cmd = "navigateTo" -> is_Some args) -> is_ok (App.onCommand cmd args st) = true.
Proof.
  intros Hargs. unfold App.onCommand.
  case_bool_decide as Hnav; [|done].
  destruct (Hargs Hnav) as [a ->]. done.
Qed.

Lemma App_onCommand_throws cmd args st :
  is_ok (App.onCommand cmd args st) = false <-> cmd = "navigateTo" /\ args = None.
Proof.
  unfold App.onCommand. case_bool_decide as Hnav.
  - destruct args as [a|]; cbn; [|done]. split; [done|]. by intros [_ ?].
  - cbn. split; [done|]. by intros [? _].
Qed.

Lemma returned_calls_prefix {Host}
    (onCommand : string -> option (gmap string string) -> Host -> result Host)
    before fc after (h : Host) e :
  returned_calls onCommand before h = before ->
  onCommand (fc_name fc) (fc_args fc) (host_after onCommand before h) = Throw e ->
  returned_calls onCommand (before ++ fc :: after) h = before.
Proof.
  revert h. induction before as [|fc0 before IH]; intros h Hret Hthrow.
  - cbn in *. by rewrite Hthrow.
  - cbn [app returned_calls host_after] in *.
    destruct (onCommand (fc_name fc0) (fc_args fc0) h) as [h1|]; [|done].
    injection Hret as Hret. by rewrite IH.
Qed.

Lemma session_up_active : active_session 1 session_up.
Proof.
  unfold active_session, quiescent. split_and!; try by vm_compute.
  by exists contexts.
Qed.

(** C3, as amended.  Every tool invocation received while the session is
    up, up to the first invocation of its message on which the host
    callback throws, produces exactly one acknowledgement on that session,
    with the identifier and name of the invocation and the response
    ["ok"], in the order of the invocations and whatever becomes of the
    rest of the message; the invocation on which the callback throws and
    the ones after it in the message produce none.  So every invocation
    of a message is acknowledged when the callback returns from all of
    them.  The callback of [App] returns for every unrecognized command
    name, which it ignores; it throws on a [navigateTo] that lacks its
    argument object and on nothing else. *)
Theorem tool_calls_acknowledged :
  (forall {Host} (onCommand : string -> option (gmap string string) -> Host -> result Host)
          now m (w : World Host) s,
      active_session s w ->
      acknowledgements (trace (deliver onCommand now m w))
      = acknowledgements (trace w)
          ++ map (fun fc => SendToolResponse s (fc_id fc) (fc_name fc) "ok")
                 (returned_calls onCommand (calls m) (host w)))
  /\ (forall {Host} (onCommand : string -> option (gmap string string) -> Host -> result Host)
             fcs (h : Host),
        dispatch_returns onCommand fcs -> returned_calls onCommand fcs h = fcs)
  /\ (forall {Host} (onCommand : string -> option (gmap string string) -> Host -> result Host)
             before fc after (h : Host) e,
        returned_calls onCommand before h = before ->
        onCommand (fc_name fc) (fc_args fc) (host_after onCommand before h) = Throw e ->
        returned_calls onCommand (before ++ fc :: after) h = before)
  /\ (forall cmd args st,
        cmd <> "navigateTo" -> cmd <> "toggleTheme" -> cmd <> "openAdmin" ->
        App.onCommand cmd args st = Ok st)
  /\ (forall cmd args st,
        is_ok (App.onCommand cmd args st) = false
        <-> cmd = "navigateTo" /\ args = None)
  /\ (forall fcs,
        (forall fc, In fc fcs -> fc_name fc = "navigateTo" -> is_Some (fc_args fc)) ->
        dispatch_returns App.onCommand fcs).
Proof.
  split_and!.
  - intros Host onCommand now m w s (_ & _ & Hs & _ & Hq).
    destruct (deliver_acknowledged onCommand now m w Hq) as [-> _].
    f_equal. rewrite (proj1 (proj2 (reactions_log_filters _ _))). by rewrite Hs.
  - intros Host onCommand fcs h Hret. by apply returned_calls_all.
  - intros Host onCommand before fc after h e. apply returned_calls_prefix.
  - apply App_onCommand_unrecognized.
  - apply App_onCommand_throws.
  - intros fcs Hargs fc Hin h.
    pose proof (App_onCommand_returns (fc_name fc) (fc_args fc) h (Hargs fc Hin)) as Hok.
    destruct (App.onCommand _ _ h) as [h'|]; [by exists h'|done].
Qed.

Lemma tool_calls_acknowledged_witness :
  acknowledgements (trace (deliver App.onCommand 0 throwing_call session_up))
  = acknowledgements (trace session_up)
      ++ [SendToolResponse 1 "call-1" "toggleTheme" "ok"]
  /\ acknowledgements (trace (deliver App.onCommand 0 two_calls session_up))
     = acknowledgements (trace session_up)
         ++ [SendToolResponse 1 "call-1" "toggleTheme" "ok";
             SendToolResponse 1 "call-2" "selfDestruct" "ok"].
Proof.
  split.
  - apply (proj1 tool_calls_acknowledged App.State App.onCommand 0%Q throwing_call
             session_up 1%nat).
    apply session_up_active.
  - apply (proj1 tool_calls_acknowledged App.State App.onCommand 0%Q two_calls
             session_up 1%nat).
    apply session_up_active.
Defined.

(** ** C8: order of scheduling *)

Section Deliveries.
Context {Host : Type}.
Variable onCommand : string -> option (gmap string string) -> Host -> result Host.
Implicit Types w : World Host.

Lemma deliver_all_app ms1 ms2 w :
  deliver_all onCommand (ms1 ++ ms2) w
  = deliver_all onCommand ms2 (deliver_all onCommand ms1 w).
Proof. apply foldl_app. Qed.

End Deliveries.

(** *** Interleavings of handlers *)

Section StepFacts.
Context {Host : Type}.
Variable onCommand : string -> option (gmap string string) -> Host -> result Host.
Implicit Types w : World Host.

Lemma steps_app ss1 ss2 w :
  steps onCommand (ss1 ++ ss2) w = steps onCommand ss2 (steps onCommand ss1 w).
Proof. apply foldl_app. Qed.

Lemma queued_buffers_app ts1 ts2 :
  queued_buffers (ts1 ++ ts2) = queued_buffers ts1 ++ queued_buffers ts2.
Proof. apply omap_app. Qed.

Lemma arrivals_app ss1 ss2 : arrivals (ss1 ++ ss2) = arrivals ss1 ++ arrivals ss2.
Proof. apply omap_app. Qed.

Lemma arrivals_jobs n : arrivals (replicate n Job) = [].
Proof. by induction n. Qed.

Lemma arrivals_arrive ms : arrivals (map arrive ms) = ms.
Proof.
  unfold arrivals. induction ms as [|[now m] ms IH]; [done|]. cbn. by rewrite IH.
Qed.

(** The registrations of a message put no handler in flight. *)
Lemma thens_shape fcs w :
  exists prom' reacts,
    thens fcs w = set_microtasks (microtasks w ++ reacts) (set_sessionPromise prom' w)
    /\ Forall (fun t => match t with Resume _ _ => False | _ => True end) reacts.
Proof.
  destruct (sessionPromise w) as [|rs|s|e] eqn:Hs.
  - exists NoPromise, []. rewrite thens_NoPromise by done. split; [|done].
    destruct w. cbn in *. subst. unfold set_microtasks, set_sessionPromise. cbn.
    by rewrite app_nil_r.
  - exists (Pending (rs ++ map ToolResponse fcs)), [].
    rewrite (thens_Pending rs) by done. split; [|done].
    destruct w. unfold set_microtasks, set_sessionPromise. cbn. by rewrite app_nil_r.
  - exists (Fulfilled s), (map (fun fc => React s (ToolResponse fc)) fcs).
    rewrite (thens_Fulfilled s) by done. split.
    + destruct w. cbn in *. by subst.
    + apply Forall_forall. intros t Ht.
      apply list_elem_of_In, in_map_iff in Ht as (fc & <- & _). done.
  - exists (Rejected e), (map (fun _ => Unhandled e) fcs).
    rewrite (thens_Rejected e) by done. split.
    + destruct w. cbn in *. by subst.
    + apply Forall_forall. intros t Ht.
      apply list_elem_of_In, in_map_iff in Ht as (fc & <- & _). done.
Qed.

Lemma no_resume_queued reacts :
  Forall (fun t => match t with Resume _ _ => False | _ => True end) reacts ->
  queued_buffers reacts = []
  /\ forall m : LiveServerMessage,
       Forall (fun t => match t with Resume _ m' => m' = m | _ => True end) reacts.
Proof.
  induction 1 as [|t ts Ht _ [IH1 IH2]]; [done|].
  destruct t as [s r|e|d m']; try done; cbn; split; try done;
    intros m; constructor; auto.
Qed.

Lemma tool_calls_of_message m w :
  match toolCall m with
  | Some fcs => tool_calls onCommand fcs w
  | None => (w, None)
  end
  = (set_host (host_after onCommand (calls m) (host w))
       (thens (returned_calls onCommand (calls m) (host w)) w),
     thrown onCommand (calls m) (host w)).
Proof.
  unfold calls. destruct (toolCall m) as [fcs|]; cbn [default].
  - apply tool_calls_loop.
  - by destruct w.
Qed.

(** What a call of [onmessage] does up to its [await]: it starts nothing;
    it puts its fragment in flight, if it gets to one; it applies an
    interruption only if it runs to its end, which it does when the
    message has no audio and no tool call throws. *)
Lemma onmessage_arrival now m w :
  is_Some (audioContexts w) ->
  let w' := onmessage onCommand now m w in
  exists new log,
    microtasks w' = microtasks w ++ new
    /\ trace w' = trace w ++ log
    /\ queued_buffers new = option_list (fragment onCommand m (host w))
    /\ Forall (fun t => match t with Resume _ m' => m' = m | _ => True end) new
    /\ started_buffers log = []
    /\ host w' = host_after onCommand (calls m) (host w)
    /\ audioContexts w' = audioContexts w
    /\ nextSource w' = nextSource w
    /\ (interrupted m = false -> playback log = [] /\ sources w' = sources w)
    /\ (interrupted m = true -> base64Audio m = None ->
        thrown onCommand (calls m) (host w) = None ->
        log = map SourceStop (sources w) /\ sources w' = []
        /\ nextStartTime w' = 0%Q).
Proof.
  intros [c Hc]. unfold onmessage. rewrite tool_calls_of_message.
  destruct w as [act con tr sref ctxs cur srcs prom mic cap h nxt mts log].
  cbn in Hc. subst ctxs.
  set (w0 := match inputTranscription m with Some _ => _ | None => _ end).
  assert (exists tr', w0 = @Build_World Host act con tr' sref (Some c) cur srcs prom
                             mic cap h nxt mts log) as [tr' Hw0].
  { unfold w0. destruct (inputTranscription m); eexists; reflexivity. }
  rewrite Hw0. clear Hw0 w0. cbn [host microtasks trace audioContexts nextSource sources].
  destruct (thens_shape (returned_calls onCommand (calls m) h)
              (@Build_World Host act con tr' sref (Some c) cur srcs prom mic cap h nxt mts log))
    as (prom' & reacts & -> & Hreacts).
  destruct (no_resume_queued reacts Hreacts) as [Hq Hm]. specialize (Hm m).
  unfold fragment.
  destruct (thrown onCommand (calls m) h) as [e|] eqn:Hthrown.
  { exists reacts, [Uncaught e]. cbn. split_and!; try done. }
  unfold onmessage_audio, audio_outcome. cbn [audioContexts base64Audio].
  assert (forall b : bool, started_buffers (stops_if b srcs) = []) as Hst.
  { intros b. apply stops_if_filters. }
  assert (forall l : list nat, playback (map SourceStop l) = map SourceStop l) as Hpb.
  { intros l. apply (stops_if_filters true l). }
  assert (forall tc : bool,
    let w' := onmessage_end m
                (@Build_World Host act con tr' sref (Some c) cur srcs prom' mic cap
                   (host_after onCommand (calls m) h) nxt (mts ++ reacts) log) in
    microtasks w' = mts ++ reacts
    /\ trace w' = log ++ stops_if (interrupted m) srcs
    /\ host w' = host_after onCommand (calls m) h
    /\ audioContexts w' = Some c /\ nextSource w' = nxt
    /\ (interrupted m = false -> sources w' = srcs)
    /\ (interrupted m = true -> sources w' = [] /\ nextStartTime w' = 0%Q)) as Hend.
  { intros _. unfold onmessage_end, interrupt.
    destruct (interrupted m), (turnComplete m); cbn; rewrite ?app_nil_r;
      split_and!; done. }
  specialize (Hend true). cbv zeta in Hend.
  destruct (base64Audio m) as [b64|]; [case_bool_decide|].
  - destruct Hend as (H1 & H2 & H3 & H4 & H5 & H6 & H7).
    exists reacts, (stops_if (interrupted m) srcs).
    split_and!; try done.
    + intros Hi. rewrite Hi. split; [done|by apply H6].
  - clear Hend. cbn [nextStartTime currentTime].
    destruct (decode b64) as [bytes|e].
    + rewrite (decodeAudioData_ctx bytes {| currentTime := now |}
                                         {| currentTime := 0 |}).
      exists (reacts ++ [Resume (decodeAudioData bytes {| currentTime := 0 |} 24000 1) m]), [].
      cbn. rewrite queued_buffers_app, Hq, app_nil_r, app_assoc.
      split_and!; try done.
      * by destruct (decodeAudioData bytes _ 24000 1).
      * apply Forall_app. split; [done|]. by constructor.
    + exists reacts, [Uncaught e]. cbn. split_and!; try done.
  - destruct Hend as (H1 & H2 & H3 & H4 & H5 & H6 & H7).
    exists reacts, (stops_if (interrupted m) srcs).
    split_and!; try done.
    + intros Hi. rewrite Hi. split; [done|by apply H6].
    + intros Hi _ _. rewrite Hi. split; [done|by apply H7].
Qed.

(** The oldest job runs: a handler that resumes starts its buffer now;
    other jobs start nothing. *)
Lemma job_runs t ts w :
  microtasks w = t :: ts ->
  let w' := step onCommand w Job in
  microtasks w' = ts
  /\ host w' = host w /\ audioContexts w' = audioContexts w
  /\ exists log,
       trace w' = trace w ++ log
       /\ started_buffers log = queued_buffers [t].
Proof.
  intros Hts. unfold step. rewrite Hts.
  destruct w as [act con tr sref ctxs cur srcs prom mic cap h nxt mts log].
  cbn in Hts. subst mts.
  destruct t as [s [fc|media]|e|[b|e] m]; cbn.
  - split_and!; try done. by eexists.
  - split_and!; try done. by eexists.
  - split_and!; try done. by eexists.
  - unfold onmessage_resume, onmessage_end, interrupt.
    destruct (interrupted m), (turnComplete m); cbn; split_and!; try done;
      eexists; rewrite <- ?app_assoc; (split; [reflexivity|]);
      rewrite ?app_nil_r; cbn; f_equal;
      apply (stops_if_filters true).
  - split_and!; try done. by eexists.
Qed.

(** Fragments are started in the order in which their messages arrive,
    however the calls of [onmessage] and the jobs interleave: what has
    been started, followed by what is in flight, is what had been started,
    what was in flight, and the fragments of the arrivals. *)
Lemma steps_in_order ss w :
  is_Some (audioContexts w) ->
  let w' := steps onCommand ss w in
  started_buffers (trace w') ++ queued_buffers (microtasks w')
  = (started_buffers (trace w) ++ queued_buffers (microtasks w))
      ++ fragments onCommand (arrivals ss) (host w).
Proof.
  revert w. induction ss as [|s ss IH]; intros w Hc; cbv zeta.
  { cbn. by rewrite app_nil_r. }
  cbn [steps foldl]. fold (steps onCommand ss (step onCommand w s)).
  destruct s as [now m|].
  - destruct (onmessage_arrival now m w Hc)
      as (new & log & Hmts & Htr & Hnew & _ & Hlog & Hhost & Hctx & _).
    cbv zeta in *.
    rewrite IH by (cbn [step]; by rewrite Hctx).
    cbn [step arrivals omap fragments snd]. fold (arrivals ss).
    rewrite Hmts, Htr, Hhost, started_buffers_app, Hlog, queued_buffers_app, Hnew.
    by rewrite app_nil_r, <- !app_assoc.
  - change (arrivals (Job :: ss)) with (arrivals ss).
    destruct (microtasks w) as [|t ts] eqn:Hts.
    { assert (step onCommand w Job = w) as -> by (unfold step; by rewrite Hts).
      rewrite IH by done. by rewrite Hts. }
    destruct (job_runs t ts w Hts) as (Hmts & Hhost & Hctx & log & Htr & Hlog).
    cbv zeta in *. rewrite IH by (by rewrite Hctx).
    rewrite Hmts, Htr, Hhost, started_buffers_app, Hlog.
    change (t :: ts) with ([t] ++ ts). rewrite queued_buffers_app.
    by rewrite <- !app_assoc.
Qed.

(** Running a job neither reads nor writes the queue. *)
Lemma run_microtask_queue q t w :
  run_microtask (set_microtasks q w) t = set_microtasks q (run_microtask w t).
Proof.
  destruct w, t as [s [fc|media]|e|[b|e] m]; try done.
  unfold run_microtask, onmessage_resume, onmessage_end, interrupt; cbn.
  by destruct (interrupted m), (turnComplete m).
Qed.

(** The checkpoint at the end of a task runs the jobs one by one. *)
Lemma checkpoint_jobs w :
  checkpoint w = steps onCommand (replicate (length (microtasks w)) Job) w.
Proof.
  unfold checkpoint. remember (microtasks w) as ts eqn:Hts. revert w Hts.
  induction ts as [|t ts IH]; intros w Hts.
  - cbn. destruct w; cbn in *; by subst.
  - cbn [length replicate steps foldl].
    fold (steps onCommand (replicate (length ts) Job) (step onCommand w Job)).
    assert (step onCommand w Job = run_microtask (set_microtasks ts w) t) as ->.
    { unfold step. by rewrite <- Hts. }
    rewrite <- IH.
    + f_equal. rewrite !run_microtask_queue. by destruct (run_microtask w t).
    + rewrite run_microtask_queue. by destruct (run_microtask w t).
Qed.

Lemma deliver_steps now m w :
  deliver onCommand now m w
  = steps onCommand
      (Arrival now m
         :: replicate (length (microtasks (onmessage onCommand now m w))) Job) w.
Proof. unfold deliver. by rewrite checkpoint_jobs. Qed.

(** Messages handled each in a task of its own are one of the
    interleavings. *)
Lemma deliver_all_steps ms w :
  exists ss, arrivals ss = ms /\ deliver_all onCommand ms w = steps onCommand ss w.
Proof.
  revert w. induction ms as [|[now m] ms IH]; intros w.
  - by exists [].
  - destruct (IH (deliver onCommand now m w)) as (ss & Hss & Hrun).
    exists ((Arrival now m
               :: replicate (length (microtasks (onmessage onCommand now m w))) Job) ++ ss).
    split.
    + rewrite arrivals_app. change (arrivals (Arrival now m :: ?l)) with ((now, m) :: arrivals l).
      by rewrite arrivals_jobs, Hss.
    + rewrite steps_app, <- deliver_steps. exact Hrun.
Qed.

Lemma deliver_all_general ms w :
  quiescent w ->
  let w' := deliver_all onCommand ms w in
  quiescent w' /\ audioContexts w' = audioContexts w
  /\ exists later, trace w' = trace w ++ later.
Proof.
  revert w. induction ms as [|[now m] ms IH]; intros w Hq; cbv zeta.
  - split_and!; [done..|]. exists []. by rewrite app_nil_r.
  - destruct (deliver_general onCommand now m w Hq)
      as (Hq1 & _ & _ & _ & Hc1 & _ & _ & _ & _ & _ & _ & new & Hnew & _).
    cbv zeta in *.
    destruct (IH (deliver onCommand now m w) Hq1) as (Hq2 & Hc2 & later & Hlater).
    cbn [deliver_all foldl fst snd].
    change (foldl _ ?w0 ms) with (deliver_all onCommand ms w0).
    split_and!; [done| |].
    + by rewrite Hc2.
    + exists (new ++ later). by rewrite Hlater, Hnew, app_assoc.
Qed.

(** Handled each in a task of its own, the fragments are started in the
    order of arrival and nothing is left in flight. *)
Lemma deliver_all_in_order ms w :
  quiescent w -> is_Some (audioContexts w) ->
  let w' := deliver_all onCommand ms w in
  quiescent w'
  /\ started_buffers (trace w')
     = started_buffers (trace w) ++ fragments onCommand ms (host w).
Proof.
  intros Hq Hc. cbv zeta.
  destruct (deliver_all_general ms w Hq) as (Hq' & _ & _). split; [done|].
  destruct (deliver_all_steps ms w) as (ss & Hss & Hrun).
  pose proof (steps_in_order ss w Hc) as H. cbv zeta in H.
  rewrite <- Hrun, Hss in H. unfold quiescent in Hq, Hq'.
  cbv zeta in Hq'. rewrite Hq, Hq' in H. cbn in H. by rewrite !app_nil_r in H.
Qed.

(** A handler that is left before it gets to the interrupted signal,
    because [onCommand] throws or the audio does not decode, stops
    nothing. *)
Lemma deliver_left_early now m w :
  quiescent w -> is_Some (audioContexts w) ->
  thrown onCommand (calls m) (host w) <> None \/ (exists e, audio_outcome m = Dropped e) ->
  let w' := deliver onCommand now m w in
  quiescent w' /\ playback (trace w') = playback (trace w)
  /\ sources w' = sources w.
Proof.
  intros Hq [c Hc] Hearly. cbv zeta.
  destruct (thrown onCommand (calls m) (host w)) as [e|] eqn:Hthrown.
  - clear Hearly. unfold deliver, onmessage.
    set (w0 := match inputTranscription m with Some _ => _ | None => _ end).
    assert (microtasks w0 = [] /\ trace w0 = trace w /\ sources w0 = sources w
            /\ host w0 = host w) as (Hq0 & Htr0 & Hsrc0 & Hh0).
    { unfold w0, quiescent in *. by destruct (inputTranscription m), w. }
    rewrite tool_calls_of_message, Hh0, Hthrown.
    destruct (thens_spec (returned_calls onCommand (calls m) (host w)) w0)
      as (prom' & reacts & -> & _ & Hreacts).
    pose proof (reactions_log_filters w0 (returned_calls onCommand (calls m) (host w)))
      as (Hpb & _ & _).
    clear Hh0. unfold checkpoint, rejected.
    destruct w0 as [act con tr sref ctxs cur srcs prom mic cap h nxt mts log].
    cbn in Hq0, Htr0, Hsrc0. subst mts log srcs. cbn. rewrite Hreacts.
    unfold quiescent. cbn. split_and!; try done.
    rewrite !playback_app, Hpb. cbn. by rewrite !app_nil_r.
  - destruct Hearly as [?|[e He]]; [done|].
    destruct (deliver_spec_at onCommand now m w c Hq Hc Hthrown) as (Hq' & _ & _ & H).
    cbv zeta in H. rewrite He in H.
    destruct H as ((before & after & Htr & Hba) & _ & Hsrc & _).
    pose proof (reactions_log_filters w (calls m)) as (Hpb & _ & _).
    rewrite <- Hba, playback_app in Hpb. apply app_eq_nil in Hpb as [Hpb1 Hpb2].
    split_and!; [done| |done].
    rewrite Htr, !playback_app, Hpb1, Hpb2. cbn. by rewrite app_nil_r.
Qed.

Lemma calm_no_buffers ts : queued_buffers ts = [] -> calm ts.
Proof.
  unfold calm. induction ts as [|t ts IH]; [done|].
  destruct t as [s r|e|[b|e] m]; cbn; try done; intros H; constructor; auto.
Qed.

(** The handlers in flight resume with no interruption to apply: their
    buffers are started end to end from the cursor and stay active. *)
Lemma drain_calm ts w :
  calm ts ->
  let w' := foldl run_microtask w ts in
  playback (trace w')
  = playback (trace w)
      ++ gapless_starts (nextSource w) (nextStartTime w) (queued_buffers ts)
  /\ sources w' = sources w ++ seq (nextSource w) (length (queued_buffers ts))
  /\ microtasks w' = microtasks w.
Proof.
  revert w. induction ts as [|t ts IH]; intros w Hcalm; cbv zeta.
  { cbn. by rewrite !app_nil_r. }
  apply Forall_cons in Hcalm as [Ht Hts]. cbn [foldl].
  destruct (IH (run_microtask w t) Hts) as (IH1 & IH2 & IH3). cbv zeta in *.
  rewrite IH1, IH2, IH3. clear IH IH1 IH2 IH3.
  destruct w as [act con tr sref ctxs cur srcs prom mic cap h nxt mts log].
  destruct t as [s [fc|media]|e|[b|e] m]; cbn;
    rewrite ?playback_app; cbn; rewrite ?app_nil_r; try done.
  unfold onmessage_resume, onmessage_end. rewrite Ht.
  destruct (turnComplete m); cbn; rewrite ?playback_app, <- ?app_assoc; cbn; done.
Qed.

(** Calls of [onmessage] without the interrupted signal, none of which has
    resumed yet: nothing is started or stopped, and their fragments are in
    flight. *)
Lemma arrivals_calm ms w :
  is_Some (audioContexts w) ->
  Forall (fun x => interrupted (snd x) = false) ms ->
  calm (microtasks w) ->
  let w1 := steps onCommand (map arrive ms) w in
  playback (trace w1) = playback (trace w)
  /\ sources w1 = sources w /\ nextSource w1 = nextSource w
  /\ calm (microtasks w1)
  /\ queued_buffers (microtasks w1)
     = queued_buffers (microtasks w) ++ fragments onCommand ms (host w)
  /\ is_Some (audioContexts w1).
Proof.
  revert w. induction ms as [|[now m] ms IH]; intros w Hc Hms Hcalm; cbv zeta.
  { cbn. by rewrite app_nil_r. }
  apply Forall_cons in Hms as [Hm Hms]. cbn [snd] in Hm.
  change (steps onCommand (map arrive ((now, m) :: ms)) w)
    with (steps onCommand (map arrive ms) (onmessage onCommand now m w)).
  destruct (onmessage_arrival now m w Hc)
    as (new & log & Hmts & Htr & Hnew & Hfor & _ & Hhost & Hctx & Hnxt & Hquiet & _).
  destruct (Hquiet Hm) as [Hlog Hsrc]. cbv zeta in *.
  destruct (IH (onmessage onCommand now m w)) as (IH1 & IH2 & IH3 & IH4 & IH5 & IH6).
  - by rewrite Hctx.
  - done.
  - rewrite Hmts. apply Forall_app. split; [done|].
    eapply Forall_impl; [exact Hfor|]. intros [s r|e|[b|e] m']; try done.
    by intros ->.
  - cbv zeta in *. rewrite IH1, IH2, IH3, IH5, Hmts, Htr, Hhost, Hsrc, Hnxt.
    rewrite playback_app, Hlog, app_nil_r, queued_buffers_app, Hnew.
    cbn [fragments snd]. by rewrite <- !app_assoc.
Qed.

End StepFacts.

(** C8, counterexample.  One fragment is playing.  A second fragment
    arrives, and the interrupted signal arrives while the handler of the
    second fragment is still waiting at its [await]: the handler of the
    signal runs first, stops the one fragment that is playing and resets
    the cursor; then the handler of the second fragment resumes and
    starts it.  The fragment arrived before the interruption, is scheduled
    after it, and goes on playing. *)
Lemma inflight_fragment_outlives_interruption :
  let ss := [Arrival 0 (audio_message "AAD/fw=="); Arrival 0 interrupted_message; Job] in
  let w := steps App.onCommand ss playing in
  arrivals ss = [(0%Q, audio_message "AAD/fw=="); (0%Q, interrupted_message)]
  /\ quiescent playing /\ sources playing = [0%nat]
  /\ playback (trace w)
     = playback (trace playing) ++ [SourceStop 0; SourceStart 1 two_samples 0]
  /\ sources w = [1%nat] /\ quiescent w.
Proof. vm_compute. repeat split. Qed.

(** C8, as amended.  Fragments are started in the order in which their
    messages arrive, however the calls of [onmessage] and the resumptions
    of its handlers interleave: what has been started, followed by what is
    in flight, is always the fragments of the arrivals in their order.
    When every message is handled in a task of its own, nothing stays in
    flight, and once a message with the interrupted signal has been
    handled to the point of the signal (no tool call throws, the audio of
    the message, if any, decodes), every fragment that arrived up to then
    has been started, everything active has been stopped, the active set
    is empty and the cursor is 0: what is started afterwards are the
    fragments that arrive afterwards.  An interruption does not reach the
    handlers in flight: when the signal is handled while fragments that
    arrived before it are still waiting at their [await], only what is
    playing is stopped, and those fragments are started after the
    interruption, end to end from cursor 0, and stay active.  And a
    handler that is left before it gets to the signal, because a tool call
    throws or the audio of the message does not decode, stops nothing. *)
Theorem fragments_in_arrival_order :
  forall {Host} (onCommand : string -> option (gmap string string) -> Host -> result Host),
    (forall ss (w : World Host),
        is_Some (audioContexts w) ->
        let w' := steps onCommand ss w in
        started_buffers (trace w') ++ queued_buffers (microtasks w')
        = (started_buffers (trace w) ++ queued_buffers (microtasks w))
            ++ fragments onCommand (arrivals ss) (host w))
    /\ (forall ms (w : World Host),
          quiescent w -> is_Some (audioContexts w) ->
          let w' := deliver_all onCommand ms w in
          (exists ss, arrivals ss = ms /\ w' = steps onCommand ss w)
          /\ quiescent w'
          /\ started_buffers (trace w')
             = started_buffers (trace w) ++ fragments onCommand ms (host w))
    /\ (forall before now m after (w : World Host),
          quiescent w -> is_Some (audioContexts w) ->
          interrupted m = true ->
          let w1 := deliver_all onCommand before w in
          thrown onCommand (calls m) (host w1) = None ->
          (forall e, audio_outcome m <> Dropped e) ->
          let wi := deliver onCommand now m w1 in
          let w' := deliver_all onCommand after wi in
          w' = deliver_all onCommand (before ++ (now, m) :: after) w
          /\ quiescent wi /\ sources wi = [] /\ nextStartTime wi = 0%Q
          /\ (forall s, In s (sources w1) -> In (SourceStop s) (trace wi))
          /\ started_buffers (trace wi)
             = started_buffers (trace w)
                 ++ fragments onCommand (before ++ [(now, m)]) (host w)
          /\ exists later,
               trace w' = trace wi ++ later
               /\ started_buffers later = fragments onCommand after (host wi))
    /\ (forall inflight now m (w : World Host),
          quiescent w -> is_Some (audioContexts w) ->
          Forall (fun x => interrupted (snd x) = false) inflight ->
          interrupted m = true -> base64Audio m = None ->
          let w1 := steps onCommand (map arrive inflight) w in
          thrown onCommand (calls m) (host w1) = None ->
          let w2 := deliver onCommand now m w1 in
          quiescent w2
          /\ playback (trace w2)
             = playback (trace w) ++ map SourceStop (sources w)
                 ++ gapless_starts (nextSource w) 0
                      (fragments onCommand inflight (host w))
          /\ sources w2
             = seq (nextSource w) (length (fragments onCommand inflight (host w))))
    /\ (forall now m (w : World Host),
          quiescent w -> is_Some (audioContexts w) ->
          thrown onCommand (calls m) (host w) <> None
          \/ (exists e, audio_outcome m = Dropped e) ->
          let w' := deliver onCommand now m w in
          quiescent w' /\ playback (trace w') = playback (trace w)
          /\ sources w' = sources w).
Proof.
  intros Host onCommand. split_and!.
  - apply steps_in_order.
  - intros ms w Hq Hc. cbv zeta.
    destruct (deliver_all_steps onCommand ms w) as (ss & Hss & Hrun).
    destruct (deliver_all_in_order onCommand ms w Hq Hc) as [Hq' Hs].
    split_and!; [by exists ss|done|done].
  - intros before now m after w Hq Hc Hint w1 Hthrown Hdrop wi w'.
    destruct (deliver_all_general onCommand before w Hq) as (Hq1 & Hc1 & _).
    fold w1 in Hq1, Hc1. destruct Hc as [c Hc]. rewrite Hc in Hc1.
    destruct (deliver_spec_at onCommand now m w1 c Hq1 Hc1 Hthrown)
      as (Hqi & Hci & _ & H).
    fold wi in Hqi, Hci, H. cbv zeta in H.
    assert (deliver_all onCommand (before ++ [(now, m)]) w = wi) as Hwi.
    { by rewrite deliver_all_app. }
    assert (w' = deliver_all onCommand (before ++ (now, m) :: after) w) as Hw'.
    { change ((now, m) :: after) with ([(now, m)] ++ after).
      by rewrite app_assoc, deliver_all_app, Hwi. }
    destruct (deliver_all_in_order onCommand (before ++ [(now, m)]) w Hq) as [_ Hsi];
      [by exists c|]. rewrite Hwi in Hsi.
    destruct (deliver_all_in_order onCommand after wi Hqi) as [_ Hs'];
      [by exists c|]. fold w' in Hs'.
    destruct (deliver_all_general onCommand after wi Hqi) as (_ & _ & later & Hlater).
    fold w' in Hlater.
    assert (sources wi = [] /\ nextStartTime wi = 0%Q
            /\ forall s, In s (sources w1) -> In (SourceStop s) (trace wi))
      as (Hsrc & Hcur & Hstops).
    { rewrite Hint in H. destruct (audio_outcome m) as [|b|e]; [| |by destruct (Hdrop e)].
      - destruct H as (Htr & ? & ? & _). split_and!; [done..|].
        intros s Hs. rewrite Htr, !in_app_iff. right. left. by apply in_map.
      - destruct H as (Htr & ? & ? & _). split_and!; [done..|].
        intros s Hs. rewrite Htr, !in_app_iff. right. right. right.
        apply in_map, in_or_app. by left. }
    split_and!; [done..|].
    exists later. split; [done|].
    rewrite Hlater, started_buffers_app in Hs'. by apply app_inv_head in Hs'.
  - intros inflight now m w Hq Hc Hcalm Hint Haudio w1 Hthrown w2.
    unfold quiescent in Hq.
    destruct (arrivals_calm onCommand inflight w Hc Hcalm)
      as (Hpb & Hsrc & Hnxt & Hcalm1 & Hqueue & Hc1).
    { rewrite Hq. constructor. }
    fold w1 in Hpb, Hsrc, Hnxt, Hcalm1, Hqueue, Hc1. rewrite Hq in Hqueue. cbn in Hqueue.
    destruct (onmessage_arrival onCommand now m w1 Hc1)
      as (new & log & Hmts & Htr & Hnew & _ & _ & _ & _ & Hnxt2 & _ & Hstop).
    destruct (Hstop Hint Haudio Hthrown) as (-> & Hsrc2 & Hcur2). cbv zeta in *.
    assert (queued_buffers new = []) as Hnone.
    { rewrite Hnew. unfold fragment, audio_outcome. rewrite Haudio.
      by destruct (thrown _ _ _). }
    unfold w2, deliver, checkpoint.
    set (w' := onmessage onCommand now m w1) in *.
    destruct (drain_calm (microtasks w') (set_microtasks [] w')) as (D1 & D2 & D3).
    { rewrite Hmts. apply Forall_app. split; [done|]. by apply calm_no_buffers. }
    cbv zeta in *. unfold quiescent. rewrite D1, D2, D3.
    rewrite Hmts, queued_buffers_app, Hqueue, Hnone, app_nil_r.
    assert (trace (set_microtasks [] w') = trace w'
            /\ sources (set_microtasks [] w') = sources w'
            /\ nextSource (set_microtasks [] w') = nextSource w'
            /\ nextStartTime (set_microtasks [] w') = nextStartTime w'
            /\ microtasks (set_microtasks [] w') = [])
      as (-> & -> & -> & -> & ->) by by destruct w'.
    rewrite Htr, Hsrc2, Hcur2, Hnxt2, Hnxt, playback_app, Hpb, Hsrc.
    pose proof (proj1 (stops_if_filters true (sources w))) as Hst.
    cbn [stops_if] in Hst. rewrite Hst, <- app_assoc. done.
  - apply deliver_left_early.
Qed.

Lemma fragments_in_arrival_order_witness :
  started_buffers (trace (deliver_all App.onCommand interrupted_between session_up))
  = [two_samples; two_samples]
  /\ playback
       (trace
          (deliver App.onCommand 0 interrupted_message
             (steps App.onCommand
                (map arrive [(0%Q, audio_message "AAD/fw=="); (0%Q, audio_message "AAD/fw==")])
                playing)))
     = playback (trace playing)
         ++ [SourceStop 0; SourceStart 1 two_samples 0;
             SourceStart 2 two_samples (0 + duration two_samples)].
Proof.
  split.
  - destruct (proj1 (proj2 (fragments_in_arrival_order App.onCommand))
                interrupted_between session_up) as (_ & _ & H).
    + reflexivity.
    + by eexists.
    + rewrite H. reflexivity.
  - destruct (proj1 (proj2 (proj2 (proj2 (fragments_in_arrival_order App.onCommand))))
                [(0%Q, audio_message "AAD/fw=="); (0%Q, audio_message "AAD/fw==")]
                0%Q interrupted_message playing) as (_ & H & _).
    + reflexivity.
    + by eexists.
    + repeat constructor.
    + reflexivity.
    + reflexivity.
    + reflexivity.
    + rewrite H. reflexivity.
Defined.

(** ** The closures of the calls of [startSession] *)

Section PageFacts.
Context {Host : Type}.
Variable onCommand : string -> option (gmap string string) -> Host -> result Host.
Implicit Types (w : World Host) (p : Page Host).

Lemma run_microtask_sessionPromise w t :
  sessionPromise (run_microtask w t) = sessionPromise w
  /\ microtasks (run_microtask w t) = microtasks w.
Proof.
  destruct w, t as [s [fc|media]|e|[b|e] m]; try done.
  unfold run_microtask, onmessage_resume, onmessage_end, interrupt; cbn.
  by destruct (interrupted m), (turnComplete m).
Qed.

Lemma checkpoint_sessionPromise w :
  sessionPromise (checkpoint w) = sessionPromise w /\ quiescent (checkpoint w).
Proof.
  unfold checkpoint, quiescent.
  assert (forall ts w0, sessionPromise (foldl run_microtask w0 ts) = sessionPromise w0
                        /\ microtasks (foldl run_microtask w0 ts) = microtasks w0) as H.
  { induction ts as [|t ts IH]; intros w0; [done|]. cbn [foldl].
    destruct (IH (run_microtask w0 t)) as [-> ->]. apply run_microtask_sessionPromise. }
  destruct (H (microtasks w) (set_microtasks [] w)) as [-> ->]. by destruct w.
Qed.

(** An event leaves nothing in the microtask queue. *)
Lemma handle_quiescent w e : quiescent (handle onCommand w e).
Proof. apply checkpoint_sessionPromise. Qed.

(** A click and the end of a source do not touch the promise. *)
Lemma handle_outside_calls w e :
  match e with Click _ | SourceEnded _ => True | _ => False end ->
  sessionPromise (handle onCommand w e) = sessionPromise w.
Proof.
  intros He. unfold handle. rewrite (proj1 (checkpoint_sessionPromise _)).
  destruct e as [nc| | | | | | | |src]; try done.
  - unfold click, toggleVoice, startSession, startSession_catch, cleanup.
    destruct w as [act con tr [s|] [ctxs|] cur srcs prom mic cap h nxt mts log],
             con, act, nc; done.
Qed.

(** The events of the call whose closure the component holds are the
    events of the component: a run of the component is the run of the
    page in which every event belongs to that call. *)
Lemma page_handle_holds k e p :
  holds k p ->
  component (page_handle onCommand p (k, e)) = handle onCommand (component p) e
  /\ holds k (page_handle onCommand p (k, e)).
Proof.
  unfold holds. intros Hk.
  destruct (closures p !! k) as [c|] eqn:Hc; [|done]. cbn in Hk.
  injection Hk as Hk.
  assert (k < length (closures p))%nat as Hlt by (by eapply lookup_lt_Some).
  assert (set_sessionPromise (promise c) (component p) = component p) as Hset.
  { rewrite Hk. by destruct (component p). }
  unfold page_handle. cbn [fst snd].
  destruct e as [nc| | | | | | | |src]; unfold in_call, page_click; rewrite ?Hc, ?Hset;
    cbn [component closures];
    rewrite ?list_lookup_insert_eq by done; try done.
  - split; [done|]. rewrite handle_outside_calls by done.
    destruct (_ || _); rewrite ?lookup_app_l by done; rewrite Hc; cbn; by rewrite Hk.
  - split; [done|]. rewrite handle_outside_calls by done. rewrite Hc. cbn. by rewrite Hk.
Qed.

Lemma page_run_holds k es p :
  holds k p ->
  component (page_run onCommand (map (pair k) es) p) = run onCommand es (component p)
  /\ holds k (page_run onCommand (map (pair k) es) p).
Proof.
  revert p. induction es as [|e es IH]; intros p Hk; [done|].
  destruct (page_handle_holds k e p Hk) as [Hc Hk'].
  cbn [map page_run foldl run].
  fold (page_run onCommand (map (pair k) es) (page_handle onCommand p (k, e))).
  fold (run onCommand es (handle onCommand (component p) e)).
  rewrite <- Hc. by apply IH.
Qed.

(** Every processor that is ever connected is the one of [onopen]. *)
Lemma page_handle_processors p ke :
  Forall (fun c => Forall (fun sp => bufferSize sp = 4096 /\ numberOfInputChannels sp = 1
                                     /\ numberOfOutputChannels sp = 1)%nat
                          (processors c)) (closures p) ->
  Forall (fun c => Forall (fun sp => bufferSize sp = 4096 /\ numberOfInputChannels sp = 1
                                     /\ numberOfOutputChannels sp = 1)%nat
                          (processors c)) (closures (page_handle onCommand p ke)).
Proof.
  intros Hp. destruct ke as [k e]. unfold page_handle. cbn [fst snd].
  assert (Forall (fun c => Forall (fun sp => bufferSize sp = 4096
                                     /\ numberOfInputChannels sp = 1
                                     /\ numberOfOutputChannels sp = 1)%nat
                          (processors c)) (closures (in_call onCommand k e p))) as Hin.
  { unfold in_call. destruct (closures p !! k) as [c|] eqn:Hc; [|done].
    cbn [closures]. apply Forall_insert; [done|]. cbn [processors].
    apply Forall_app. split.
    - rewrite Forall_forall in Hp. apply Hp. by eapply list_elem_of_lookup_2.
    - unfold connected, onopen.
      destruct e; try done.
      destruct (component p) as [act con tr sref [ctxs|] cur srcs prom mic cap h nxt mts log];
        cbn; [|done]. by repeat constructor. }
  destruct e; try done.
  - unfold page_click. cbn [closures]. destruct (_ || _); [done|].
    apply Forall_app. split; [done|]. by repeat constructor.
Qed.

Lemma page_run_processors es p :
  Forall (fun c => Forall (fun sp => bufferSize sp = 4096 /\ numberOfInputChannels sp = 1
                                     /\ numberOfOutputChannels sp = 1)%nat
                          (processors c)) (closures p) ->
  Forall (fun c => Forall (fun sp => bufferSize sp = 4096 /\ numberOfInputChannels sp = 1
                                     /\ numberOfOutputChannels sp = 1)%nat
                          (processors c)) (closures (page_run onCommand es p)).
Proof.
  revert p. induction es as [|e es IH]; intros p Hp; [done|].
  cbn [page_run foldl]. apply IH. by apply page_handle_processors.
Qed.

(** One tick of a processor of call [k]: the frame goes to the promise of
    call [k], whatever the promises of the other calls are. *)
Lemma page_tick p t :
  quiescent (component p) ->
  let p' := page_handle onCommand p (tick t) in
  let b := audio_blob (snd t) in
  quiescent (component p')
  /\ sessionRef (component p') = sessionRef (component p)
  /\ sources (component p') = sources (component p)
  /\ trace (component p')
     = trace (component p)
         ++ match promise <$> closures p !! fst t with
            | Some (Fulfilled s) => [SendRealtimeInput s b]
            | Some (Rejected e) => [Uncaught e]
            | _ => []
            end
  /\ (forall j, j <> fst t -> closures p' !! j = closures p !! j)
  /\ promise <$> closures p' !! fst t
     = register (RealtimeInput b) <$> (promise <$> closures p !! fst t).
Proof.
  intros Hq. destruct t as [k d]. unfold tick, page_handle. cbn [fst snd].
  unfold in_call. destruct (closures p !! k) as [c|] eqn:Hc; cbv zeta.
  2: { cbn. rewrite Hc, app_nil_r. done. }
  assert (k < length (closures p))%nat as Hlt by (by eapply lookup_lt_Some).
  cbn [component closures]. rewrite list_lookup_insert_eq by done.
  destruct p as [w cl]. cbn [component closures] in *.
  destruct w as [act con tr sref ctxs cur srcs prom mic cap h nxt mts log].
  unfold quiescent in Hq. cbn in Hq. subst mts.
  destruct c as [pr procs]. cbn [promise fmap option_fmap option_map].
  split_and!.
  - apply handle_quiescent.
  - destruct pr; done.
  - destruct pr; done.
  - destruct pr; cbn; by rewrite ?app_nil_r.
  - intros j Hj. by rewrite list_lookup_insert_ne.
  - destruct pr; done.
Qed.

(** Ticks of a processor of a call whose promise is fulfilled: each frame
    is sent at once, as one message, to the session of that call. *)
Lemma page_ticks_fulfilled ds p k c s :
  quiescent (component p) -> closures p !! k = Some c -> promise c = Fulfilled s ->
  let p' := page_run onCommand (map (fun d => (k, AudioProcess d)) ds) p in
  quiescent (component p')
  /\ trace (component p')
     = trace (component p) ++ map (fun d => SendRealtimeInput s (audio_blob d)) ds
  /\ promise <$> closures p' !! k = Some (Fulfilled s).
Proof.
  revert p c. induction ds as [|d ds IH]; intros p c Hq Hc Hs; cbv zeta.
  { cbn. rewrite app_nil_r, Hc. cbn. by rewrite Hs. }
  destruct (page_tick p (k, d) Hq) as (Hq1 & _ & _ & Htr & _ & Hpr).
  cbn [map page_run foldl].
  change (page_handle onCommand p (k, AudioProcess d))
    with (page_handle onCommand p (tick (k, d))).
  cbv zeta in *.
  remember (page_handle onCommand p (tick (k, d))) as p1 eqn:Hp1. clear Hp1.
  fold (page_run onCommand (map (fun d => (k, AudioProcess d)) ds) p1).
  cbn [fst snd] in *. rewrite Hc in Htr, Hpr. cbn in Htr, Hpr.
  rewrite Hs in Htr, Hpr. cbn in Hpr.
  destruct (closures p1 !! k) as [c1|] eqn:Hc1; [|done]. cbn in Hpr.
  injection Hpr as Hpr.
  destruct (IH p1 c1 Hq1 Hc1 Hpr) as (Hq2 & Htr2 & Hpr2). cbv zeta in *.
  split_and!; [done| |done].
  rewrite Htr2, Htr, <- app_assoc. done.
Qed.

(** Ticks of a processor of a call whose promise is pending: nothing is
    sent, and the frames wait with the promise in the order of the
    ticks. *)
Lemma page_ticks_pending ds p k c rs :
  quiescent (component p) -> closures p !! k = Some c -> promise c = Pending rs ->
  let p' := page_run onCommand (map (fun d => (k, AudioProcess d)) ds) p in
  quiescent (component p')
  /\ trace (component p') = trace (component p)
  /\ promise <$> closures p' !! k
     = Some (Pending (rs ++ map (fun d => RealtimeInput (audio_blob d)) ds)).
Proof.
  revert p c rs. induction ds as [|d ds IH]; intros p c rs Hq Hc Hs; cbv zeta.
  { cbn. rewrite app_nil_r, Hc. cbn. by rewrite Hs. }
  destruct (page_tick p (k, d) Hq) as (Hq1 & _ & _ & Htr & _ & Hpr).
  cbn [map page_run foldl].
  change (page_handle onCommand p (k, AudioProcess d))
    with (page_handle onCommand p (tick (k, d))).
  cbv zeta in *.
  remember (page_handle onCommand p (tick (k, d))) as p1 eqn:Hp1. clear Hp1.
  fold (page_run onCommand (map (fun d => (k, AudioProcess d)) ds) p1).
  cbn [fst snd] in *. rewrite Hc in Htr, Hpr. cbn in Htr, Hpr.
  rewrite Hs in Htr, Hpr. cbn in Hpr. rewrite app_nil_r in Htr.
  destruct (closures p1 !! k) as [c1|] eqn:Hc1; [|done]. cbn in Hpr.
  injection Hpr as Hpr.
  destruct (IH p1 c1 _ Hq1 Hc1 Hpr) as (Hq2 & Htr2 & Hpr2). cbv zeta in *.
  split_and!; [done|congruence|].
  rewrite Hpr2, <- app_assoc. done.
Qed.

(** The promise of call [k] settles. *)
Lemma page_fulfilled p k c rs s :
  quiescent (component p) -> closures p !! k = Some c -> promise c = Pending rs ->
  let p' := page_handle onCommand p (k, SessionSettled (Ok s)) in
  quiescent (component p')
  /\ promise <$> closures p' !! k = Some (Fulfilled s)
  /\ trace (component p') = trace (component p) ++ map (reaction_effect s) rs.
Proof.
  intros Hq Hc Hs. unfold page_handle. cbn [fst snd]. unfold in_call. rewrite Hc.
  assert (k < length (closures p))%nat as Hlt by (by eapply lookup_lt_Some).
  cbv zeta. cbn [component closures]. rewrite list_lookup_insert_eq by done.
  destruct p as [w cl]. cbn [component closures] in *.
  destruct w as [act con tr sref ctxs cur srcs prom mic cap h nxt mts log].
  unfold quiescent in Hq. cbn in Hq. subst mts. rewrite Hs.
  unfold handle, startSession_session, checkpoint. cbn.
  rewrite run_reactions. split_and!; done.
Qed.

Lemma page_rejected p k c rs e :
  quiescent (component p) -> closures p !! k = Some c -> promise c = Pending rs ->
  let p' := page_handle onCommand p (k, SessionSettled (Throw e)) in
  quiescent (component p')
  /\ promise <$> closures p' !! k = Some (Rejected e)
  /\ trace (component p')
     = trace (component p)
         ++ ConsoleError e :: cleanup_effects (component p)
         ++ map (fun _ => Uncaught e) rs.
Proof.
  intros Hq Hc Hs. unfold page_handle. cbn [fst snd]. unfold in_call. rewrite Hc.
  assert (k < length (closures p))%nat as Hlt by (by eapply lookup_lt_Some).
  cbv zeta. cbn [component closures]. rewrite list_lookup_insert_eq by done.
  destruct p as [w cl]. cbn [component closures] in *.
  destruct w as [act con tr sref ctxs cur srcs prom mic cap h nxt mts log].
  unfold quiescent in Hq. cbn in Hq. subst mts. rewrite Hs.
  unfold handle, checkpoint.
  destruct sref as [s0|]; cbn; rewrite run_unhandled; cbn;
    rewrite <- ?app_assoc; split_and!; done.
Qed.

End PageFacts.

(** ** C9: captured frames *)

Lemma Uint8Array_of_int16_lookup zs i z :
  zs !! i = Some z ->
  exists lo hi,
    Uint8Array_of_int16 zs !! (2 * i)%nat = Some lo
    /\ Uint8Array_of_int16 zs !! (2 * i + 1)%nat = Some hi
    /\ Z.of_N (Byte.to_N lo) = (z mod 256)%Z
    /\ Z.of_N (Byte.to_N hi) = (z / 256 mod 256)%Z.
Proof.
  revert i. induction zs as [|z0 zs IH]; intros i Hi; [done|].
  destruct i as [|i].
  - cbn in Hi. injection Hi as ->. do 2 eexists. cbn.
    split_and!; [reflexivity|reflexivity| |];
      rewrite Base64Facts.to_N_byte_of_N; lia_div.
  - cbn in Hi. destruct (IH i Hi) as (lo & hi & H1 & H2 & H3 & H4).
    exists lo, hi. replace (2 * S i)%nat with (S (S (2 * i))) by lia.
    cbn. fold (Uint8Array_of_int16 zs). split_and!; done.
Qed.

(** The element that the store into the [Int16Array] leaves, said without
    the conversion: the integer part of [v * 32768] reduced by a multiple
    of [2^16] into the 16-bit range, and 0 for what is not a finite
    number. *)
Lemma ToInt16_mul_32768 x :
  let z := ToInt16 (mul_32768 x) in
  (-32768 <= z <= 32767)%Z
  /\ match x with
     | Num v => exists k, Qtrunc (v * 32768) = (z + 65536 * k)%Z
     | _ => z = 0%Z
     end.
Proof.
  cbv zeta. split; [apply ToInt16_range|].
  destruct x as [v| |]; [|done..]. cbn [mul_32768 ToInt16].
  destruct (_ <? _)%Z.
  - exists (Qtrunc (v * 32768) / 65536)%Z. lia_div.
  - exists (Qtrunc (v * 32768) / 65536 + 1)%Z. lia_div.
Qed.

(** C9.  Every processor that the page ever connects has a buffer of 4096
    samples and one input channel, so a frame that the platform hands to
    [onaudioprocess] (a frame has the length of the processor's buffer)
    holds 4096 mono samples.  The message built from a frame has the MIME
    type ["audio/pcm;rate=16000"], and its payload is the base64 encoding,
    a canonical text that [decode] takes back to them,
    of two bytes for each sample, 8192 bytes for 4096 samples: the low
    byte and then the high byte of the 16-bit value of the sample, which
    is the integer part of the sample times 32768, taken modulo [2^16]
    into the signed range (0 for a sample that is not a finite number).
    Each tick of a processor of a call whose session promise is fulfilled
    sends exactly that message, once, to the session of that call, in the
    order of the ticks.  While the promise is pending the messages wait,
    and they are sent in that order, after what was waiting before them,
    when the promise is fulfilled. *)
Theorem captured_frame_sent :
  forall {Host} (onCommand : string -> option (gmap string string) -> Host -> result Host),
    (forall es (h : Host) k c sp,
        closures (page_run onCommand es (initial_page h)) !! k = Some c ->
        In sp (processors c) ->
        bufferSize sp = 4096%nat /\ numberOfInputChannels sp = 1%nat)
    /\ (forall inputData : list number,
          mimeType (audio_blob inputData) = "audio/pcm;rate=16000"
          /\ Base64.canonical (data (audio_blob inputData)) = true
          /\ exists bytes,
               data (audio_blob inputData) = encode bytes
               /\ decode (data (audio_blob inputData)) = Ok bytes
               /\ length bytes = (2 * length inputData)%nat
               /\ (length inputData = 4096%nat -> length bytes = (2 * 4096)%nat)
               /\ forall i x,
                    inputData !! i = Some x ->
                    exists z lo hi,
                      (-32768 <= z <= 32767)%Z
                      /\ match x with
                         | Num v => exists k, Qtrunc (v * 32768) = (z + 65536 * k)%Z
                         | _ => z = 0%Z
                         end
                      /\ bytes !! (2 * i)%nat = Some lo
                      /\ bytes !! (2 * i + 1)%nat = Some hi
                      /\ Z.of_N (Byte.to_N lo) = (z mod 256)%Z
                      /\ Z.of_N (Byte.to_N hi) = (z / 256 mod 256)%Z)
    /\ (forall (p : Page Host) k c s ds,
          quiescent (component p) ->
          closures p !! k = Some c -> promise c = Fulfilled s ->
          trace (component
                   (page_run onCommand (map (fun d => (k, AudioProcess d)) ds) p))
          = trace (component p)
              ++ map (fun d => SendRealtimeInput s (audio_blob d)) ds)
    /\ (forall (p : Page Host) k c rs s ds,
          quiescent (component p) ->
          closures p !! k = Some c -> promise c = Pending rs ->
          let p1 := page_run onCommand (map (fun d => (k, AudioProcess d)) ds) p in
          let p2 := page_handle onCommand p1 (k, SessionSettled (Ok s)) in
          trace (component p1) = trace (component p)
          /\ trace (component p2)
             = trace (component p)
                 ++ map (reaction_effect s) rs
                 ++ map (fun d => SendRealtimeInput s (audio_blob d)) ds).
Proof.
  intros Host onCommand. split_and!.
  - intros es h k c sp Hc Hsp.
    pose proof (page_run_processors onCommand es (initial_page h) (Forall_nil_2 _)) as H.
    rewrite Forall_forall in H.
    specialize (H c ltac:(by eapply list_elem_of_lookup_2)).
    rewrite Forall_forall in H. destruct (H sp) as (? & ? & _); [|done].
    by apply list_elem_of_In.
  - intros inputData.
    destruct (audio_blob_spec inputData) as (Hdata & Hmime & Hdec & _ & Hlen).
    cbv zeta in *. split; [done|]. split.
    { rewrite Hdata. unfold Base64.canonical, encode, Base64.btoa.
      rewrite list_ascii_of_string_of_list_ascii.
      apply Base64Facts.canonical_encode_chars. }
    exists (Uint8Array_of_int16 (int16_of_floats inputData)).
    split_and!; [done|done|done|lia|].
    intros i x Hi.
    destruct (Uint8Array_of_int16_lookup (int16_of_floats inputData) i
                (ToInt16 (mul_32768 x))) as (lo & hi & H1 & H2 & H3 & H4).
    { unfold int16_of_floats. by rewrite list_lookup_fmap, Hi. }
    destruct (ToInt16_mul_32768 x) as [Hrange Hz]. cbv zeta in Hrange, Hz.
    exists (ToInt16 (mul_32768 x)), lo, hi.
    split_and!; [apply Hrange|apply Hrange|exact Hz|exact H1|exact H2|exact H3|exact H4].
  - intros p k c s ds Hq Hc Hs.
    by destruct (page_ticks_fulfilled onCommand ds p k c s Hq Hc Hs) as (_ & ? & _).
  - intros p k c rs s ds Hq Hc Hs. cbv zeta.
    destruct (page_ticks_pending onCommand ds p k c rs Hq Hc Hs) as (Hq1 & Htr1 & Hpr1).
    cbv zeta in *.
    remember (page_run onCommand (map (fun d => (k, AudioProcess d)) ds) p) as p1 eqn:Hp1.
    clear Hp1. split; [done|].
    destruct (closures p1 !! k) as [c1|] eqn:Hc1; [|done]. cbn in Hpr1.
    injection Hpr1 as Hpr1.
    destruct (page_fulfilled onCommand p1 k c1 _ s Hq1 Hc1 Hpr1) as (_ & _ & ->).
    rewrite Htr1, map_app, map_map. done.
Qed.

Lemma captured_frame_sent_witness :
  (exists c sp, closures page_restarted !! 0%nat = Some c /\ processors c = [sp]
                /\ bufferSize sp = 4096%nat /\ numberOfInputChannels sp = 1%nat)
  /\ length ramp = 4096%nat
  /\ (exists bytes lo hi,
         decode (data (audio_blob ramp)) = Ok bytes
         /\ length bytes = (2 * 4096)%nat
         /\ bytes !! (2 * 4095)%nat = Some lo /\ bytes !! (2 * 4095 + 1)%nat = Some hi
         /\ Z.of_N (Byte.to_N lo) = 240%Z /\ Z.of_N (Byte.to_N hi) = 127%Z)
  /\ trace (component
              (page_run App.onCommand
                 (map (fun d => (0%nat, AudioProcess d)) [ramp; capture_frame])
                 page_restarted))
     = trace (component page_restarted)
         ++ [SendRealtimeInput 1 (audio_blob ramp);
             SendRealtimeInput 1 (audio_blob capture_frame)]
  /\ data (audio_blob capture_frame) = "AEAAwP3//38AgA==".
Proof.
  split_and!.
  - exists {| promise := Fulfilled 1;
              processors := [{| bufferSize := 4096; numberOfInputChannels := 1;
                                numberOfOutputChannels := 1 |}] |},
           {| bufferSize := 4096; numberOfInputChannels := 1;
              numberOfOutputChannels := 1 |}.
    split; [reflexivity|]. split; [reflexivity|].
    apply (proj1 (captured_frame_sent App.onCommand)
             [(0%nat, Click (Ok contexts)); (0%nat, StreamSettled (Ok ())); (0%nat, Open);
              (0%nat, SessionSettled (Ok 1%nat)); (0%nat, Closed);
              (0%nat, Click (Ok contexts)); (1%nat, StreamSettled (Ok ()));
              (1%nat, Open)]
             host0 0%nat
             {| promise := Fulfilled 1;
                processors := [{| bufferSize := 4096; numberOfInputChannels := 1;
                                  numberOfOutputChannels := 1 |}] |}).
    + reflexivity.
    + by left.
  - reflexivity.
  - destruct (proj1 (proj2 (captured_frame_sent App.onCommand)) ramp)
      as (_ & _ & bytes & _ & Hdec & _ & Hlen & Hat).
    destruct (Hat 4095%nat (Num (2047 # 2048))) as (z & lo & hi & Hz & [k Hk] & H1 & H2 & H3 & H4).
    { reflexivity. }
    exists bytes, lo, hi.
    assert (z = 32752%Z) as ->.
    { change (Qtrunc ((2047 # 2048) * 32768)) with 32752%Z in Hk. lia. }
    split_and!; [exact Hdec|by apply Hlen|exact H1|exact H2|exact H3|exact H4].
  - apply (proj1 (proj2 (proj2 (captured_frame_sent App.onCommand))) page_restarted 0%nat
             {| promise := Fulfilled 1;
                processors := [{| bufferSize := 4096; numberOfInputChannels := 1;
                                  numberOfOutputChannels := 1 |}] |} 1%nat
             [ramp; capture_frame]); reflexivity.
  - reflexivity.
Defined.

(** * Further properties *)

Section EventFacts.

Context {Host : Type}.
Variable onCommand : string -> option (gmap string string) -> Host -> result Host.
Implicit Types w : World Host.

Lemma playback_reactions s rs : playback (map (reaction_effect s) rs) = [].
Proof. unfold playback. induction rs as [|[] rs IH]; done. Qed.

Lemma playback_stops l : playback (map SourceStop l) = map SourceStop l.
Proof. apply (stops_if_filters true l). Qed.

(** What one event does, from a world between tasks. *)
Lemma handle_general e w :
  quiescent w ->
  let w' := handle onCommand w e in
  quiescent w'
  /\ (microphone w = true -> microphone w' = true)
  /\ (is_Some (capture w) -> is_Some (capture w'))
  /\ (forall c, audioContexts w = Some c -> audioContexts w' = Some c)
  /\ (~ (isActive w = true /\ isConnecting w = true) ->
      ~ (isActive w' = true /\ isConnecting w' = true))
  /\ exists (started : option (AudioBuffer * Q)) (intr : bool) (new : list Effect),
       let srcs :=
         sources w ++ match started with Some _ => [nextSource w] | None => [] end in
       trace w' = trace w ++ new
       /\ playback new
          = match started with
            | Some (b, t) => [SourceStart (nextSource w) b t]
            | None => []
            end ++ stops_if intr srcs
       /\ (if intr then sources w' = []
           else (forall s, In s (sources w') -> In s srcs)
                /\ (NoDup srcs -> NoDup (sources w')))
       /\ nextSource w'
          = match started with Some _ => S (nextSource w) | None => nextSource w end
       /\ (interrupts e = false ->
           match started with
           | Some (b, t) =>
               (nextStartTime w <= t)%Q /\ nextStartTime w' = (t + duration b)%Q
           | None => (nextStartTime w <= nextStartTime w')%Q
           end).
Proof.
  intros Hq.
  assert (forall l : list nat, List.filter is_playback (map SourceStop l) = map SourceStop l)
    as Hstops by apply playback_stops.
  assert (forall s rs, List.filter is_playback (map (reaction_effect s) rs) = [])
    as Hreact by apply playback_reactions.
  assert (forall e (rs : list Reaction),
             List.filter is_playback (map (fun _ => Uncaught e) rs) = []) as Hun.
  { intros e0 rs. by induction rs. }
  destruct e as [nc|st|se| |now m|err| |d|src]; cbv zeta.
  5:{ (* a server message *)
    destruct (deliver_general onCommand now m w Hq)
      as (Hq' & _ & Hcon & _ & Hctx & Hmic & Hcap & _ & _ & started & intr & new & Htr & Hpb
          & _ & Hsrc & Hnext & _ & Hintr & Hcur).
    change (handle onCommand w (ServerMessage now m)) with (deliver onCommand now m w).
    cbv zeta in *. cbn [interrupts].
    split_and!; try done.
    - intros ?. by rewrite Hmic.
    - by rewrite Hcap.
    - intros ? ?. by rewrite Hctx.
    - destruct (deliver_general onCommand now m w Hq) as (_ & -> & -> & _). tauto.
    - exists (match started with
              | Some b => Some (b, Qmax (nextStartTime w) now)
              | None => None
              end), intr, new.
      pose proof (Q.le_max_l (nextStartTime w) now) as Hmax.
      destruct started as [b|], intr; rewrite ?Hsrc; split_and!; try done.
      all: intros Hi; try (rewrite Hintr in Hi by done; done).
      destruct Hcur as [-> | ->]; [apply Qle_refl | done]. }
  all: destruct w as [act con tr sref ctxs cur srcs prom mic cap h nxt mts log];
    unfold quiescent in Hq; cbn in Hq; subst mts.
  all: unfold handle, click, toggleVoice, onerror, onclose, onopen, onaudioprocess, ended,
         sessionPromise_then, checkpoint, quiescent;
       cbn [isConnecting isActive audioContexts sessionPromise].
  - destruct con, act, ctxs as [c|], nc as [c'|e'], sref as [s|]; cbn;
      quiet_event Hstops Hreact Hun.
  - destruct st as [[]|e], sref as [s|]; cbn; quiet_event Hstops Hreact Hun.
  - destruct se as [s|e], prom as [|rs|s'|e'], sref as [s0|]; cbn;
      rewrite ?run_reactions, ?run_unhandled; cbn; quiet_event Hstops Hreact Hun.
  - destruct ctxs as [c|]; cbn; quiet_event Hstops Hreact Hun.
  - destruct sref as [s|]; cbn; quiet_event Hstops Hreact Hun.
  - destruct sref as [s|]; cbn; quiet_event Hstops Hreact Hun.
  - destruct prom as [|rs|s'|e']; cbn; quiet_event Hstops Hreact Hun.
  - cbn. split_and!; try done.
    exists None, false, []. cbn. rewrite !app_nil_r.
    split_and!; intros; try done; try apply Qle_refl.
    + by apply List.filter_In in H as [? _].
    + by apply NoDup_ListNoDup, List.NoDup_filter, NoDup_ListNoDup.
Qed.

End EventFacts.

Section TraceFacts.

Lemma started_ids_app tr1 tr2 :
  started_ids (tr1 ++ tr2) = started_ids tr1 ++ started_ids tr2.
Proof. apply omap_app. Qed.

Lemma stopped_ids_app tr1 tr2 :
  stopped_ids (tr1 ++ tr2) = stopped_ids tr1 ++ stopped_ids tr2.
Proof. apply omap_app. Qed.

Lemma frames_sent_app tr1 tr2 :
  frames_sent (tr1 ++ tr2) = frames_sent tr1 ++ frames_sent tr2.
Proof. apply omap_app. Qed.

Lemma started_ids_playback tr : started_ids (playback tr) = started_ids tr.
Proof. unfold started_ids, playback. induction tr as [|[] tr IH]; cbn; by rewrite ?IH. Qed.

Lemma stopped_ids_playback tr : stopped_ids (playback tr) = stopped_ids tr.
Proof. unfold stopped_ids, playback. induction tr as [|[] tr IH]; cbn; by rewrite ?IH. Qed.

Lemma stopped_ids_stops l : stopped_ids (map SourceStop l) = l.
Proof. unfold stopped_ids. induction l as [|s l IH]; cbn; by rewrite ?IH. Qed.

Lemma started_ids_stops l : started_ids (map SourceStop l) = [].
Proof. unfold started_ids. by induction l. Qed.

Lemma stops_follow_starts_playback seen tr :
  stops_follow_starts seen (playback tr) <-> stops_follow_starts seen tr.
Proof.
  unfold playback. revert seen.
  induction tr as [|[] tr IH]; intros seen; cbn; rewrite ?IH; tauto.
Qed.

Lemma stops_follow_starts_app seen tr1 tr2 :
  stops_follow_starts seen (tr1 ++ tr2)
  <-> stops_follow_starts seen tr1
      /\ stops_follow_starts (rev (started_ids tr1) ++ seen) tr2.
Proof.
  unfold started_ids. revert seen.
  induction tr1 as [|[] tr1 IH]; intros seen; cbn; rewrite ?IH; try tauto.
  rewrite <- app_assoc. cbn. tauto.
Qed.

Lemma stops_follow_starts_stops seen l :
  stops_follow_starts seen (map SourceStop l) <-> forall s, In s l -> In s seen.
Proof.
  induction l as [|s l IH]; cbn; [tauto|]. rewrite IH. split.
  - intros [? H] s' [->|?]; auto.
  - intros H. split; auto.
Qed.

Lemma no_overlap_playback cursor tr :
  no_overlap cursor (playback tr) <-> no_overlap cursor tr.
Proof.
  unfold playback. revert cursor.
  induction tr as [|[] tr IH]; intros cursor; cbn; rewrite ?IH; tauto.
Qed.

Lemma cursor_after_playback cursor tr :
  cursor_after cursor (playback tr) = cursor_after cursor tr.
Proof.
  unfold playback. revert cursor.
  induction tr as [|[] tr IH]; intros cursor; cbn; by rewrite ?IH.
Qed.

Lemma no_overlap_app cursor tr1 tr2 :
  no_overlap cursor (tr1 ++ tr2)
  <-> no_overlap cursor tr1 /\ no_overlap (cursor_after cursor tr1) tr2.
Proof.
  revert cursor. induction tr1 as [|[] tr1 IH]; intros cursor; cbn; rewrite ?IH; tauto.
Qed.

Lemma cursor_after_app cursor tr1 tr2 :
  cursor_after cursor (tr1 ++ tr2) = cursor_after (cursor_after cursor tr1) tr2.
Proof.
  revert cursor. induction tr1 as [|[] tr1 IH]; intros cursor; cbn; by rewrite ?IH.
Qed.

Lemma no_overlap_stops cursor l : no_overlap cursor (map SourceStop l).
Proof. by induction l. Qed.

Lemma cursor_after_stops cursor l : cursor_after cursor (map SourceStop l) = cursor.
Proof. by induction l. Qed.

End TraceFacts.

Section RunFacts.

Context {Host : Type}.
Variable onCommand : string -> option (gmap string string) -> Host -> result Host.
Implicit Types w : World Host.

Lemma stops_follow_starts_stopped seen tr s :
  stops_follow_starts seen tr -> In s (stopped_ids tr) ->
  In s seen \/ In s (started_ids tr).
Proof.
  unfold stopped_ids, started_ids. revert seen.
  induction tr as [|[] tr IH]; intros seen; cbn; try (by intros; eauto); try done.
  - intros H1 H2. destruct (IH _ H1 H2) as [[->|?]|?]; auto.
  - intros [H0 H1] [->|H2]; eauto.
Qed.

(** An invariant of the events that satisfy [ok] holds after every run of
    such events. *)
Lemma run_invariant (ok : Event -> Prop) (P : World Host -> Prop) :
  (forall w e, ok e -> quiescent w -> P w -> P (handle onCommand w e)) ->
  forall es w, Forall ok es -> quiescent w -> P w ->
    quiescent (run onCommand es w) /\ P (run onCommand es w).
Proof.
  intros Hstep es. induction es as [|e es IH]; intros w Hok Hq HP; [done|].
  apply Forall_cons in Hok as [He Hes]. cbn [run foldl]. apply IH; [done| |by apply Hstep].
  by apply handle_general.
Qed.

Lemma playback_sound_handle e w :
  quiescent w -> playback_sound w -> playback_sound (handle onCommand w e).
Proof.
  intros Hq (Hnd & Hsrc & Hfresh & Hnds & Hndp & Hsfs).
  destruct (handle_general onCommand e w Hq)
    as (_ & _ & _ & _ & _ & started & intr & new & Htr & Hpb & Hsources & Hnext & _).
  cbv zeta in *. unfold playback_sound. rewrite Htr, Hnext.
  rewrite started_ids_app, stopped_ids_app, stops_follow_starts_app.
  rewrite <- (started_ids_playback new), <- (stopped_ids_playback new),
    <- (stops_follow_starts_playback _ new), Hpb.
  rewrite started_ids_app, stopped_ids_app, stops_follow_starts_app.
  assert (~ In (nextSource w) (sources w)) as Hnew.
  { intros Hin. apply Hsrc in Hin as [Hin _]. apply Hfresh in Hin. lia. }
  assert (~ In (nextSource w) (stopped_ids (trace w))) as Hnew'.
  { intros Hin. destruct (stops_follow_starts_stopped _ _ _ Hsfs Hin) as [[]|Hin'].
    apply Hfresh in Hin'. lia. }
  assert (~ In (nextSource w) (started_ids (trace w))) as Hnew''.
  { intros Hin. apply Hfresh in Hin. lia. }
  set (srcs := sources w ++ match started with Some _ => [nextSource w] | None => [] end) in *.
  assert (NoDup srcs) as Hndsrcs.
  { unfold srcs. destruct started; [|by rewrite app_nil_r].
    apply NoDup_app. split_and!; [done| |apply NoDup_singleton].
    intros s Hs%list_elem_of_In ->%list_elem_of_singleton. done. }
  assert (forall s, In s srcs ->
            (In s (started_ids (trace w)) \/ started <> None /\ s = nextSource w)
            /\ ~ In s (stopped_ids (trace w))) as Hsrcs.
  { unfold srcs. intros s [Hs|Hs]%in_app_iff.
    - apply Hsrc in Hs as [? ?]. auto.
    - destruct started; [|done]. destruct Hs as [<-|[]]. auto. }
  assert (started_ids (match started with
                       | Some (b, t) => [SourceStart (nextSource w) b t]
                       | None => []
                       end)
          = match started with Some _ => [nextSource w] | None => [] end) as ->.
  { by destruct started as [[]|]. }
  assert (stopped_ids (match started with
                       | Some (b, t) => [SourceStart (nextSource w) b t]
                       | None => []
                       end) = []) as ->.
  { by destruct started as [[]|]. }
  assert (started_ids (stops_if intr srcs) = []) as ->.
  { destruct intr; [apply started_ids_stops|done]. }
  assert (stopped_ids (stops_if intr srcs) = if intr then srcs else []) as ->.
  { destruct intr; [apply stopped_ids_stops|done]. }
  rewrite !app_nil_r. cbn [app].
  split_and!.
  - destruct intr; [rewrite Hsources; apply NoDup_nil_2 | by apply Hsources].
  - intros s Hs. destruct intr; [by rewrite Hsources in Hs|].
    apply Hsources, Hsrcs in Hs as [Hs Hs']. rewrite app_nil_r. split; [|done].
    apply in_app_iff. destruct Hs as [?|[? ->]]; [by left|right].
    destruct started; [by left|done].
  - intros s [Hs|Hs]%in_app_iff.
    + apply Hfresh in Hs. destruct started; lia.
    + destruct started; [|done]. destruct Hs as [<-|[]]. lia.
  - destruct started; [|by rewrite app_nil_r].
    apply NoDup_app. split_and!; [done| |apply NoDup_singleton].
    intros s Hs%list_elem_of_In ->%list_elem_of_singleton. done.
  - destruct intr; [|by rewrite app_nil_r].
    apply NoDup_app. split_and!; [done| |done].
    intros s Hs%list_elem_of_In Hs'%list_elem_of_In.
    by apply Hsrcs in Hs' as [_ ?].
  - done.
  - by destruct started as [[]|].
  - destruct intr; [|done]. apply stops_follow_starts_stops.
    intros s Hs. apply Hsrcs in Hs as [[Hs|[Hs ->]] _].
    + rewrite !in_app_iff, <- !in_rev. auto.
    + destruct started; [|done]. by left.
Qed.

End RunFacts.

Section RunTheorems.

Context {Host : Type}.
Variable onCommand : string -> option (gmap string string) -> Host -> result Host.
Implicit Types w : World Host.

Lemma playback_sound_initial (h : Host) : playback_sound (initial h).
Proof.
  unfold playback_sound. cbn. split_and!; try done; apply NoDup_nil_2.
Qed.

Lemma no_overlap_handle c e w :
  interrupts e = false -> quiescent w ->
  no_overlap c (trace w) /\ (cursor_after c (trace w) <= nextStartTime w)%Q ->
  let w' := handle onCommand w e in
  no_overlap c (trace w') /\ (cursor_after c (trace w') <= nextStartTime w')%Q.
Proof.
  intros He Hq [Hno Hcur].
  destruct (handle_general onCommand e w Hq)
    as (_ & _ & _ & _ & _ & started & intr & new & Htr & Hpb & _ & _ & Hnst).
  cbv zeta in *. specialize (Hnst He). rewrite Htr.
  rewrite no_overlap_app, cursor_after_app.
  rewrite <- (no_overlap_playback _ new), <- (cursor_after_playback _ new), Hpb.
  rewrite no_overlap_app, cursor_after_app.
  assert (forall q, no_overlap q (stops_if intr
            (sources w ++ match started with Some _ => [nextSource w] | None => [] end)))
    as Hstops by (intros; destruct intr; [apply no_overlap_stops|done]).
  assert (forall q, cursor_after q (stops_if intr
            (sources w ++ match started with Some _ => [nextSource w] | None => [] end)) = q)
    as -> by (intros; destruct intr; [apply cursor_after_stops|done]).
  destruct started as [[b t]|]; cbn [no_overlap cursor_after].
  - destruct Hnst as [Ht ->]. split_and!; auto; [|apply Qle_refl].
    by apply Qle_trans with (nextStartTime w).
  - split_and!; auto. by apply Qle_trans with (nextStartTime w).
Qed.

End RunTheorems.

(** ** The component over every sequence of events *)

(** X1.  Nothing the component does releases a device: over every sequence
    of events (clicks that stop the session, errors, the connection
    closing, failures to open) a microphone stream that was granted stays
    live, a capture processor that was connected stays connected, and the
    audio contexts, once made, are the ones used ever after. *)
Theorem resources_never_released :
  forall {Host} (onCommand : string -> option (gmap string string) -> Host -> result Host)
         es (w : World Host),
    quiescent w ->
    let w' := run onCommand es w in
    quiescent w'
    /\ (microphone w = true -> microphone w' = true)
    /\ (is_Some (capture w) -> is_Some (capture w'))
    /\ (forall c, audioContexts w = Some c -> audioContexts w' = Some c).
Proof.
  intros Host onCommand es w Hq.
  pose proof (run_invariant onCommand (fun _ => True)
    (fun w1 => (microphone w = true -> microphone w1 = true)
               /\ (is_Some (capture w) -> is_Some (capture w1))
               /\ (forall c, audioContexts w = Some c -> audioContexts w1 = Some c))) as H.
  apply H; [|by apply Forall_forall|done|done].
  intros w1 e _ Hq1 (H1 & H2 & H3).
  destruct (handle_general onCommand e w1 Hq1) as (_ & G1 & G2 & G3 & _).
  split_and!; auto.
Qed.

Lemma resources_never_released_witness :
  microphone (run App.onCommand [Closed; Click (Ok contexts); ServerError TypeError]
                session_up) = true
  /\ is_Some (capture (run App.onCommand [Closed; Click (Ok contexts); ServerError TypeError]
                         session_up))
  /\ audioContexts (run App.onCommand [Closed; Click (Ok contexts); ServerError TypeError]
                      session_up) = Some contexts.
Proof.
  destruct (resources_never_released App.onCommand
              [Closed; Click (Ok contexts); ServerError TypeError] session_up eq_refl)
    as (_ & H1 & H2 & H3).
  split_and!; [apply H1; reflexivity | apply H2; by eexists | apply H3; reflexivity].
Defined.

(** X2.  The component is never active and connecting at once: no sequence
    of events leads from a state where the two flags are not both set to
    one where they are. *)
Theorem never_active_and_connecting :
  forall {Host} (onCommand : string -> option (gmap string string) -> Host -> result Host)
         es (w : World Host),
    quiescent w ->
    isActive w && isConnecting w = false ->
    isActive (run onCommand es w) && isConnecting (run onCommand es w) = false.
Proof.
  intros Host onCommand es w Hq Hw.
  pose proof (run_invariant onCommand (fun _ => True)
    (fun w1 => ~ (isActive w1 = true /\ isConnecting w1 = true))) as H.
  destruct (H) with (es := es) (w := w) as [_ Hrun].
  - intros w1 e _ Hq1. by apply handle_general.
  - by apply Forall_forall.
  - done.
  - intros [H1 H2]. by rewrite H1, H2 in Hw.
  - apply not_true_is_false. intros [H1 H2]%andb_true_iff. by apply Hrun.
Qed.

Lemma never_active_and_connecting_witness :
  isActive (run App.onCommand [Click (Ok contexts); Open; Click (Ok contexts)]
              (initial host0))
  && isConnecting (run App.onCommand [Click (Ok contexts); Open; Click (Ok contexts)]
                     (initial host0)) = false.
Proof.
  apply (never_active_and_connecting App.onCommand
           [Click (Ok contexts); Open; Click (Ok contexts)] (initial host0));
    reflexivity.
Defined.

(** X3.  The bookkeeping of sources is sound over every sequence of events
    from the first render: a source is stopped only after it has started,
    no source is stopped twice or started twice, and the sources in the
    set are sources that have started and have not been stopped. *)
Theorem playback_sound_run :
  forall {Host} (onCommand : string -> option (gmap string string) -> Host -> result Host),
    (forall es (w : World Host),
        quiescent w -> playback_sound w -> playback_sound (run onCommand es w))
    /\ (forall es h, playback_sound (run onCommand es (initial h))).
Proof.
  intros Host onCommand.
  assert (forall es (w : World Host),
             quiescent w -> playback_sound w -> playback_sound (run onCommand es w)) as H.
  { intros es w Hq Hw.
    apply (run_invariant onCommand (fun _ => True) playback_sound); auto.
    - intros w1 e _. apply playback_sound_handle.
    - by apply Forall_forall. }
  split; [done|]. intros es h. apply H; [done|apply playback_sound_initial].
Qed.

Lemma playback_sound_run_witness :
  playback_sound
    (run App.onCommand
       [ServerMessage 0 (audio_message "AAD/fw=="); ServerMessage 0 interrupted_message;
        Closed]
       session_up).
Proof.
  apply (proj1 (playback_sound_run App.onCommand)); [reflexivity|].
  unfold playback_sound. cbn. split_and!; try done; apply NoDup_nil_2.
Defined.

(** X4.  Without an interruption no two segments overlap: over every
    sequence of events in which no server message carries the interrupted
    signal, each segment starts no earlier than the segment before it
    ends, whatever the clock reads, whichever fragments fail to decode,
    whichever tool calls throw, and however often the session is stopped
    and opened again. *)
Theorem no_overlap_run :
  forall {Host} (onCommand : string -> option (gmap string string) -> Host -> result Host),
    (forall es (w : World Host) c,
        Forall (fun e => interrupts e = false) es ->
        quiescent w ->
        no_overlap c (trace w) -> (cursor_after c (trace w) <= nextStartTime w)%Q ->
        let w' := run onCommand es w in
        no_overlap c (trace w') /\ (cursor_after c (trace w') <= nextStartTime w')%Q)
    /\ (forall es h,
          Forall (fun e => interrupts e = false) es ->
          no_overlap 0 (trace (run onCommand es (initial h)))).
Proof.
  intros Host onCommand.
  assert (forall es (w : World Host) c,
        Forall (fun e => interrupts e = false) es ->
        quiescent w ->
        no_overlap c (trace w) -> (cursor_after c (trace w) <= nextStartTime w)%Q ->
        let w' := run onCommand es w in
        no_overlap c (trace w') /\ (cursor_after c (trace w') <= nextStartTime w')%Q) as H.
  { intros es w c Hes Hq H1 H2.
    apply (run_invariant onCommand (fun e => interrupts e = false)
             (fun w1 => no_overlap c (trace w1)
                        /\ (cursor_after c (trace w1) <= nextStartTime w1)%Q)); auto.
    intros w1 e He Hq1. by apply no_overlap_handle. }
  split; [done|]. intros es h Hes.
  apply (H es (initial h) 0%Q); [done|done|done|]. cbn. apply Qle_refl.
Qed.

Lemma no_overlap_run_witness :
  no_overlap 0
    (trace (run App.onCommand
              [Click (Ok contexts); StreamSettled (Ok ()); Open; SessionSettled (Ok 1%nat);
               ServerMessage 0 (audio_message "AAD/fw==");
               ServerMessage 0 (audio_message "AAD/fw==")]
              (initial host0))).
Proof.
  apply (proj2 (no_overlap_run App.onCommand)).
  repeat (apply Forall_cons; split; [reflexivity|]). apply Forall_nil_2.
Defined.

(** ** Messages whose handler is left early *)

(** X5.  When the host callback throws on a tool invocation, the handler
    is left there: the invocations before it are acknowledged, that one and
    the ones after it are not, and the rest of the message is skipped: its
    audio is not scheduled, its interruption stops nothing, and its end of
    turn does not clear the transcript. *)
Theorem call_throws_partial :
  forall {Host} (onCommand : string -> option (gmap string string) -> Host -> result Host)
         now m (w : World Host) s before fc after e,
    quiescent w -> sessionPromise w = Fulfilled s ->
    toolCall m = Some (before ++ fc :: after) ->
    dispatch_returns onCommand before ->
    (forall h, onCommand (fc_name fc) (fc_args fc) h = Throw e) ->
    let w' := deliver onCommand now m w in
    quiescent w'
    /\ acknowledgements (trace w') = acknowledgements (trace w) ++ map (ack s) before
    /\ playback (trace w') = playback (trace w)
    /\ In (Uncaught e) (trace w')
    /\ sources w' = sources w /\ nextStartTime w' = nextStartTime w
    /\ nextSource w' = nextSource w
    /\ transcript w' = (transcript w ++ transcript_piece m)%string.
Proof.
  intros Host onCommand now m w s before fc after e Hq Hs Hm Hret Hthrow.
  unfold deliver, onmessage. rewrite Hm.
  destruct w as [act con tr sref ctxs cur srcs prom mic cap h nxt mts log].
  unfold quiescent in Hq. cbn in Hq, Hs. subst mts prom.
  set (w0 := match inputTranscription m with Some _ => _ | None => _ end).
  assert (w0 = @Build_World Host act con (tr ++ transcript_piece m)%string sref ctxs
                 cur srcs (Fulfilled s) mic cap h nxt [] log) as ->.
  { unfold w0, transcript_piece. destruct (inputTranscription m); [done|].
    by rewrite append_nil_r. }
  destruct (tool_calls_throws onCommand before fc after e
              (@Build_World Host act con (tr ++ transcript_piece m)%string sref ctxs
                 cur srcs (Fulfilled s) mic cap h nxt [] log) Hret Hthrow) as [h' ->].
  rewrite (thens_Fulfilled s) by done.
  unfold checkpoint, rejected, quiescent. cbn. rewrite run_tool_responses. cbn.
  rewrite <- !app_assoc.
  destruct (tool_responses_filters s before) as (Hpb & _ & _ & _ & Hack).
  cbv zeta in Hpb, Hack. fold (ack s) in *.
  split_and!; try done.
  - rewrite !acknowledgements_app, Hack. reflexivity.
  - rewrite !playback_app, Hpb. cbn. by rewrite app_nil_r.
  - rewrite in_app_iff. right. by left.
Qed.

Lemma call_throws_partial_witness :
  acknowledgements (trace (deliver App.onCommand 0 throwing_call playing))
  = acknowledgements (trace playing)
      ++ [SendToolResponse 1 "call-1" "toggleTheme" "ok"]
  /\ playback (trace (deliver App.onCommand 0 throwing_call playing))
     = playback (trace playing)
  /\ sources (deliver App.onCommand 0 throwing_call playing) = sources playing
  /\ transcript (deliver App.onCommand 0 throwing_call playing) = " dark mode".
Proof.
  destruct (call_throws_partial App.onCommand 0 throwing_call playing 1
              [ {| fc_id := "call-1"; fc_name := "toggleTheme"; fc_args := None |} ]
              {| fc_id := "call-2"; fc_name := "navigateTo"; fc_args := None |}
              [ {| fc_id := "call-3"; fc_name := "openAdmin"; fc_args := None |} ]
              TypeError)
    as (_ & H1 & H2 & _ & H3 & _ & _ & H4); try reflexivity.
  - intros fc [<-|[]] h. by eexists.
  - split_and!; [exact H1 | exact H2 | exact H3 | exact H4].
Defined.

Section Returns.

Context {Host : Type}.
Variable onCommand : string -> option (gmap string string) -> Host -> result Host.
Implicit Types w : World Host.

Lemma tool_calls_host fcs w :
  dispatch_returns onCommand fcs ->
  tool_calls onCommand fcs w
  = (set_host (dispatch_all onCommand fcs (host w)) (thens fcs w), None).
Proof.
  revert w. induction fcs as [|fc fcs IH]; intros w Hret.
  - by destruct w.
  - cbn [tool_calls dispatch_all foldl].
    destruct (Hret fc (or_introl eq_refl) (host w)) as [h1 ->].
    rewrite IH by (intros fc' Hin; apply Hret; by right).
    f_equal.
    change (thens (fc :: fcs) w)
      with (thens fcs (sessionPromise_then (ToolResponse fc) w)).
    rewrite sessionPromise_then_set_host, thens_set_host, set_host_set_host.
    reflexivity.
Qed.

(** The transcript and the host after one delivery of a message whose
    tool calls all return. *)
Lemma deliver_state now m w c :
  quiescent w -> audioContexts w = Some c ->
  dispatch_returns onCommand (calls m) ->
  let w' := deliver onCommand now m w in
  host w' = dispatch_all onCommand (calls m) (host w)
  /\ transcript w'
     = match audio_outcome m with
       | Dropped _ => (transcript w ++ transcript_piece m)%string
       | _ => if turnComplete m then EmptyString
              else (transcript w ++ transcript_piece m)%string
       end.
Proof.
  intros Hq Hc Hret. unfold deliver, onmessage.
  destruct w as [act con tr sref ctxs cur srcs prom mic cap h nxt mts log].
  unfold quiescent in Hq. cbn in Hq, Hc. subst mts ctxs.
  set (w0 := match inputTranscription m with Some _ => _ | None => _ end).
  assert (w0 = @Build_World Host act con (tr ++ transcript_piece m)%string sref (Some c)
                 cur srcs prom mic cap h nxt [] log) as ->.
  { unfold w0, transcript_piece. destruct (inputTranscription m); [done|].
    by rewrite append_nil_r. }
  set (tr' := (tr ++ transcript_piece m)%string). cbn [host transcript].
  assert (exists w1 reacts acks,
    match toolCall m with
    | Some fcs => tool_calls onCommand fcs
         (@Build_World Host act con tr' sref (Some c) cur srcs prom mic cap h nxt [] log)
    | None => (@Build_World Host act con tr' sref (Some c) cur srcs prom mic cap h nxt [] log, None)
    end = (w1, None)
    /\ (exists prom', w1 = @Build_World Host act con tr' sref (Some c) cur srcs prom'
                                mic cap (dispatch_all onCommand (calls m) h) nxt reacts log)
    /\ forall w2 : World Host, foldl run_microtask w2 reacts = emit acks w2)
    as (w1 & reacts & acks & -> & (prom' & ->) & Hreacts).
  { unfold calls in *. destruct (toolCall m) as [fcs|]; cbn [default] in *.
    - rewrite tool_calls_host by done. cbn [host].
      destruct (thens_spec fcs
                  (@Build_World Host act con tr' sref (Some c) cur srcs prom mic cap h
                                nxt [] log))
        as (prom' & reacts & -> & _ & Hr).
      eexists _, reacts, _. split; [done|]. split; [by eexists|]. exact Hr.
    - eexists _, [], []. split; [done|]. split; [by eexists|].
      intros. by rewrite emit_nil. }
  clear Hret. set (h' := dispatch_all onCommand (calls m) h). clearbody h'.
  unfold onmessage_audio, audio_outcome. cbn [audioContexts base64Audio].
  destruct (base64Audio m) as [b64|]; [case_bool_decide|].
  - unfold checkpoint, onmessage_end, interrupt.
    destruct (interrupted m), (turnComplete m); cbn; rewrite Hreacts; cbn; done.
  - cbn [nextStartTime currentTime].
    destruct (decode b64) as [bytes|e].
    + rewrite (decodeAudioData_ctx bytes {| currentTime := now |}
                                         {| currentTime := 0 |}).
      destruct (decodeAudioData bytes _ 24000 1) as [buffer|e];
        unfold checkpoint; cbn; rewrite foldl_app, Hreacts; cbn; [|done].
      unfold onmessage_end, interrupt.
      destruct (interrupted m), (turnComplete m); cbn; done.
    + unfold checkpoint; cbn. rewrite Hreacts. cbn. done.
  - unfold checkpoint, onmessage_end, interrupt.
    destruct (interrupted m), (turnComplete m); cbn; rewrite Hreacts; cbn; done.
Qed.

End Returns.

(** X6.  The transcript grows by the pieces of the messages in the order of
    their arrival, a space before each, for as long as no message ends the
    turn, whatever else the messages carry and whether or not their
    handlers run to the end; a message that ends the turn and whose handler
    runs to its end leaves the transcript empty. *)
Theorem transcript_accumulates :
  forall {Host} (onCommand : string -> option (gmap string string) -> Host -> result Host),
    (forall ms (w : World Host),
        quiescent w ->
        Forall (fun m => turnComplete (snd m) = false) ms ->
        transcript (deliver_all onCommand ms w)
        = (transcript w
             ++ foldr String.append EmptyString
                  (map (fun m => transcript_piece (snd m)) ms))%string)
    /\ (forall now m (w : World Host) c,
          quiescent w -> audioContexts w = Some c ->
          dispatch_returns onCommand (calls m) ->
          (forall e, audio_outcome m <> Dropped e) ->
          turnComplete m = true ->
          transcript (deliver onCommand now m w) = EmptyString).
Proof.
  intros Host onCommand. split.
  - intros ms. induction ms as [|[now m] ms IH]; intros w Hq Hms.
    + cbn. by rewrite append_nil_r.
    + apply Forall_cons in Hms as [Hm Hms]. cbn [deliver_all foldl map foldr fst snd] in *.
      destruct (deliver_general onCommand now m w Hq)
        as (Hq' & _ & _ & _ & _ & _ & _ & _ & Htr & _).
      cbv zeta in *. fold (deliver_all onCommand ms (deliver onCommand now m w)).
      rewrite IH, Htr by done. apply append_assoc.
  - intros now m w c Hq Hc Hret Haudio Hturn.
    destruct (deliver_state onCommand now m w c Hq Hc Hret) as [_ ->].
    rewrite Hturn. destruct (audio_outcome m) as [| |e] eqn:E; try done.
    by destruct (Haudio e).
Qed.

Lemma transcript_accumulates_witness :
  transcript
    (deliver_all App.onCommand
       [(0%Q, {| inputTranscription := Some (Some "show"); toolCall := None;
                 base64Audio := None; interrupted := false; turnComplete := false |});
        (0%Q, {| inputTranscription := Some (Some "my work"); toolCall := None;
                 base64Audio := None; interrupted := false; turnComplete := false |})]
       session_up)
  = " show my work"
  /\ transcript
       (deliver App.onCommand 0
          {| inputTranscription := Some (Some "please"); toolCall := None;
             base64Audio := None; interrupted := false; turnComplete := true |}
          session_up)
     = EmptyString.
Proof.
  split.
  - apply (proj1 (transcript_accumulates App.onCommand)
             [(0%Q, {| inputTranscription := Some (Some "show"); toolCall := None;
                       base64Audio := None; interrupted := false;
                       turnComplete := false |});
              (0%Q, {| inputTranscription := Some (Some "my work"); toolCall := None;
                       base64Audio := None; interrupted := false;
                       turnComplete := false |})]
             session_up); [reflexivity|].
    repeat (apply Forall_cons; split; [reflexivity|]). apply Forall_nil_2.
  - apply (proj2 (transcript_accumulates App.onCommand) 0%Q _ session_up contexts);
      try reflexivity; try done.
    intros fc [].
Defined.

(** X7.  A fragment that does not decode ends the handler where the
    decoding fails: the acknowledgements of the message still go out and
    the cursor has been moved up to the clock, but nothing is scheduled, an
    interruption in the same message stops nothing and leaves the set of
    sources as it was, and an end of turn does not clear the transcript. *)
Theorem undecodable_audio_skips_rest :
  forall {Host} (onCommand : string -> option (gmap string string) -> Host -> result Host)
         now m (w : World Host) c e,
    quiescent w -> audioContexts w = Some c ->
    dispatch_returns onCommand (calls m) ->
    audio_outcome m = Dropped e ->
    let w' := deliver onCommand now m w in
    quiescent w'
    /\ playback (trace w') = playback (trace w)
    /\ acknowledgements (trace w') = acknowledgements (trace w) ++ acks_of w m
    /\ In (Uncaught e) (trace w')
    /\ sources w' = sources w /\ nextSource w' = nextSource w
    /\ nextStartTime w' = Qmax (nextStartTime w) now
    /\ transcript w' = (transcript w ++ transcript_piece m)%string.
Proof.
  intros Host onCommand now m w c e Hq Hc Hret Haudio.
  destruct (deliver_spec onCommand now m w c Hq Hc Hret) as (Hq' & _ & _ & Hspec).
  destruct (deliver_state onCommand now m w c Hq Hc Hret) as [_ Htr].
  cbv zeta in *. rewrite Haudio in Hspec, Htr.
  destruct Hspec as ((before & after & Htrace & Hacks) & Hcur & Hsrc & Hnext).
  destruct (reactions_log_filters w (calls m)) as (Hpb & _ & _).
  pose proof (reactions_log_acks w m) as Hack.
  rewrite <- Hacks in Hpb, Hack.
  rewrite playback_app in Hpb. apply app_eq_nil in Hpb as [Hpb1 Hpb2].
  rewrite acknowledgements_app in Hack.
  split_and!; try done.
  - rewrite Htrace, !playback_app, Hpb1, Hpb2. cbn. by rewrite app_nil_r.
  - rewrite Htrace, !acknowledgements_app. cbn.
    by rewrite <- Hack.
  - rewrite Htrace, !in_app_iff. right. right. left. by left.
Qed.

Lemma undecodable_audio_skips_rest_witness :
  playback (trace (deliver App.onCommand 0 undecodable playing)) = playback (trace playing)
  /\ sources (deliver App.onCommand 0 undecodable playing) = sources playing
  /\ transcript (deliver App.onCommand 0 undecodable playing) = " stop".
Proof.
  destruct (undecodable_audio_skips_rest App.onCommand 0 undecodable playing contexts
              RangeError)
    as (_ & H1 & _ & _ & H2 & _ & _ & H3); try reflexivity.
  - intros fc [].
  - split_and!; [exact H1 | exact H2 | exact H3].
Defined.

(** ** The host *)

Lemma App_dispatch_all_theme fcs st :
  App.theme (dispatch_all App.onCommand fcs st)
  = (if Nat.even (toggles fcs) then App.theme st else negb (App.theme st))
  /\ App.isAdminOpen (dispatch_all App.onCommand fcs st)
     = App.isAdminOpen st || opens_admin fcs.
Proof.
  unfold dispatch_all, toggles, opens_admin. revert st.
  induction fcs as [|fc fcs IH]; intros st.
  - cbn. by rewrite orb_false_r.
  - cbn [foldl List.filter existsb].
    set (st1 := match App.onCommand (fc_name fc) (fc_args fc) st with
                | Ok h' => h' | Throw _ => st end).
    assert (App.theme st1
            = (if bool_decide (fc_name fc = "toggleTheme")
               then negb (App.theme st) else App.theme st)
            /\ App.isAdminOpen st1
               = App.isAdminOpen st || bool_decide (fc_name fc = "openAdmin"))
      as [Hth Had].
    { unfold st1, App.onCommand.
      destruct (bool_decide (fc_name fc = "navigateTo")) eqn:E1.
      - apply bool_decide_eq_true in E1. rewrite E1.
        destruct (fc_args fc); cbn; [|by rewrite orb_false_r].
        unfold App.navigateTo. destruct (App.section_exists _); cbn; by rewrite orb_false_r.
      - cbn. destruct (bool_decide (fc_name fc = "toggleTheme")) eqn:E2.
        + apply bool_decide_eq_true in E2. rewrite E2. cbn. by rewrite orb_false_r.
        + destruct (bool_decide (fc_name fc = "openAdmin")); cbn;
            [by rewrite orb_true_r | by rewrite orb_false_r]. }
    destruct (IH st1) as [-> ->]. rewrite Hth, Had.
    split; [|by rewrite orb_assoc].
    destruct (bool_decide (fc_name fc = "toggleTheme")); [|done].
    cbn [length]. rewrite Nat.even_succ, <- Nat.negb_even.
    destruct (Nat.even _), (App.theme st); done.
Qed.

(** X8.  The tool invocations of a message are applied to the host in
    their order, each to the state the one before it has left.  In the
    page this means: the theme after a message is the theme before it,
    flipped once for each [toggleTheme] among its invocations, and the
    admin panel is open if it was open or [openAdmin] is among them. *)
Theorem calls_applied_in_order :
  (forall {Host} (onCommand : string -> option (gmap string string) -> Host -> result Host)
          now m (w : World Host) c,
      quiescent w -> audioContexts w = Some c ->
      dispatch_returns onCommand (calls m) ->
      host (deliver onCommand now m w) = dispatch_all onCommand (calls m) (host w))
  /\ (forall now m (w : World App.State) c,
        quiescent w -> audioContexts w = Some c ->
        dispatch_returns App.onCommand (calls m) ->
        let st := host w in
        let st' := host (deliver App.onCommand now m w) in
        App.theme st'
        = (if Nat.even (toggles (calls m)) then App.theme st else negb (App.theme st))
        /\ App.isAdminOpen st' = App.isAdminOpen st || opens_admin (calls m)).
Proof.
  split.
  - intros Host onCommand now m w c Hq Hc Hret.
    by destruct (deliver_state onCommand now m w c Hq Hc Hret) as [-> _].
  - intros now m w c Hq Hc Hret. cbv zeta.
    destruct (deliver_state App.onCommand now m w c Hq Hc Hret) as [-> _].
    apply App_dispatch_all_theme.
Qed.

Lemma calls_applied_in_order_witness :
  App.theme (host (deliver App.onCommand 0 two_calls session_up))
  = negb (App.theme (host session_up))
  /\ App.isAdminOpen (host (deliver App.onCommand 0 two_calls session_up)) = false.
Proof.
  apply (proj2 calls_applied_in_order 0%Q two_calls session_up contexts);
    try reflexivity.
  intros fc [<-|[<-|[]]] h; by eexists.
Defined.

(** ** Captured frames and the session promise *)

Section Frames.

Context {Host : Type}.
Variable onCommand : string -> option (gmap string string) -> Host -> result Host.
Implicit Types w : World Host.

Lemma frames_sent_reactions s rs :
  frames_sent (map (reaction_effect s) rs) = map (fun b => (s, b)) (frames_of rs).
Proof.
  unfold frames_sent, frames_of. induction rs as [|[] rs IH]; cbn; by rewrite ?IH.
Qed.

Lemma frames_of_app rs1 rs2 : frames_of (rs1 ++ rs2) = frames_of rs1 ++ frames_of rs2.
Proof. apply omap_app. Qed.

(** Ticks once the promise is fulfilled each send their frame. *)
Lemma ticks_fulfilled ds w s :
  quiescent w -> sessionPromise w = Fulfilled s ->
  run onCommand (map AudioProcess ds) w
  = emit (map (fun d => SendRealtimeInput s (audio_blob d)) ds) w.
Proof.
  revert w. induction ds as [|d ds IH]; intros w Hq Hs.
  - cbn. by rewrite emit_nil.
  - cbn [map run foldl].
    assert (handle onCommand w (AudioProcess d)
            = emit [SendRealtimeInput s (audio_blob d)] w) as ->.
    { destruct w as [act con tr sref ctxs cur srcs prom mic cap h nxt mts log].
      unfold quiescent in Hq. cbn in Hq, Hs. subst mts prom. reflexivity. }
    fold (run onCommand (map AudioProcess ds) (emit [SendRealtimeInput s (audio_blob d)] w)).
    rewrite IH; [|by destruct w|by destruct w]. by rewrite emit_emit.
Qed.

(** A tick changes no promise from fulfilled to something else or back,
    so what a later tick sends at once is what it would have sent
    before. *)
Lemma sent_at_once_tick (p : Page Host) t t' :
  quiescent (component p) ->
  sent_at_once (page_handle onCommand p (tick t)) t' = sent_at_once p t'.
Proof.
  intros Hq. destruct (page_tick onCommand p t Hq) as (_ & _ & _ & _ & Hne & Heq).
  cbv zeta in *. unfold sent_at_once.
  destruct (decide (fst t' = fst t)) as [->|Hk].
  - rewrite Heq. destruct (closures p !! fst t) as [[[] ?]|]; done.
  - by rewrite (Hne _ Hk).
Qed.

Lemma frames_of_call_cons k t ts :
  frames_of_call k (t :: ts)
  = (if (fst t =? k)%nat then [audio_blob (snd t)] else []) ++ frames_of_call k ts.
Proof. unfold frames_of_call. cbn [List.filter]. by destruct (fst t =? k)%nat. Qed.

(** Ticks of the processors of any calls, in any order: the frames of the
    calls whose promise is fulfilled are sent at once, each to the session
    of its call; the frames of a call whose promise is pending are
    registered with that promise, in order. *)
Lemma page_ticks ts (p : Page Host) :
  quiescent (component p) ->
  let p1 := page_run onCommand (map tick ts) p in
  quiescent (component p1)
  /\ sessionRef (component p1) = sessionRef (component p)
  /\ sources (component p1) = sources (component p)
  /\ frames_sent (trace (component p1))
     = frames_sent (trace (component p)) ++ flat_map (sent_at_once p) ts
  /\ (forall t, sent_at_once p1 t = sent_at_once p t)
  /\ (forall k rs,
        promise <$> closures p !! k = Some (Pending rs) ->
        promise <$> closures p1 !! k
        = Some (Pending (rs ++ map RealtimeInput (frames_of_call k ts)))).
Proof.
  revert p. induction ts as [|t ts IH]; intros p Hq; cbv zeta.
  { cbn. rewrite app_nil_r. split_and!; try done.
    intros k rs ->. by rewrite app_nil_r. }
  destruct (page_tick onCommand p t Hq) as (Hq1 & Href1 & Hsrc1 & Htr1 & Hne1 & Heq1).
  pose proof (sent_at_once_tick p t) as Hsent1.
  cbn [map page_run foldl]. cbv zeta in *.
  remember (page_handle onCommand p (tick t)) as p1 eqn:Hp1. clear Hp1.
  fold (page_run onCommand (map tick ts) p1).
  destruct (IH p1 Hq1) as (Hq2 & Href2 & Hsrc2 & Htr2 & Hsent2 & Hpend2). cbv zeta in *.
  split_and!; [done|congruence|congruence| | |].
  - rewrite Htr2, Htr1, frames_sent_app, <- app_assoc. f_equal.
    cbn [flat_map]. f_equal.
    + unfold sent_at_once. destruct (promise <$> closures p !! fst t) as [[]|]; done.
    + apply flat_map_ext. intros t'. by apply Hsent1.
  - intros t'. rewrite Hsent2. by apply Hsent1.
  - intros k rs Hk. rewrite frames_of_call_cons.
    destruct (fst t =? k)%nat eqn:E.
    + apply Nat.eqb_eq in E. subst k. rewrite Hk in Heq1. cbn in Heq1.
      rewrite (Hpend2 _ _ Heq1). cbn [map app]. by rewrite <- app_assoc.
    + apply Nat.eqb_neq in E. cbn [app]. apply Hpend2.
      rewrite Hne1 by done. exact Hk.
Qed.

End Frames.

(** X9.  Frames captured while the session promise of their call is
    pending are not lost and not sent early.  While the promise of call
    [k] is pending, the processors of any calls tick in any order: a frame
    of a call whose promise is fulfilled is sent at once to the session of
    that call, and the frames of call [k] are registered with its promise.
    When that promise is fulfilled, the frames registered with it go out
    to its session in the order of their capture, and from then on every
    tick of call [k] sends its frame at once. *)
Theorem pending_frames_flushed :
  forall {Host} (onCommand : string -> option (gmap string string) -> Host -> result Host)
         (p : Page Host) k c rs ts s,
    quiescent (component p) -> closures p !! k = Some c -> promise c = Pending rs ->
    let p1 := page_run onCommand (map tick ts) p in
    let p2 := page_handle onCommand p1 (k, SessionSettled (Ok s)) in
    frames_sent (trace (component p1))
    = frames_sent (trace (component p)) ++ flat_map (sent_at_once p) ts
    /\ (forall d, sent_at_once p (k, d) = [])
    /\ promise <$> closures p1 !! k
       = Some (Pending (rs ++ map RealtimeInput (frames_of_call k ts)))
    /\ quiescent (component p2)
    /\ promise <$> closures p2 !! k = Some (Fulfilled s)
    /\ frames_sent (trace (component p2))
       = frames_sent (trace (component p1))
           ++ map (fun b => (s, b)) (frames_of rs ++ frames_of_call k ts)
    /\ forall ds,
         frames_sent
           (trace (component
                     (page_run onCommand (map (fun d => (k, AudioProcess d)) ds) p2)))
         = frames_sent (trace (component p2)) ++ map (fun d => (s, audio_blob d)) ds.
Proof.
  intros Host onCommand p k c rs ts s Hq Hc Hs. cbv zeta.
  destruct (page_ticks onCommand ts p Hq) as (Hq1 & _ & _ & Hfr1 & _ & Hpend1).
  cbv zeta in *.
  specialize (Hpend1 k rs). rewrite Hc in Hpend1. cbn in Hpend1. rewrite Hs in Hpend1.
  specialize (Hpend1 eq_refl).
  remember (page_run onCommand (map tick ts) p) as p1 eqn:Hp1. clear Hp1.
  destruct (closures p1 !! k) as [c1|] eqn:Hc1; [|done]. cbn in Hpend1.
  injection Hpend1 as Hpend1.
  destruct (page_fulfilled onCommand p1 k c1 _ s Hq1 Hc1 Hpend1) as (Hq2 & Hpr2 & Htr2).
  cbv zeta in *.
  remember (page_handle onCommand p1 (k, SessionSettled (Ok s))) as p2 eqn:Hp2. clear Hp2.
  split_and!; try done.
  - intros d. unfold sent_at_once. cbn [fst]. rewrite Hc. cbn. by rewrite Hs.
  - cbn. by rewrite Hpend1.
  - rewrite Htr2, frames_sent_app, frames_sent_reactions, frames_of_app. do 3 f_equal.
    unfold frames_of, frames_of_call.
    induction (List.filter _ ts) as [|t l IH]; cbn; by rewrite ?IH.
  - intros ds. destruct (closures p2 !! k) as [c2|] eqn:Hc2; [|done]. cbn in Hpr2.
    injection Hpr2 as Hpr2.
    destruct (page_ticks_fulfilled onCommand ds p2 k c2 s Hq2 Hc2 Hpr2) as (_ & -> & _).
    rewrite frames_sent_app. f_equal. unfold frames_sent.
    induction ds as [|d ds IH]; cbn; by rewrite ?IH.
Qed.

Lemma pending_frames_flushed_witness :
  frames_sent
    (trace (component
              (page_handle App.onCommand
                 (page_run App.onCommand
                    (map tick [(0%nat, [Num 0]); (1%nat, [Num 1]); (0%nat, [Num (1 # 2)])])
                    page_restarted)
                 (1%nat, SessionSettled (Ok 2%nat)))))
  = [(1%nat, audio_blob [Num 0]); (1%nat, audio_blob [Num (1 # 2)]);
     (2%nat, audio_blob [Num 1])].
Proof.
  destruct (pending_frames_flushed App.onCommand page_restarted 1%nat
              {| promise := Pending [];
                 processors := [{| bufferSize := 4096; numberOfInputChannels := 1;
                                   numberOfOutputChannels := 1 |}] |}
              [] [(0%nat, [Num 0]); (1%nat, [Num 1]); (0%nat, [Num (1 # 2)])] 2%nat
              eq_refl eq_refl eq_refl) as (H1 & _ & _ & _ & _ & H2 & _).
  rewrite H2, H1. reflexivity.
Defined.

(** X10.  When the session promise of a call is rejected, the frames
    registered with it are never sent: [startSession] goes through its
    [catch] block, and each frame registered, like each tick of that call
    afterwards, ends in a promise rejection that nothing handles. *)
Theorem rejected_frames_dropped :
  forall {Host} (onCommand : string -> option (gmap string string) -> Host -> result Host)
         (p : Page Host) k c rs ts e,
    quiescent (component p) -> closures p !! k = Some c -> promise c = Pending rs ->
    let p1 := page_run onCommand (map tick ts) p in
    let p2 := page_handle onCommand p1 (k, SessionSettled (Throw e)) in
    quiescent (component p2)
    /\ promise <$> closures p2 !! k = Some (Rejected e)
    /\ trace (component p2)
       = trace (component p1)
           ++ ConsoleError e :: cleanup_effects (component p)
           ++ map (fun _ => Uncaught e) (rs ++ map RealtimeInput (frames_of_call k ts))
    /\ frames_sent (trace (component p2)) = frames_sent (trace (component p1))
    /\ forall d,
         let p3 := page_handle onCommand p2 (k, AudioProcess d) in
         trace (component p3) = trace (component p2) ++ [Uncaught e]
         /\ promise <$> closures p3 !! k = Some (Rejected e).
Proof.
  intros Host onCommand p k c rs ts e Hq Hc Hs. cbv zeta.
  destruct (page_ticks onCommand ts p Hq) as (Hq1 & Href1 & Hsrc1 & _ & _ & Hpend1).
  cbv zeta in *.
  specialize (Hpend1 k rs). rewrite Hc in Hpend1. cbn in Hpend1. rewrite Hs in Hpend1.
  specialize (Hpend1 eq_refl).
  remember (page_run onCommand (map tick ts) p) as p1 eqn:Hp1. clear Hp1.
  destruct (closures p1 !! k) as [c1|] eqn:Hc1; [|done]. cbn in Hpend1.
  injection Hpend1 as Hpend1.
  destruct (page_rejected onCommand p1 k c1 _ e Hq1 Hc1 Hpend1) as (Hq2 & Hpr2 & Htr2).
  cbv zeta in *.
  remember (page_handle onCommand p1 (k, SessionSettled (Throw e))) as p2 eqn:Hp2.
  clear Hp2.
  assert (cleanup_effects (component p1) = cleanup_effects (component p)) as Hcl.
  { unfold cleanup_effects. by rewrite Href1, Hsrc1. }
  rewrite Hcl in Htr2.
  split_and!; try done.
  - rewrite Htr2.
    change (ConsoleError e :: ?l) with ([ConsoleError e] ++ l).
    rewrite !frames_sent_app.
    change (frames_sent [ConsoleError e]) with (@nil (nat * Blob)).
    assert (forall l : list Reaction, frames_sent (map (fun _ => Uncaught e) l) = []) as ->.
    { intros l. unfold frames_sent. by induction l. }
    assert (frames_sent (cleanup_effects (component p)) = []) as ->.
    { assert (forall l : list nat, frames_sent (map SourceStop l) = []) as Hstops.
      { intros l. unfold frames_sent. by induction l. }
      unfold cleanup_effects. rewrite frames_sent_app, Hstops.
      by destruct (sessionRef (component p)). }
    by rewrite !app_nil_r.
  - intros d. destruct (page_tick onCommand p2 (k, d) Hq2) as (_ & _ & _ & Htr3 & _ & Hpr3).
    cbv zeta in *. cbn [fst snd] in *. rewrite Hpr2 in Htr3, Hpr3. done.
Qed.

Lemma rejected_frames_dropped_witness :
  trace (component
           (page_handle App.onCommand
              (page_run App.onCommand
                 (map tick [(1%nat, [Num 1]); (0%nat, [Num 0])]) page_restarted)
              (1%nat, SessionSettled (Throw ConnectionError))))
  = trace (component page_restarted)
      ++ [SendRealtimeInput 1 (audio_blob [Num 0]);
          ConsoleError ConnectionError; Uncaught ConnectionError].
Proof.
  destruct (rejected_frames_dropped App.onCommand page_restarted 1%nat
              {| promise := Pending [];
                 processors := [{| bufferSize := 4096; numberOfInputChannels := 1;
                                   numberOfOutputChannels := 1 |}] |}
              [] [(1%nat, [Num 1]); (0%nat, [Num 0])] ConnectionError
              eq_refl eq_refl eq_refl) as (_ & _ & H & _).
  rewrite H. reflexivity.
Defined.

(** X11.  Closing does not stop the capture: when the connection closes on
    a session that is capturing, the component goes idle and forgets the
    session, but the processor stays connected and every later tick still
    sends its frame to the session that has closed. *)
Theorem frames_after_close :
  forall {Host} (onCommand : string -> option (gmap string string) -> Host -> result Host)
         (w : World Host) s ds,
    quiescent w -> sessionRef w = Some s -> sessionPromise w = Fulfilled s ->
    is_Some (capture w) ->
    let w1 := handle onCommand w Closed in
    lifecycle w1 = Idle /\ sessionRef w1 = None /\ sources w1 = []
    /\ is_Some (capture w1)
    /\ trace w1 = trace w ++ SessionClose s :: map SourceStop (sources w)
    /\ trace (run onCommand (map AudioProcess ds) w1)
       = trace w1 ++ map (fun d => SendRealtimeInput s (audio_blob d)) ds.
Proof.
  intros Host onCommand w s ds Hq Href Hs Hcap. cbv zeta.
  destruct w as [act con tr sref ctxs cur srcs prom mic cap h nxt mts log].
  unfold quiescent in Hq. cbn in Hq, Hs, Href, Hcap. subst mts prom sref.
  unfold handle, onclose, checkpoint. cbn.
  split_and!; try done.
  - by rewrite <- app_assoc.
  - by rewrite ticks_fulfilled with (s := s).
Qed.

Lemma frames_after_close_witness :
  trace (run App.onCommand (map AudioProcess [[Num 0]])
           (handle App.onCommand session_up Closed))
  = trace session_up ++ [SessionClose 1; SendRealtimeInput 1 (audio_blob [Num 0])].
Proof.
  destruct (frames_after_close App.onCommand session_up 1 [[Num 0]] eq_refl eq_refl eq_refl)
    as (_ & _ & _ & _ & H1 & H2); [by eexists|].
  rewrite H2, H1. reflexivity.
Defined.

(** X12.  A session that opens and is then stopped: from an idle
    component, the click, the microphone, the connection opening and the
    session promise being fulfilled lead to an active session that
    captures frames of 4096 samples, having asked for the microphone and
    connected once; a click then closes that session and leaves the
    component idle with an empty transcript. *)
Theorem open_then_stop :
  forall {Host} (onCommand : string -> option (gmap string string) -> Host -> result Host)
         (w : World Host) c s nc,
    quiescent w -> isActive w = false -> isConnecting w = false -> sources w = [] ->
    let w0 := handle onCommand w (Click (Ok c)) in
    let w1 := run onCommand [StreamSettled (Ok ()); Open; SessionSettled (Ok s)] w0 in
    let w2 := handle onCommand w1 (Click nc) in
    lifecycle w0 = Connecting
    /\ handle onCommand w0 (Click nc) = w0
    /\ w1 = opened c s w
    /\ lifecycle w1 = Active /\ active_session s w1
    /\ audioContexts w1 = Some (default c (audioContexts w))
    /\ capture w1 = Some {| bufferSize := 4096; numberOfInputChannels := 1;
                            numberOfOutputChannels := 1 |}
    /\ microphone w1 = true
    /\ trace w1 = trace w ++ [GetUserMedia; Connect]
    /\ lifecycle w2 = Idle /\ sessionRef w2 = None /\ transcript w2 = EmptyString
    /\ trace w2 = trace w1 ++ [SessionClose s].
Proof.
  intros Host onCommand w c s nc Hq Hact Hcon Hsrc.
  destruct w as [act con tr sref ctxs cur srcs prom mic cap h nxt mts log].
  unfold quiescent in Hq. cbn in Hq, Hact, Hcon, Hsrc. subst mts act con srcs.
  intros w0 w1 w2. destruct ctxs as [c0|].
  all: eassert (w0 = _) as E0
    by (unfold w0, handle, click, toggleVoice, checkpoint; world_cbv; cbn; reflexivity).
  all: clearbody w0; subst w0.
  all: eassert (w1 = _) as E1
    by (unfold w1, run; cbn [foldl]; unfold handle, onopen, checkpoint;
        world_cbv; cbn; world_cbv; reflexivity).
  all: clearbody w1; subst w1.
  all: eassert (w2 = _) as E2
    by (unfold w2, handle, click, toggleVoice, checkpoint; world_cbv; cbn; world_cbv;
        reflexivity).
  all: clearbody w2; subst w2.
  all: unfold opened, onopen, checkpoint, active_session, quiescent, lifecycle.
  all: world_cbv; cbn; world_cbv; rewrite <- ?app_assoc.
  all: split_and!; try done; by eexists.
Qed.


Lemma open_then_stop_witness :
  run App.onCommand [StreamSettled (Ok ()); Open; SessionSettled (Ok 1%nat)]
    (handle App.onCommand (initial host0) (Click (Ok contexts)))
  = session_up
  /\ lifecycle (handle App.onCommand session_up (Click (Ok contexts))) = Idle.
Proof.
  destruct (open_then_stop App.onCommand (initial host0) contexts 1%nat (Ok contexts)
              eq_refl eq_refl eq_refl eq_refl)
    as (_ & _ & H1 & _ & _ & _ & _ & _ & _ & H2 & _).
  split; [exact H1|]. rewrite H1 in H2. exact H2.
Defined.

(** ** Capture and playback, end to end *)

Lemma decodeAudioData_mono_channels data ctx rate :
  Nat.even (length data) = true ->
  (1 <= length data / 2)%nat ->
  (Z.of_nat (length data / 2) < 4294967296)%Z ->
  (8000 <= rate)%Q -> (rate <= 96000)%Q ->
  exists buffer,
    decodeAudioData data ctx rate 1 = Ok buffer
    /\ frames buffer = (length data / 2)%nat
    /\ channels buffer = [map (fun v => Num (inject_Z v / 32768)) (int16_elements data)].
Proof.
  intros Heven Hone Hmax Hlo Hhi.
  destruct (decodeAudioData_spec data ctx rate 1 Heven) as
    (buffer & Hok & _ & Hframes & _ & Hlen & Hch); try done; try lia.
  { by rewrite Nat.div_1_r. }
  { by rewrite Nat.div_1_r. }
  rewrite Nat.div_1_r in *.
  exists buffer. split_and!; [done|done|].
  destruct (Hch 0%nat) as (cd & Hcd & Hcdlen & Hi); [lia|].
  destruct (channels buffer) as [|cd' [|? ?]]; try done.
  cbn in Hcd. injection Hcd as ->. f_equal.
  apply list_eq. intros i. rewrite list_lookup_fmap.
  destruct (decide (i < length data / 2)%nat) as [Hlt|Hge].
  - destruct (Hi i Hlt) as (v & Hv & -> & _).
    rewrite Nat.mul_1_r, Nat.add_0_r in Hv. by rewrite Hv.
  - rewrite !lookup_ge_None_2; [done| |lia].
    rewrite int16_elements_length. lia.
Qed.

(** X13.  A captured frame that is played back: the payload of the blob
    that the capture builds decodes, through [decode] and
    [decodeAudioData], to one channel with as many samples as the frame,
    each the 16-bit conversion of the captured sample divided by 32768; a
    sample that is a multiple of 1/32768 in [-1, 1) comes back as it
    was. *)
Theorem capture_loopback :
  forall inputData ctx rate,
    (1 <= length inputData)%nat ->
    (Z.of_nat (length inputData) < 4294967296)%Z ->
    (8000 <= rate)%Q -> (rate <= 96000)%Q ->
    exists bytes buffer,
      decode (data (audio_blob inputData)) = Ok bytes
      /\ decodeAudioData bytes ctx rate 1 = Ok buffer
      /\ frames buffer = length inputData
      /\ channels buffer
         = [map (fun x => Num (inject_Z (ToInt16 (mul_32768 x)) / 32768)) inputData]
      /\ forall zs,
           Forall (fun z => -32768 <= z <= 32767)%Z zs ->
           inputData = map (fun z => Num (inject_Z z / 32768)) zs ->
           channels buffer = [inputData].
Proof.
  intros inputData ctx rate Hone Hmax Hlo Hhi.
  destruct (audio_blob_spec inputData) as (_ & _ & Hdec & Hel & Hlen).
  cbv zeta in *.
  set (bytes := Uint8Array_of_int16 (int16_of_floats inputData)) in *.
  assert (length bytes / 2 = length inputData)%nat as Hhalf.
  { rewrite Hlen, Nat.mul_comm. by apply Nat.div_mul. }
  destruct (decodeAudioData_mono_channels bytes ctx rate) as (buffer & Hok & Hfr & Hch);
    try done; try (rewrite Hhalf; done).
  { rewrite Hlen. rewrite Nat.even_mul. done. }
  exists bytes, buffer. rewrite Hhalf in Hfr. rewrite Hel in Hch.
  assert (channels buffer
          = [map (fun x => Num (inject_Z (ToInt16 (mul_32768 x)) / 32768)) inputData])
    as Hch'.
  { rewrite Hch. unfold int16_of_floats. by rewrite map_map. }
  split_and!; try done.
  intros zs Hzs ->. rewrite Hch'. f_equal. rewrite map_map.
  apply map_ext_in. intros z Hz. cbn [mul_32768].
  rewrite (ToInt16_exact _ z); [done| |].
  - unfold Qeq, Qdiv, Qmult, Qinv, inject_Z. cbn. lia.
  - rewrite Forall_forall in Hzs. apply Hzs. by apply list_elem_of_In.
Qed.

Lemma capture_loopback_witness :
  exists bytes buffer,
    decode (data (audio_blob [Num 0; Num (32767 # 32768)])) = Ok bytes
    /\ decodeAudioData bytes {| currentTime := 0 |} 24000 1 = Ok buffer
    /\ frames buffer = 2%nat.
Proof.
  destruct (capture_loopback [Num 0; Num (32767 # 32768)] {| currentTime := 0 |} 24000)
    as (bytes & buffer & H1 & H2 & H3 & _); [cbn; lia | cbn; lia | done | done |].
  exists bytes, buffer. split_and!; [exact H1 | exact H2 | exact H3].
Defined.

(** X14.  What [decodeAudioData] refuses beyond a half sample: with bytes
    of even length it throws [NotSupportedError] when there are fewer
    samples than channels (no bytes at all, with one channel) and when
    there is no channel; so a buffer that it returns has at least one
    frame, and its channels and rate are the ones asked for. *)
Theorem decodeAudioData_refuses :
  forall data ctx rate numChannels,
    Nat.even (length data) = true ->
    ((length data / 2 < numChannels)%nat ->
     decodeAudioData data ctx rate numChannels = Throw NotSupportedError)
    /\ (numChannels = 0%nat ->
        decodeAudioData data ctx rate numChannels = Throw NotSupportedError)
    /\ (forall buffer,
          decodeAudioData data ctx rate numChannels = Ok buffer ->
          (1 <= numChannels)%nat /\ (numChannels <= length data / 2)%nat
          /\ numberOfChannels buffer = numChannels /\ sampleRate buffer = rate
          /\ (1 <= frames buffer)%nat).
Proof.
  intros data ctx rate numChannels Heven.
  unfold decodeAudioData, Int16Array_of_buffer. rewrite Heven. cbn [bind_result].
  rewrite int16_elements_length. unfold createBuffer.
  assert ((length data / 2 < numChannels)%nat ->
          ToUint32 (js_div (length data / 2) numChannels) = 0%nat) as Hfew.
  { intros Hlt. destruct numChannels as [|n]; [lia|]. cbn [js_div ToUint32].
    rewrite Qtrunc_div by lia. by rewrite Nat.div_small. }
  split_and!.
  - intros Hlt. rewrite (Hfew Hlt). cbn [Nat.leb]. by rewrite !andb_false_r.
  - by intros ->.
  - intros buffer.
    destruct (_ && _) eqn:E; [|done]. cbn [bind_result]. intros [= <-].
    cbn [numberOfChannels sampleRate frames].
    apply andb_prop in E as [E E5]. apply andb_prop in E as [E E4].
    apply andb_prop in E as [E E3]. apply andb_prop in E as [E1 E2].
    apply Nat.leb_le in E1, E2, E3.
    split_and!; try done.
    destruct (decide (length data / 2 < numChannels)%nat) as [Hlt|]; [|lia].
    rewrite (Hfew Hlt) in E3. lia.
Qed.

Lemma decodeAudioData_refuses_witness :
  decodeAudioData [] {| currentTime := 0 |} 24000 1 = Throw NotSupportedError.
Proof.
  apply (proj1 (decodeAudioData_refuses [] {| currentTime := 0 |} 24000 1 eq_refl)).
  vm_compute. lia.
Defined.

(** ** More on base64 *)

Module Base64More.
Import Base64.

Lemma encode_chars_length bs :
  length (encode_chars bs) = (4 * ((length bs + 2) / 3))%nat.
Proof.
  unfold encode_chars. rewrite length_app, length_map, length_replicate.
  induction bs as [|a|a b|a b c l IH] using Base64Facts.list_ind3; try reflexivity.
  assert (padding (a :: b :: c :: l) = padding l) as ->.
  { unfold padding. cbn [length].
    replace (S (S (S (length l)))) with (length l + 1 * 3)%nat by lia.
    by rewrite Nat.Div0.mod_add. }
  cbn [sextets_of_bytes length].
  replace (S (S (S (length l))) + 2)%nat with ((length l + 2) + 1 * 3)%nat by lia.
  rewrite Nat.div_add by lia. lia.
Qed.

Lemma length_string_of_list_ascii cs :
  String.length (string_of_list_ascii cs) = length cs.
Proof. induction cs as [|c cs IH]; cbn; by rewrite ?IH. Qed.

Lemma strip_padding_plain body :
  Forall (fun c => c <> pad) body -> strip_padding body = body.
Proof.
  intros Hbody. destruct (length body mod 4 =? 0)%nat eqn:E.
  - apply Nat.eqb_eq in E.
    rewrite <- (app_nil_r body) at 1. change [] with (replicate 0 pad).
    apply Base64Facts.strip_padding_encoding; [done|lia|].
    cbn [replicate]. by rewrite app_nil_r.
  - unfold strip_padding. by rewrite E.
Qed.

(** Decoding of the text of an encoding, with its padding or without. *)
Lemma decode_chars_optional_padding bs k :
  k = 0%nat \/ k = padding bs ->
  decode_chars (map char_of_sextet (sextets_of_bytes bs) ++ replicate k pad) = Ok bs.
Proof.
  intros [-> | ->]; [|apply Base64Facts.decode_chars_encode_chars].
  cbn [replicate]. rewrite app_nil_r.
  unfold decode_chars.
  pose proof (Base64Facts.filter_padded (sextets_of_bytes bs) 0) as Hf.
  cbn [replicate] in Hf. rewrite app_nil_r in Hf. rewrite Hf.
  rewrite strip_padding_plain.
  - rewrite length_map.
    pose proof (Base64Facts.encoding_shape bs) as Hshape. cbn zeta in Hshape.
    assert ((length (sextets_of_bytes bs) mod 4 =? 1)%nat = false) as ->.
    { apply Nat.eqb_neq. by destruct Hshape as [[-> _]|[[-> _]|[-> _]]]. }
    rewrite Base64Facts.mapM_sextet_of_char by apply Base64Facts.sextets_of_bytes_bounded.
    by rewrite Base64Facts.bytes_of_sextets_of_bytes.
  - apply Forall_forall. intros c Hc.
    apply list_elem_of_In, in_map_iff in Hc as (v & <- & _).
    apply Base64Facts.char_of_sextet_plain.
Qed.

Lemma decode_chars_whitespace cs cs' :
  List.filter (fun c => negb (is_ascii_whitespace c)) cs
  = List.filter (fun c => negb (is_ascii_whitespace c)) cs' ->
  decode_chars cs = decode_chars cs'.
Proof. unfold decode_chars. by intros ->. Qed.

End Base64More.

(** X15.  The text that [encode] produces has four characters for every
    three bytes, the last group counted in full, and [encode] sends
    different bytes to different texts. *)
Theorem encode_length_injective :
  (forall bytes, String.length (encode bytes) = (4 * ((length bytes + 2) / 3))%nat)
  /\ (forall bytes bytes', encode bytes = encode bytes' -> bytes = bytes').
Proof.
  split.
  - intros bytes. unfold encode, Base64.btoa.
    rewrite Base64More.length_string_of_list_ascii, list_byte_of_string_of_list_byte.
    apply Base64More.encode_chars_length.
  - intros bytes bytes' H.
    pose proof (decode_encode bytes) as H1. rewrite H, decode_encode in H1.
    by injection H1.
Qed.

(** X16.  [decode] is forgiving: it reads the bytes back from their
    encoding with the padding left out as well as with the padding in
    place, and with whitespace inserted anywhere. *)
Theorem decode_forgiving_encoding :
  forall bytes x k,
    List.filter (fun c => negb (Base64.is_ascii_whitespace c)) (list_ascii_of_string x)
    = map Base64.char_of_sextet (Base64.sextets_of_bytes bytes)
        ++ replicate k Base64.pad ->
    k = 0%nat \/ k = Base64.padding bytes ->
    decode x = Ok bytes.
Proof.
  intros bytes x k Hx Hk. unfold decode, Base64.atob.
  rewrite (Base64More.decode_chars_whitespace _
             (map Base64.char_of_sextet (Base64.sextets_of_bytes bytes)
                ++ replicate k Base64.pad)).
  - rewrite Base64More.decode_chars_optional_padding by done.
    by rewrite list_byte_of_string_of_list_byte.
  - by rewrite Hx, Base64Facts.filter_padded.
Qed.

Lemma decode_forgiving_encoding_witness :
  decode " YWJ jZ A " = Ok ["a"; "b"; "c"; "d"]%byte.
Proof.
  apply (decode_forgiving_encoding ["a"; "b"; "c"; "d"]%byte _ 0%nat);
    [reflexivity | by left].
Defined.

Lemma encode_length_injective_witness :
  ["a"; "b"]%byte = ["a"; "b"]%byte.
Proof.
  apply (proj2 encode_length_injective ["a"; "b"]%byte ["a"; "b"]%byte). reflexivity.
Defined.

(** ** The project filter *)

Module FilterFacts.
Import Filter.

Lemma add_spec t acc x : x ∈ add t acc <-> x ∈ acc \/ x = t.
Proof.
  unfold add. case_bool_decide as H.
  - split; [by left|]. by intros [?| ->].
  - rewrite elem_of_app, list_elem_of_singleton. done.
Qed.

Lemma add_NoDup t acc : NoDup acc -> NoDup (add t acc).
Proof.
  intros Hnd. unfold add. case_bool_decide as H; [done|].
  apply NoDup_app. split_and!; [done| |apply NoDup_singleton].
  intros x Hx ->%list_elem_of_singleton. done.
Qed.

Lemma add_head t acc x : head acc = Some x -> head (add t acc) = Some x.
Proof.
  unfold add. case_bool_decide; [done|]. by destruct acc.
Qed.

Lemma add_all_spec ts acc x :
  x ∈ foldl (fun acc t => add t acc) acc ts <-> x ∈ acc \/ x ∈ ts.
Proof.
  revert acc. induction ts as [|t ts IH]; intros acc; cbn [foldl].
  - rewrite elem_of_nil. tauto.
  - rewrite IH, add_spec, elem_of_cons. tauto.
Qed.

Lemma add_all_NoDup ts acc :
  NoDup acc -> NoDup (foldl (fun acc t => add t acc) acc ts).
Proof.
  revert acc. induction ts as [|t ts IH]; intros acc Hnd; [done|].
  cbn [foldl]. by apply IH, add_NoDup.
Qed.

Lemma add_all_head ts acc x :
  head acc = Some x -> head (foldl (fun acc t => add t acc) acc ts) = Some x.
Proof.
  revert acc. induction ts as [|t ts IH]; intros acc Hh; [done|].
  cbn [foldl]. by apply IH, add_head.
Qed.

Lemma collect_spec ps acc x :
  x ∈ foldl (fun acc p => foldl (fun acc t => add t acc) acc (tags p)) acc ps
  <-> x ∈ acc \/ exists p, p ∈ ps /\ x ∈ tags p.
Proof.
  revert acc. induction ps as [|p ps IH]; intros acc; cbn [foldl].
  - split; [by left|]. intros [?|(p & Hp & _)]; [done|]. by apply elem_of_nil in Hp.
  - rewrite IH, add_all_spec. split.
    + intros [[?|?]|(q & Hq & ?)]; [by left| |].
      * right. exists p. split; [by left|done].
      * right. exists q. split; [by right|done].
    + intros [?|(q & Hq & ?)]; [by left; left|].
      apply elem_of_cons in Hq as [->|Hq]; [by left; right|].
      right. by exists q.
Qed.

Lemma collect_NoDup ps acc :
  NoDup acc ->
  NoDup (foldl (fun acc p => foldl (fun acc t => add t acc) acc (tags p)) acc ps).
Proof.
  revert acc. induction ps as [|p ps IH]; intros acc Hnd; [done|].
  cbn [foldl]. by apply IH, add_all_NoDup.
Qed.

Lemma collect_head ps acc x :
  head acc = Some x ->
  head (foldl (fun acc p => foldl (fun acc t => add t acc) acc (tags p)) acc ps) = Some x.
Proof.
  revert acc. induction ps as [|p ps IH]; intros acc Hh; [done|].
  cbn [foldl]. by apply IH, add_all_head.
Qed.

End FilterFacts.

(** X17.  The filter bar of the page: the tags offered start with ["All"],
    hold no tag twice, and are ["All"] and the tags of the projects; the
    filter ["All"] shows every project, any other filter shows the
    projects that carry the tag, in their order; and every tag offered
    other than ["All"] shows at least one project. *)
Theorem filter_bar :
  forall projects,
    head (Filter.allTags projects) = Some "All"
    /\ NoDup (Filter.allTags projects)
    /\ (forall t, t ∈ Filter.allTags projects
                  <-> t = "All" \/ exists p, p ∈ projects /\ t ∈ Filter.tags p)
    /\ Filter.filteredProjects projects "All" = projects
    /\ (forall t, t <> "All" ->
          Filter.filteredProjects projects t
          = List.filter (fun p => bool_decide (t ∈ Filter.tags p)) projects
          /\ (forall p, p ∈ Filter.filteredProjects projects t
                        <-> p ∈ projects /\ t ∈ Filter.tags p)
          /\ (t ∈ Filter.allTags projects -> Filter.filteredProjects projects t <> [])).
Proof.
  intros projects. unfold Filter.allTags.
  assert (Filter.add "All" [] = ["All"]) as -> by reflexivity.
  assert (forall t, t <> "All" ->
            Filter.filteredProjects projects t
            = List.filter (fun p => bool_decide (t ∈ Filter.tags p)) projects) as Hf.
  { intros t Ht. unfold Filter.filteredProjects. by rewrite bool_decide_eq_false_2. }
  assert (forall t p, t <> "All" ->
            p ∈ Filter.filteredProjects projects t <-> p ∈ projects /\ t ∈ Filter.tags p)
    as Hin.
  { intros t p Ht. rewrite (Hf t Ht), list_elem_of_In, filter_In, <- list_elem_of_In.
    by rewrite bool_decide_eq_true. }
  split_and!.
  - by apply FilterFacts.collect_head.
  - apply FilterFacts.collect_NoDup, NoDup_singleton.
  - intros t. rewrite FilterFacts.collect_spec, list_elem_of_singleton. done.
  - done.
  - intros t Ht. split_and!; [by apply Hf | intros p; by apply Hin |].
    rewrite FilterFacts.collect_spec, list_elem_of_singleton.
    intros [?|(p & Hp & Htag)]; [done|].
    intros Hnil. assert (p ∈ Filter.filteredProjects projects t) as Hp'
      by (by apply Hin).
    rewrite Hnil in Hp'. by apply elem_of_nil in Hp'.
Qed.

Lemma filter_bar_witness :
  Filter.allTags sample_projects = ["All"; "React"; "Node"]
  /\ Filter.filteredProjects sample_projects "Node" <> [].
Proof.
  split; [reflexivity|].
  destruct (filter_bar sample_projects) as (_ & _ & _ & _ & H).
  destruct (H "Node") as (_ & _ & H3); [discriminate|].
  apply H3. vm_compute. repeat constructor.
Defined.

(** ** Messages and the page *)

Lemma deliver_acknowledgements {Host}
    (onCommand : string -> option (gmap string string) -> Host -> result Host)
    now m (w : World Host) c :
  quiescent w -> audioContexts w = Some c ->
  dispatch_returns onCommand (calls m) ->
  acknowledgements (trace (deliver onCommand now m w))
  = acknowledgements (trace w) ++ acks_of w m.
Proof.
  intros Hq Hc Hret.
  destruct (deliver_spec onCommand now m w c Hq Hc Hret) as (_ & _ & _ & H).
  pose proof (reactions_log_acks w m) as Hacks.
  destruct (audio_outcome m) as [|b|e].
  - destruct H as (-> & _).
    rewrite !acknowledgements_app, Hacks.
    by rewrite (proj1 (proj2 (stops_if_filters _ _))).
  - destruct H as (-> & _).
    rewrite !acknowledgements_app, Hacks.
    change (SourceStart ?a ?b ?c :: ?l) with ([SourceStart a b c] ++ l).
    rewrite acknowledgements_app.
    by rewrite (proj1 (proj2 (stops_if_filters _ _))), app_nil_r.
  - destruct H as ((before & after & -> & Hba) & _).
    rewrite !acknowledgements_app. cbn [acknowledgements List.filter is_tool_response app].
    by rewrite <- Hacks, <- Hba, acknowledgements_app.
Qed.

(** X18.  A [navigateTo] whose arguments name no section of the page (or
    no section at all) is answered like any other: the page closes its
    menu and scrolls nowhere, the theme and the admin panel are as they
    were, and the invocation is acknowledged with ["ok"]. *)
Theorem unknown_section_acknowledged :
  forall now m (w : World App.State) c s fc args,
    quiescent w -> audioContexts w = Some c -> sessionPromise w = Fulfilled s ->
    toolCall m = Some [fc] ->
    fc_name fc = "navigateTo" -> fc_args fc = Some args ->
    App.section_exists (App.section_of args) = false ->
    let w' := deliver App.onCommand now m w in
    acknowledgements (trace w')
    = acknowledgements (trace w) ++ [SendToolResponse s (fc_id fc) "navigateTo" "ok"]
    /\ App.scrolledTo (host w') = App.scrolledTo (host w)
    /\ App.isMenuOpen (host w') = false
    /\ App.theme (host w') = App.theme (host w)
    /\ App.isAdminOpen (host w') = App.isAdminOpen (host w).
Proof.
  intros now m w c s fc args Hq Hc Hs Hm Hname Hargs Hsec. cbv zeta.
  assert (calls m = [fc]) as Hcalls by (unfold calls; by rewrite Hm).
  assert (forall st, App.onCommand (fc_name fc) (fc_args fc) st
                     = Ok {| App.isMenuOpen := false; App.theme := App.theme st;
                             App.isAdminOpen := App.isAdminOpen st;
                             App.scrolledTo := App.scrolledTo st |}) as Hcmd.
  { intros st. rewrite Hname, Hargs. unfold App.onCommand, App.navigateTo.
    rewrite Hsec. reflexivity. }
  assert (dispatch_returns App.onCommand (calls m)) as Hret.
  { rewrite Hcalls. intros fc' [<-|[]] st. rewrite Hcmd. by eexists. }
  rewrite (deliver_acknowledgements App.onCommand now m w c Hq Hc Hret).
  destruct (deliver_state App.onCommand now m w c Hq Hc Hret) as [-> _].
  unfold acks_of. rewrite Hs, Hcalls. unfold dispatch_all. cbn [foldl map].
  rewrite Hcmd, Hname. done.
Qed.

Lemma unknown_section_acknowledged_witness :
  acknowledgements (trace (deliver App.onCommand 0 navigate_nowhere session_up))
  = acknowledgements (trace session_up)
      ++ [SendToolResponse 1 "call-1" "navigateTo" "ok"]
  /\ App.scrolledTo (host (deliver App.onCommand 0 navigate_nowhere session_up)) = None.
Proof.
  destruct (unknown_section_acknowledged 0 navigate_nowhere session_up contexts 1
              {| fc_id := "call-1"; fc_name := "navigateTo";
                 fc_args := Some {[ "section" := "about" ]} |}
              {[ "section" := "about" ]})
    as (H1 & H2 & _); try reflexivity.
  split; [exact H1 | exact H2].
Defined.

(** X19.  A server message, whatever it carries and however its handler
    ends, leaves the lifecycle, the session, the devices and the capture
    as they were, sends no audio frame, and leaves the microtask queue
    empty. *)
Theorem message_keeps_session :
  forall {Host} (onCommand : string -> option (gmap string string) -> Host -> result Host)
         now m (w : World Host),
    quiescent w ->
    let w' := deliver onCommand now m w in
    quiescent w'
    /\ lifecycle w' = lifecycle w
    /\ sessionRef w' = sessionRef w
    /\ audioContexts w' = audioContexts w
    /\ microphone w' = microphone w /\ capture w' = capture w
    /\ frames_sent (trace w') = frames_sent (trace w)
    /\ (forall s, sessionPromise w = Fulfilled s -> sessionPromise w' = Fulfilled s).
Proof.
  intros Host onCommand now m w Hq.
  destruct (deliver_general onCommand now m w Hq)
    as (Hq' & Hact & Hcon & Href & Hctx & Hmic & Hcap & Hprom & _ & started & intr & new
        & Htr & _ & Hfs & _).
  cbv zeta in *. unfold lifecycle. rewrite Hact, Hcon, Htr, frames_sent_app, Hfs, app_nil_r.
  split_and!; done.
Qed.

Lemma message_keeps_session_witness :
  lifecycle (deliver App.onCommand 0 throwing_call session_up) = Active
  /\ frames_sent (trace (deliver App.onCommand 0 throwing_call session_up)) = [].
Proof.
  destruct (message_keeps_session App.onCommand 0 throwing_call session_up eq_refl)
    as (_ & H1 & _ & _ & _ & _ & H2 & _).
  split; [exact H1 | exact H2].
Defined.

(** X20.  A source that has ended is taken out of the set, so neither an
    interruption nor the end of the session calls [stop] on it; the other
    active sources are stopped in the order in which they started. *)
Theorem ended_source_not_stopped :
  forall {Host} (onCommand : string -> option (gmap string string) -> Host -> result Host)
         now (w : World Host) src,
    quiescent w ->
    let w1 := handle onCommand w (SourceEnded src) in
    let rest := List.filter (fun s => negb (s =? src)%nat) (sources w) in
    trace w1 = trace w /\ sources w1 = rest /\ ~ In src rest
    /\ playback (trace (handle onCommand w1 (ServerMessage now interrupted_message)))
       = playback (trace w) ++ map SourceStop rest
    /\ playback (trace (handle onCommand w1 Closed))
       = playback (trace w) ++ map SourceStop rest.
Proof.
  intros Host onCommand now w src Hq. cbv zeta.
  destruct w as [act con tr sref ctxs cur srcs prom mic cap h nxt mts log].
  unfold quiescent in Hq. cbn in Hq. subst mts.
  unfold handle, ended, onclose, checkpoint. cbn.
  split_and!; try done.
  - intros [_ Hne]%filter_In. by rewrite Nat.eqb_refl in Hne.
  - by rewrite playback_app, playback_stops.
  - destruct sref as [s|]; cbn; rewrite ?playback_app, playback_stops; cbn;
      by rewrite ?app_nil_r.
Qed.

Lemma ended_source_not_stopped_witness :
  playback (trace (handle App.onCommand (handle App.onCommand two_playing (SourceEnded 0))
                     (ServerMessage 0 interrupted_message)))
  = playback (trace two_playing) ++ [SourceStop 1].
Proof.
  destruct (ended_source_not_stopped App.onCommand 0 two_playing 0%nat eq_refl)
    as (_ & _ & _ & H & _).
  exact H.
Defined.
